(** * Per-placement connection handling (placement_connection.c)

    A shallow embedding of the placement connection manager of the
    coordinator: the three hash tables (placement id, colocated placements,
    shard id), the arena of connection references they point into, the
    selection and installation passes of [StartPlacementListConnection],
    the connection-closure hook and the commit-time shard checks.

    Pointers are modelled by what identifies the pointee:
    - a [ConnectionReference *] is an index into the arena [refs]
      (the allocations made in TopTransactionContext, in allocation order);
    - a [ConnectionPlacementHashEntry *] is the placement id the entry is
      stored under, a [ColocatedPlacementsHashEntry *] its hash key (dynahash
      entries never move and are only removed wholesale at transaction end);
    - a [MultiConnection *] is a handle (a natural number) into the pool's
      table of connections.
    [ereport(ERROR, ...)] leaves the function at once; what had been written
    to the hash tables up to that point stays written, so a failing call
    returns the error together with the state it left behind. *)

From Stdlib Require Import ZArith String List Bool Lia.
From stdpp Require Import base option list gmap strings fin_maps.

Local Open Scope Z_scope.

(** ** Data model *)

(** The partition methods of a distributed table. *)
Inductive PartitionMethod : Type :=
  | DISTRIBUTE_BY_HASH
  | DISTRIBUTE_BY_NONE
  | DISTRIBUTE_BY_RANGE
  | DISTRIBUTE_BY_APPEND.

(** The fields of a ShardPlacement that this file reads. *)
Record ShardPlacement : Type := {
  placementId : Z;
  shardId : Z;
  nodeName : string;
  nodePort : Z;
  partitionMethod : PartitionMethod;
  colocationGroupId : Z;
  representativeValue : Z
}.

Inductive ShardPlacementAccessType : Type :=
  | PLACEMENT_ACCESS_SELECT
  | PLACEMENT_ACCESS_DML
  | PLACEMENT_ACCESS_DDL.

Record ShardPlacementAccess : Type := {
  placement : ShardPlacement;
  accessType : ShardPlacementAccessType
}.

(** A connection reference; [connection = None] is the NULL pointer.  The
    dlist node [connectionNode] is represented on the connection's side, by
    the list [referencedPlacements]. *)
Record ConnectionReference : Type := {
  userName : option string;
  connection : option nat;
  hadDML : bool;
  hadDDL : bool
}.

(** What MemoryContextAllocZero returns for a ConnectionReference. *)
Definition zeroReference : ConnectionReference :=
  {| userName := None; connection := None; hadDML := false; hadDDL := false |}.

(** Key of the colocated placements hash: node name, node port, colocation
    group id, representative value.  Node names are taken to fit the
    MAX_NODE_LENGTH buffer, where strncmp over the buffer is string
    equality. *)
Abbreviation ColocatedPlacementsHashKey := (string * Z * Z * Z)%type.

Record ConnectionPlacementHashEntry : Type := {
  failed : bool;
  primaryConnection : nat;
  hasSecondaryConnections : bool;
  colocatedEntry : option ColocatedPlacementsHashKey
}.

Record ColocatedPlacementsHashEntry : Type := {
  coPrimaryConnection : nat;
  coHasSecondaryConnections : bool
}.

(** The fields of a MultiConnection that this file reads or writes. *)
Record MultiConnection : Type := {
  claimedExclusively : bool;
  transactionFailed : bool;
  referencedPlacements : list nat
}.

Definition idleConnection : MultiConnection :=
  {| claimedExclusively := false; transactionFailed := false;
     referencedPlacements := [] |}.

(** The per-backend state: the arena of connection references, the three
    hash tables and the pool's connections.  A shard entry's dlist
    [placementConnections] is the list of the placement ids of its members,
    in insertion order. *)
Record State : Type := {
  refs : list ConnectionReference;
  ConnectionPlacementHash : gmap Z ConnectionPlacementHashEntry;
  ColocatedPlacementsHash :
    gmap ColocatedPlacementsHashKey ColocatedPlacementsHashEntry;
  ConnectionShardHash : gmap Z (list Z);
  connections : gmap nat MultiConnection
}.

(** State right after InitPlacementConnectionManagement. *)
Definition InitPlacementConnectionManagement : State :=
  {| refs := []; ConnectionPlacementHash := ∅; ColocatedPlacementsHash := ∅;
     ConnectionShardHash := ∅; connections := ∅ |}.

Definition with_refs (f : list ConnectionReference → list ConnectionReference)
    (st : State) : State :=
  {| refs := f (refs st);
     ConnectionPlacementHash := ConnectionPlacementHash st;
     ColocatedPlacementsHash := ColocatedPlacementsHash st;
     ConnectionShardHash := ConnectionShardHash st;
     connections := connections st |}.

Definition with_placements
    (f : gmap Z ConnectionPlacementHashEntry → gmap Z ConnectionPlacementHashEntry)
    (st : State) : State :=
  {| refs := refs st;
     ConnectionPlacementHash := f (ConnectionPlacementHash st);
     ColocatedPlacementsHash := ColocatedPlacementsHash st;
     ConnectionShardHash := ConnectionShardHash st;
     connections := connections st |}.

Definition with_colocated
    (f : gmap ColocatedPlacementsHashKey ColocatedPlacementsHashEntry →
         gmap ColocatedPlacementsHashKey ColocatedPlacementsHashEntry)
    (st : State) : State :=
  {| refs := refs st;
     ConnectionPlacementHash := ConnectionPlacementHash st;
     ColocatedPlacementsHash := f (ColocatedPlacementsHash st);
     ConnectionShardHash := ConnectionShardHash st;
     connections := connections st |}.

Definition with_shards (f : gmap Z (list Z) → gmap Z (list Z))
    (st : State) : State :=
  {| refs := refs st;
     ConnectionPlacementHash := ConnectionPlacementHash st;
     ColocatedPlacementsHash := ColocatedPlacementsHash st;
     ConnectionShardHash := f (ConnectionShardHash st);
     connections := connections st |}.

Definition with_connections
    (f : gmap nat MultiConnection → gmap nat MultiConnection)
    (st : State) : State :=
  {| refs := refs st;
     ConnectionPlacementHash := ConnectionPlacementHash st;
     ColocatedPlacementsHash := ColocatedPlacementsHash st;
     ConnectionShardHash := ConnectionShardHash st;
     connections := f (connections st) |}.

(** Reading through a [ConnectionReference *].  Every address the code
    holds was handed out by [allocReference]; an address outside the arena
    reads as zeroed memory. *)
Definition deref (st : State) (a : nat) : ConnectionReference :=
  default zeroReference (refs st !! a).

(** Writing through a [ConnectionReference *]. *)
Definition store (a : nat) (r : ConnectionReference) (st : State) : State :=
  with_refs (λ h, <[a := r]> h) st.

(** MemoryContextAllocZero(TopTransactionContext, sizeof(ConnectionReference)):
    a new zeroed reference at the end of the arena. *)
Definition allocReference (st : State) : nat * State :=
  (length (refs st), with_refs (λ h, h ++ [zeroReference]) st).

(** Reading through a [MultiConnection *]. *)
Definition getConnection (conns : gmap nat MultiConnection) (c : nat)
    : MultiConnection :=
  default idleConnection (conns !! c).

Definition set_connection (c : option nat) (r : ConnectionReference)
    : ConnectionReference :=
  {| userName := userName r; connection := c;
     hadDML := hadDML r; hadDDL := hadDDL r |}.

Definition set_userName (u : option string) (r : ConnectionReference)
    : ConnectionReference :=
  {| userName := u; connection := connection r;
     hadDML := hadDML r; hadDDL := hadDDL r |}.

Definition set_hadDML (b : bool) (r : ConnectionReference)
    : ConnectionReference :=
  {| userName := userName r; connection := connection r;
     hadDML := b; hadDDL := hadDDL r |}.

Definition set_hadDDL (b : bool) (r : ConnectionReference)
    : ConnectionReference :=
  {| userName := userName r; connection := connection r;
     hadDML := hadDML r; hadDDL := b |}.

Definition set_hasSecondaryConnections (b : bool)
    (e : ConnectionPlacementHashEntry) : ConnectionPlacementHashEntry :=
  {| failed := failed e; primaryConnection := primaryConnection e;
     hasSecondaryConnections := b; colocatedEntry := colocatedEntry e |}.

Definition set_failed (b : bool)
    (e : ConnectionPlacementHashEntry) : ConnectionPlacementHashEntry :=
  {| failed := b; primaryConnection := primaryConnection e;
     hasSecondaryConnections := hasSecondaryConnections e;
     colocatedEntry := colocatedEntry e |}.

Definition set_coHasSecondaryConnections (b : bool)
    (e : ColocatedPlacementsHashEntry) : ColocatedPlacementsHashEntry :=
  {| coPrimaryConnection := coPrimaryConnection e;
     coHasSecondaryConnections := b |}.

Definition push_referencedPlacement (a : nat) (m : MultiConnection)
    : MultiConnection :=
  {| claimedExclusively := claimedExclusively m;
     transactionFailed := transactionFailed m;
     referencedPlacements := referencedPlacements m ++ [a] |}.

(** The errors raised with ereport(ERROR) by the selection pass, named as
    in the specification's table of failure kinds, with the placement id
    the message prints.  [NilAccessList] stands for the NULL dereference of
    linitial on an empty access list. *)
Inductive PlacementError : Type :=
  | DdlOnSecondaryRead (pid : Z)
  | DdlOnColocatedSecondaryRead (pid : Z)
  | MultiConnectionWrite
  | NewConnOverDdl (pid : Z)
  | NewConnOverDml (pid : Z)
  | ParallelDdl
  | NilAccessList.

(** The locals of StartPlacementListConnection that the selection loop
    carries from one access to the next. *)
Record Selection : Type := {
  chosenConnection : option nat;
  foundModifyingConnection : bool;
  placementEntryList : list Z
}.

Definition initialSelection : Selection :=
  {| chosenConnection := None; foundModifyingConnection := false;
     placementEntryList := [] |}.

(** ** The catalog *)

(** Modelled from the spec: the shard states the catalog adapter reports
    (FINALIZED, INACTIVE and others); the header that declares the
    enumeration is not part of this file. *)
Inductive ShardState : Type :=
  | FILE_FINALIZED
  | FILE_INACTIVE
  | FILE_OTHER (code : Z).

#[global] Instance ShardState_eq_dec : EqDecision ShardState.
Proof. solve_decision. Defined.

(** Modelled from the spec: the catalog adapter.  The catalog holds one
    shard state per placement id; [LoadGroupShardPlacement] reads the row of
    a placement and [UpdateShardPlacementState] overwrites its state.  A
    placement without a row has no state to compare with FILE_FINALIZED. *)
Definition LoadGroupShardPlacement (cat : gmap Z ShardState)
    (shard placementId : Z) : option ShardState :=
  cat !! placementId.

Definition UpdateShardPlacementState (placementId : Z) (newState : ShardState)
    (cat : gmap Z ShardState) : gmap Z ShardState :=
  <[placementId := newState]> cat.

(** Modelled from the spec: the pool-level lease on a connection, which
    the acquire path only reads. *)
Definition ClaimConnectionExclusively (c : nat) (st : State) : State :=
  with_connections
    (λ conns, <[c := {| claimedExclusively := true;
                        transactionFailed :=
                          transactionFailed (getConnection conns c);
                        referencedPlacements :=
                          referencedPlacements (getConnection conns c) |}]> conns)
    st.

(** Modelled from the spec: the remote transaction of a connection is
    marked failed by the remote transaction tracking. *)
Definition MarkRemoteTransactionFailed (c : nat) (st : State) : State :=
  with_connections
    (λ conns, <[c := {| claimedExclusively :=
                          claimedExclusively (getConnection conns c);
                        transactionFailed := true;
                        referencedPlacements :=
                          referencedPlacements (getConnection conns c) |}]> conns)
    st.

(** Modelled from the spec: a pool adapter that opens a new session for
    every request, numbering its connections 1, 2, ... in the order they
    are opened. *)
Definition OpenNewConnection (flags : Z) (nodeName : string) (nodePort : Z)
    (conns : gmap nat MultiConnection) : nat * gmap nat MultiConnection :=
  let c := S (size conns) in (c, <[c := idleConnection]> conns).

(** ** Operations *)

(** Constants of headers that are not part of this file, and the two
    collaborators the acquire path calls: the session user and the
    connection pool.  [StartNodeConnection flags nodeName nodePort] is
    given the pool's connections and returns a handle together with the
    pool's connections afterwards. *)
Class Externals : Type := {
  FORCE_NEW_CONNECTION : Z;
  INVALID_SHARD_ID : Z;
  CurrentUserName : string;
  StartNodeConnection :
    Z → string → Z → gmap nat MultiConnection → nat * gmap nat MultiConnection
}.

(** hash_seq_search over the shard hash.  dynahash yields every entry of a
    table that is not changed during the scan exactly once, in an order
    that depends on the hash values and on the history of the table; the
    order is therefore left open: any list with the keys of the table, each
    of them once. *)
Class HashSeqSearch : Type := {
  hash_seq_search : gmap Z (list Z) → list Z;
  hash_seq_search_NoDup : ∀ h, NoDup (hash_seq_search h);
  hash_seq_search_elem : ∀ h k, k ∈ hash_seq_search h ↔ is_Some (h !! k)
}.

Section PlacementConnection.

Context {ext : Externals} {walk : HashSeqSearch}.

(** AssociatePlacementWithShard: the shard entry is entered into the shard
    hash if it is new, and the placement entry is appended to its list
    unless an entry with the placement's id is already on it. *)
Definition AssociatePlacementWithShard (placementEntry : Z)
    (placement : ShardPlacement) (st : State) : State :=
  let members := default [] (ConnectionShardHash st !! shardId placement) in
  if bool_decide (placementId placement ∈ members)
  then st
  else with_shards (λ h, <[shardId placement := members ++ [placementEntry]]> h) st.

Definition ColocatedKey (placement : ShardPlacement)
    : ColocatedPlacementsHashKey :=
  (nodeName placement, nodePort placement, colocationGroupId placement,
   representativeValue placement).

(** FindOrCreatePlacementEntry; returns the entry (its placement id) and the
    state afterwards. *)
Definition FindOrCreatePlacementEntry (placement : ShardPlacement)
    (st : State) : Z * State :=
  let st1 :=
    match ConnectionPlacementHash st !! placementId placement with
    | Some _ => st
    | None =>
        match partitionMethod placement with
        | DISTRIBUTE_BY_HASH | DISTRIBUTE_BY_NONE =>
            let key := ColocatedKey placement in
            let '(conRef, st') :=
              match ColocatedPlacementsHash st !! key with
              | Some colocated => (coPrimaryConnection colocated, st)
              | None =>
                  let '(conRef, st') := allocReference st in
                  (conRef,
                   with_colocated
                     (λ h, <[key := {| coPrimaryConnection := conRef;
                                       coHasSecondaryConnections := false |}]> h)
                     st')
              end in
            with_placements
              (λ h, <[placementId placement :=
                        {| failed := false; primaryConnection := conRef;
                           hasSecondaryConnections := false;
                           colocatedEntry := Some key |}]> h) st'
        | _ =>
            let '(conRef, st') := allocReference st in
            with_placements
              (λ h, <[placementId placement :=
                        {| failed := false; primaryConnection := conRef;
                           hasSecondaryConnections := false;
                           colocatedEntry := None |}]> h) st'
        end
    end in
  (placementId placement,
   AssociatePlacementWithShard (placementId placement) placement st1).

(** CanUseExistingConnection.  The user name of a reference is only read
    once its connection is known to be set. *)
Definition CanUseExistingConnection (flags : Z) (user : string)
    (st : State) (connectionReference : ConnectionReference) : bool :=
  match connection connectionReference with
  | None => false
  | Some c =>
      if claimedExclusively (getConnection (connections st) c) then false
      else if negb (Z.land flags FORCE_NEW_CONNECTION =? 0) then false
      else match userName connectionReference with
           | Some u => if String.eqb u user then true else false
           | None => false
           end
  end.

Definition isDDL (a : ShardPlacementAccessType) : bool :=
  match a with PLACEMENT_ACCESS_DDL => true | _ => false end.

Definition isDML (a : ShardPlacementAccessType) : bool :=
  match a with PLACEMENT_ACCESS_DML => true | _ => false end.

Definition isSELECT (a : ShardPlacementAccessType) : bool :=
  match a with PLACEMENT_ACCESS_SELECT => true | _ => false end.

(** The chain of conditions the selection loop evaluates for one access,
    once the placement entry is at hand: an error, or the new values of
    chosenConnection and foundModifyingConnection. *)
Definition CheckPlacementAccess (flags : Z) (user : string) (st : State)
    (pid : Z) (access : ShardPlacementAccessType)
    (placementEntry : ConnectionPlacementHashEntry)
    (chosen : option nat) (foundModifying : bool)
    : PlacementError + (option nat * bool) :=
  let placementConnection := deref st (primaryConnection placementEntry) in
  let colocatedHasSecondary :=
    match colocatedEntry placementEntry with
    | Some key =>
        match ColocatedPlacementsHash st !! key with
        | Some colocated => coHasSecondaryConnections colocated
        | None => false
        end
    | None => false
    end in
  if bool_decide (connection placementConnection = None) then
    inr (chosen, foundModifying)
  else if isDDL access && hasSecondaryConnections placementEntry then
    inl (DdlOnSecondaryRead pid)
  else if isDDL access && colocatedHasSecondary then
    inl (DdlOnColocatedSecondaryRead pid)
  else if foundModifying then
    if (hadDDL placementConnection || hadDML placementConnection)
       && negb (bool_decide (connection placementConnection = chosen))
    then inl MultiConnectionWrite
    else inr (chosen, foundModifying)
  else if CanUseExistingConnection flags user st placementConnection then
    inr (connection placementConnection,
         if hadDDL placementConnection || hadDML placementConnection
         then true else foundModifying)
  else if hadDDL placementConnection then
    inl (NewConnOverDdl pid)
  else if hadDML placementConnection then
    inl (NewConnOverDml pid)
  else if isDDL access then
    inl ParallelDdl
  else
    inr (chosen, foundModifying).

(** The first loop of StartPlacementListConnection.  An access to the dummy
    placement (shardId = INVALID_SHARD_ID) is passed over by [continue]. *)
Fixpoint SelectionPass (flags : Z) (user : string)
    (placementAccessList : list ShardPlacementAccess)
    (sel : Selection) (st : State) : State * (PlacementError + Selection) :=
  match placementAccessList with
  | [] => (st, inr sel)
  | placementAccess :: rest =>
      let p := placement placementAccess in
      if shardId p =? INVALID_SHARD_ID then
        SelectionPass flags user rest sel st
      else
        let '(entry, st1) := FindOrCreatePlacementEntry p st in
        match ConnectionPlacementHash st1 !! entry with
        | None => (st1, inr sel) (* never taken: the entry was just entered *)
        | Some placementEntry =>
            match CheckPlacementAccess flags user st1 (placementId p)
                    (accessType placementAccess) placementEntry
                    (chosenConnection sel) (foundModifyingConnection sel) with
            | inl err => (st1, inl err)
            | inr (chosen, foundModifying) =>
                SelectionPass flags user rest
                  {| chosenConnection := chosen;
                     foundModifyingConnection := foundModifying;
                     placementEntryList := placementEntryList sel ++ [entry] |}
                  st1
            end
        end
  end.

(** The body of the second loop, for one access type paired with one
    placement entry. *)
Definition InstallStep (chosen : nat) (user : string)
    (access : ShardPlacementAccessType) (entry : Z) (st : State) : State :=
  match ConnectionPlacementHash st !! entry with
  | None => st (* never taken: entries on the list are in the hash *)
  | Some placementEntry =>
      let a := primaryConnection placementEntry in
      let placementConnection := deref st a in
      let st1 :=
        if bool_decide (connection placementConnection = Some chosen) then st
        else if bool_decide (connection placementConnection = None) then
          with_connections
            (λ conns, <[chosen := push_referencedPlacement a
                                    (getConnection conns chosen)]> conns)
            (store a {| userName := Some user; connection := Some chosen;
                        hadDML := false; hadDDL := false |} st)
        else
          let st' :=
            if negb (isSELECT access) then
              store a (set_userName (Some user)
                         (set_connection (Some chosen) placementConnection)) st
            else st in
          let st'' :=
            with_placements
              (λ h, <[entry := set_hasSecondaryConnections true placementEntry]> h)
              st' in
          match colocatedEntry placementEntry with
          | Some key =>
              with_colocated
                (λ h, alter (set_coHasSecondaryConnections true) key h) st''
          | None => st''
          end in
      let st2 :=
        if isDDL access then store a (set_hadDDL true (deref st1 a)) st1
        else st1 in
      if isDML access then store a (set_hadDML true (deref st2 a)) st2
      else st2
  end.

(** The second loop: forboth walks the access list and the entry list in
    step and stops at the end of the shorter one. *)
Fixpoint InstallPass (chosen : nat) (user : string)
    (placementAccessList : list ShardPlacementAccess)
    (placementEntryList : list Z) (st : State) : State :=
  match placementAccessList, placementEntryList with
  | placementAccess :: accesses, entry :: entries =>
      InstallPass chosen user accesses entries
        (InstallStep chosen user (accessType placementAccess) entry st)
  | _, _ => st
  end.

(** StartPlacementListConnection: the state afterwards and either the error
    raised or the connection returned. *)
Definition StartPlacementListConnection (flags : Z)
    (placementAccessList : list ShardPlacementAccess)
    (userName : option string) (st : State) : State * (PlacementError + nat) :=
  let user := default CurrentUserName userName in
  match SelectionPass flags user placementAccessList initialSelection st with
  | (st1, inl err) => (st1, inl err)
  | (st1, inr sel) =>
      let picked :=
        match chosenConnection sel with
        | Some c => Some (c, st1)
        | None =>
            match placementAccessList with
            | [] => None
            | first :: _ =>
                let '(c, conns) :=
                  StartNodeConnection flags (nodeName (placement first))
                    (nodePort (placement first)) (connections st1) in
                Some (c, with_connections (λ _, conns) st1)
            end
        end in
      match picked with
      | None => (st1, inl NilAccessList)
      | Some (c, st2) =>
          (InstallPass c user placementAccessList (placementEntryList sel) st2,
           inr c)
      end
  end.

(** CloseShardPlacementAssociation: every reference on the connection's
    list loses its connection; nothing else of it is touched. *)
Definition CloseShardPlacementAssociation (c : nat) (st : State) : State :=
  foldl (λ s a, store a (set_connection None (deref s a)) s) st
    (referencedPlacements (getConnection (connections st) c)).

(** ResetShardPlacementAssociation. *)
Definition ResetShardPlacementAssociation (c : nat) (st : State) : State :=
  with_connections
    (λ conns, <[c := {| claimedExclusively :=
                          claimedExclusively (getConnection conns c);
                        transactionFailed :=
                          transactionFailed (getConnection conns c);
                        referencedPlacements := [] |}]> conns) st.

(** ResetPlacementConnectionManagement: the three hash tables are emptied;
    the references go with TopTransactionContext. *)
Definition ResetPlacementConnectionManagement (st : State) : State :=
  {| refs := []; ConnectionPlacementHash := ∅; ColocatedPlacementsHash := ∅;
     ConnectionShardHash := ∅; connections := connections st |}.

(** *** Commit-time checks *)

(** Severity and kind of the reports of the commit-time checks:
    "could not make changes to shard S on any node",
    "could not commit transaction for shard S on any active node",
    "could not commit transaction on any active node". *)
Inductive CommitReport : Type :=
  | ShardAllPlacementsFailed (shard : Z)
  | ShardCommitFailed (shard : Z)
  | NoShardCommitted.

(** First loop of CheckShardPlacements for one member: placements that
    were not modified are passed over; a modified one counts as a failure
    (and gets its [failed] flag set) when its connection is gone or its
    remote transaction failed, as a success otherwise.  The primary
    reference of an entry is never NULL once FindOrCreatePlacementEntry has
    returned, so that test of the source has no counterpart here.  The
    counters are the C ints [failures] and [successes], which the members
    of one shard entry cannot overflow. *)
Definition ClassifyPlacement (acc : State * nat * nat) (entry : Z)
    : State * nat * nat :=
  let '(st, failures, successes) := acc in
  match ConnectionPlacementHash st !! entry with
  | None => acc (* never taken: members of a shard entry are in the hash *)
  | Some placementEntry =>
      let primary := deref st (primaryConnection placementEntry) in
      if negb (hadDDL primary || hadDML primary) then acc
      else
        let connectionFailed :=
          match connection primary with
          | None => true
          | Some c => transactionFailed (getConnection (connections st) c)
          end in
        if connectionFailed then
          (with_placements (λ h, <[entry := set_failed true placementEntry]> h) st,
           S failures, successes)
        else (st, failures, S successes)
  end.

(** Second loop of CheckShardPlacements for one member: a placement whose
    [failed] flag is set is marked FILE_INACTIVE in the catalog if the
    catalog has it as FILE_FINALIZED. *)
Definition InvalidatePlacement (st : State) (shard : Z)
    (cat : gmap Z ShardState) (entry : Z) : gmap Z ShardState :=
  match ConnectionPlacementHash st !! entry with
  | None => cat
  | Some placementEntry =>
      if failed placementEntry then
        match LoadGroupShardPlacement cat shard entry with
        | Some FILE_FINALIZED => UpdateShardPlacementState entry FILE_INACTIVE cat
        | _ => cat
        end
      else cat
  end.

(** CheckShardPlacements, for the shard entry stored under [shard]: the
    state and the catalog afterwards, and the result. *)
Definition CheckShardPlacements (shard : Z) (st : State)
    (cat : gmap Z ShardState) : State * gmap Z ShardState * bool :=
  let members := default [] (ConnectionShardHash st !! shard) in
  let '(st1, failures, successes) :=
    foldl ClassifyPlacement (st, 0%nat, 0%nat) members in
  if (0 <? failures)%nat && (successes =? 0)%nat then (st1, cat, false)
  else (st1, foldl (InvalidatePlacement st1 shard) cat members, true).

(** The loop of MarkFailedShardPlacements over the shard hash, in the
    order hash_seq_search yields the entries. *)
Fixpoint MarkFailedLoop (shards : list Z) (st : State)
    (cat : gmap Z ShardState)
    : State * gmap Z ShardState * option CommitReport :=
  match shards with
  | [] => (st, cat, None)
  | shard :: rest =>
      let '(st1, cat1, ok) := CheckShardPlacements shard st cat in
      if ok then MarkFailedLoop rest st1 cat1
      else (st1, cat1, Some (ShardAllPlacementsFailed shard))
  end.

Definition MarkFailedShardPlacements (st : State) (cat : gmap Z ShardState)
    : State * gmap Z ShardState * option CommitReport :=
  MarkFailedLoop (hash_seq_search (ConnectionShardHash st)) st cat.

(** The loop of PostCommitMarkFailedShardPlacements.  A report at level
    ERROR ends the function; one at level WARNING is emitted and the loop
    goes on.  The result carries the warnings emitted, the counters and the
    error raised inside the loop, if any. *)
Fixpoint PostCommitLoop (using2PC : bool) (shards : list Z)
    (attempts successes : nat) (warnings : list CommitReport)
    (st : State) (cat : gmap Z ShardState)
    : State * gmap Z ShardState * list CommitReport * nat * nat
      * option CommitReport :=
  match shards with
  | [] => (st, cat, warnings, attempts, successes, None)
  | shard :: rest =>
      let '(st1, cat1, ok) := CheckShardPlacements shard st cat in
      if ok then
        PostCommitLoop using2PC rest (S attempts) (S successes) warnings st1 cat1
      else if using2PC then
        (st1, cat1, warnings, S attempts, successes,
         Some (ShardCommitFailed shard))
      else
        PostCommitLoop using2PC rest (S attempts) successes
          (warnings ++ [ShardCommitFailed shard]) st1 cat1
  end.

(** PostCommitMarkFailedShardPlacements: the state and catalog afterwards,
    the warnings emitted and the error raised, if any. *)
Definition PostCommitMarkFailedShardPlacements (using2PC : bool)
    (st : State) (cat : gmap Z ShardState)
    : State * gmap Z ShardState * list CommitReport * option CommitReport :=
  let '(st1, cat1, warnings, attempts, successes, err) :=
    PostCommitLoop using2PC (hash_seq_search (ConnectionShardHash st))
      0%nat 0%nat [] st cat in
  match err with
  | Some e => (st1, cat1, warnings, Some e)
  | None =>
      if (0 <? attempts)%nat && (successes =? 0)%nat
      then (st1, cat1, warnings, Some NoShardCommitted)
      else (st1, cat1, warnings, None)
  end.

End PlacementConnection.

(** ** Vocabulary of the statements *)

Section Vocabulary.

Context {ext : Externals}.

(** A reference has recorded a write. *)
Definition modified (r : ConnectionReference) : bool := hadDDL r || hadDML r.

(** [extends st st']: [st'] has every reference, placement entry and
    colocated entry of [st] unchanged, possibly with new ones beside them,
    and the same connections. *)
Definition extends (st st' : State) : Prop :=
  (∀ a, deref st' a = deref st a) ∧
  (length (refs st) ≤ length (refs st'))%nat ∧
  ConnectionPlacementHash st ⊆ ConnectionPlacementHash st' ∧
  ColocatedPlacementsHash st ⊆ ColocatedPlacementsHash st' ∧
  connections st' = connections st.

(** Every pointer to a connection reference held by a hash entry points
    into the arena. *)
Definition validReferences (st : State) : Prop :=
  (∀ pid e, ConnectionPlacementHash st !! pid = Some e →
            (primaryConnection e < length (refs st))%nat) ∧
  (∀ key ce, ColocatedPlacementsHash st !! key = Some ce →
             (coPrimaryConnection ce < length (refs st))%nat).

(** The partition methods whose placements get a colocated entry. *)
Definition isColocating (m : PartitionMethod) : bool :=
  match m with DISTRIBUTE_BY_HASH | DISTRIBUTE_BY_NONE => true | _ => false end.

(** The accesses the selection loop does not pass over. *)
Definition realAccesses (accs : list ShardPlacementAccess)
    : list ShardPlacementAccess :=
  filter (λ acc, shardId (placement acc) ≠ INVALID_SHARD_ID) accs.

(** What the selection loop maintains about its locals:
    - every entry on the list is in the placement hash;
    - once foundModifyingConnection is set, the candidate is the connection
      of a reference that recorded a write;
    - for every entry on the list whose reference recorded a write and still
      has a connection, that connection is the candidate and
      foundModifyingConnection is set. *)
Definition selection_inv (sel : Selection) (st : State) : Prop :=
  Forall (λ pid, is_Some (ConnectionPlacementHash st !! pid))
    (placementEntryList sel) ∧
  (foundModifyingConnection sel = true →
   ∃ a c, chosenConnection sel = Some c ∧
          connection (deref st a) = Some c ∧ modified (deref st a) = true) ∧
  (∀ pid e c,
     pid ∈ placementEntryList sel →
     ConnectionPlacementHash st !! pid = Some e →
     modified (deref st (primaryConnection e)) = true →
     connection (deref st (primaryConnection e)) = Some c →
     foundModifyingConnection sel = true ∧ chosenConnection sel = Some c).

(** What one step of the second loop leaves in the reference it visits. *)
Definition installedReference (chosen : nat) (user : string)
    (access : ShardPlacementAccessType) (r : ConnectionReference)
    : ConnectionReference :=
  let r1 :=
    if bool_decide (connection r = Some chosen) then r
    else if bool_decide (connection r = None) then
      {| userName := Some user; connection := Some chosen;
         hadDML := false; hadDDL := false |}
    else if negb (isSELECT access) then
      set_userName (Some user) (set_connection (Some chosen) r)
    else r in
  let r2 := if isDDL access then set_hadDDL true r1 else r1 in
  if isDML access then set_hadDML true r2 else r2.

(** The reference holds a connection other than the chosen one. *)
Definition holdsOtherConnection (chosen : nat) (r : ConnectionReference)
    : bool :=
  negb (bool_decide (connection r = Some chosen))
  && negb (bool_decide (connection r = None)).

(** Two entries of the placement hash that differ at most in that the
    second has hasSecondaryConnections set. *)
Definition sameEntry (e e' : ConnectionPlacementHashEntry) : Prop :=
  primaryConnection e' = primaryConnection e ∧
  colocatedEntry e' = colocatedEntry e ∧
  failed e' = failed e ∧
  (hasSecondaryConnections e = true → hasSecondaryConnections e' = true).

Definition sameColocated (e e' : ColocatedPlacementsHashEntry) : Prop :=
  coPrimaryConnection e' = coPrimaryConnection e ∧
  (coHasSecondaryConnections e = true → coHasSecondaryConnections e' = true).

(** [installs chosen st st']: what the second loop may do to a state.  The
    arena keeps its size, a reference keeps its connection or gets the
    chosen one, and the hash tables keep their entries, each with the same
    pointers. *)
Definition installs (chosen : nat) (st st' : State) : Prop :=
  length (refs st') = length (refs st) ∧
  (∀ a, connection (deref st' a) = connection (deref st a) ∨
        connection (deref st' a) = Some chosen) ∧
  (∀ pid, option_Forall2 sameEntry
            (ConnectionPlacementHash st !! pid)
            (ConnectionPlacementHash st' !! pid)) ∧
  (∀ key, option_Forall2 sameColocated
            (ColocatedPlacementsHash st !! key)
            (ColocatedPlacementsHash st' !! key)) ∧
  ConnectionShardHash st' = ConnectionShardHash st.

(** What the second loop guarantees for an entry it visits: the entry's
    reference ends with the chosen connection, unless the entry was paired
    with a SELECT while its reference held another connection; then the
    reference keeps some other connection and the entry has
    hasSecondaryConnections set. *)
Definition visited (chosen : nat) (access : ShardPlacementAccessType)
    (a : nat) (pid : Z) (st' : State) : Prop :=
  ∃ e', ConnectionPlacementHash st' !! pid = Some e' ∧
        primaryConnection e' = a ∧
        (connection (deref st' a) = Some chosen ∨
         (hasSecondaryConnections e' = true ∧
          ∃ c', connection (deref st' a) = Some c' ∧ c' ≠ chosen)) ∧
        (access ≠ PLACEMENT_ACCESS_SELECT →
         connection (deref st' a) = Some chosen).


(** The classification of a member of a shard entry, as the
    specification words it: the placement is modified when its primary
    reference recorded DDL or DML; a modified placement is a failure when
    the reference has no connection or the connection's remote transaction
    failed, and a success otherwise. *)
Definition placementModified (st : State) (pid : Z) : bool :=
  match ConnectionPlacementHash st !! pid with
  | Some e => modified (deref st (primaryConnection e))
  | None => false
  end.

Definition connectionLost (st : State) (pid : Z) : bool :=
  match ConnectionPlacementHash st !! pid with
  | Some e =>
      match connection (deref st (primaryConnection e)) with
      | None => true
      | Some c => transactionFailed (getConnection (connections st) c)
      end
  | None => false
  end.

Definition isFailure (st : State) (pid : Z) : bool :=
  placementModified st pid && connectionLost st pid.

Definition isSuccess (st : State) (pid : Z) : bool :=
  placementModified st pid && negb (connectionLost st pid).

Definition failedFlag (st : State) (pid : Z) : bool :=
  match ConnectionPlacementHash st !! pid with
  | Some e => failed e
  | None => false
  end.

(** The placement hash after the first loop over [members]: the members
    classified as failures have their [failed] flag set; nothing else
    differs. *)
Definition markFailures (st : State) (members : list Z)
    : gmap Z ConnectionPlacementHashEntry :=
  map_imap (λ pid e, Some (if bool_decide (pid ∈ members) && isFailure st pid
                           then set_failed true e else e))
    (ConnectionPlacementHash st).

(** Two states that differ at most in [failed] flags. *)
Definition sameButFailed (st st' : State) : Prop :=
  refs st' = refs st ∧ connections st' = connections st ∧
  ColocatedPlacementsHash st' = ColocatedPlacementsHash st ∧
  ConnectionShardHash st' = ConnectionShardHash st ∧
  ∀ pid, option_Forall2
           (λ e e', primaryConnection e' = primaryConnection e ∧
                    colocatedEntry e' = colocatedEntry e ∧
                    hasSecondaryConnections e' = hasSecondaryConnections e)
           (ConnectionPlacementHash st !! pid)
           (ConnectionPlacementHash st' !! pid).

(** No member of any shard entry is a modified placement. *)
Definition readOnlyShards (st : State) : Prop :=
  ∀ shard members pid,
    ConnectionShardHash st !! shard = Some members →
    pid ∈ members → placementModified st pid = false.

(** [readOnlyShards], as a test that can be run on a state. *)
Definition readOnlyShardsb (st : State) : bool :=
  forallb (λ entry, forallb (λ pid, negb (placementModified st pid)) entry.2)
    (map_to_list (ConnectionShardHash st)).

End Vocabulary.

(** ** Further operations *)

(** The two flag bits that StartPlacementConnection reads; their values
    come from a header that is not part of this file. *)
Class AccessFlags : Type := {
  FOR_DDL : Z;
  FOR_DML : Z
}.

Section SinglePlacement.

Context {ext : Externals} {bits : AccessFlags}.

(** StartPlacementConnection: the access type is read off the flags, FOR_DDL
    first, and the one access is handed to StartPlacementListConnection. *)
Definition StartPlacementConnection (flags : Z) (placement : ShardPlacement)
    (userName : option string) (st : State) : State * (PlacementError + nat) :=
  let accessType :=
    if negb (Z.land flags FOR_DDL =? 0) then PLACEMENT_ACCESS_DDL
    else if negb (Z.land flags FOR_DML =? 0) then PLACEMENT_ACCESS_DML
    else PLACEMENT_ACCESS_SELECT in
  StartPlacementListConnection flags
    [{| placement := placement; accessType := accessType |}] userName st.

End SinglePlacement.

Section ColocatedHashCompare.

(** The size of the nodeName buffer of a colocated placements key. *)
Variable MAX_NODE_LENGTH : nat.

(** strncmp(a, b, n) == 0 for C strings given by their characters before
    the terminating NUL: the strings agree on their first n characters, or
    are equal if they end earlier. *)
Fixpoint strncmp_equal (n : nat) (a b : string) : bool :=
  match n with
  | O => true
  | S n' =>
      match a, b with
      | EmptyString, EmptyString => true
      | String x a', String y b' =>
          if Ascii.eqb x y then strncmp_equal n' a' b' else false
      | _, _ => false
      end
  end.

(** ColocatedPlacementsHashCompare: 0 when the keys match, 1 otherwise. *)
Definition ColocatedPlacementsHashCompare
    (ca cb : ColocatedPlacementsHashKey) : Z :=
  let '(nameA, portA, groupA, valueA) := ca in
  let '(nameB, portB, groupB, valueB) := cb in
  if negb (strncmp_equal MAX_NODE_LENGTH nameA nameB)
     || negb (portA =? portB)
     || negb (groupA =? groupB)
     || negb (valueA =? valueB)
  then 1 else 0.

End ColocatedHashCompare.

(** ** Further vocabulary *)

(** The placement's entry is on the list of its shard's entry. *)
Definition shardLinked (st : State) (p : ShardPlacement) : Prop :=
  placementId p ∈ default [] (ConnectionShardHash st !! shardId p).

(** No shard entry lists a placement twice. *)
Definition shardListsNoDup (st : State) : Prop :=
  ∀ shard members,
    ConnectionShardHash st !! shard = Some members → NoDup members.

(** No reference reachable from the placement or colocated hash holds a
    connection: the state of a transaction that has not acquired anything
    yet, or whose connections have all been closed. *)
Definition unconnected (st : State) : Prop :=
  (∀ pid e, ConnectionPlacementHash st !! pid = Some e →
            connection (deref st (primaryConnection e)) = None) ∧
  (∀ key ce, ColocatedPlacementsHash st !! key = Some ce →
             connection (deref st (coPrimaryConnection ce)) = None).

(** All modified members of the shard entry failed and there is at least
    one: the condition under which CheckShardPlacements gives up on the
    shard. *)
Definition shardFailed (st : State) (shard : Z) : bool :=
  let members := default [] (ConnectionShardHash st !! shard) in
  (0 <? length (List.filter (isFailure st) members))%nat
  && (length (List.filter (isSuccess st) members) =? 0)%nat.

(** [keepsWrites st st']: a reference that holds a connection in [st]
    still holds one in [st'], and keeps the DDL and DML flags that were
    set. *)
Definition keepsWrites (st st' : State) : Prop :=
  ∀ a, connection (deref st a) ≠ None →
       connection (deref st' a) ≠ None ∧
       (hadDML (deref st a) = true → hadDML (deref st' a) = true) ∧
       (hadDDL (deref st a) = true → hadDDL (deref st' a) = true).

(** [onlyInvalidates cat cat']: every row of the catalog is as it was, or
    went from FILE_FINALIZED to FILE_INACTIVE. *)
Definition onlyInvalidates (cat cat' : gmap Z ShardState) : Prop :=
  ∀ pid, cat' !! pid = cat !! pid ∨
         (cat !! pid = Some FILE_FINALIZED ∧ cat' !! pid = Some FILE_INACTIVE).

(** The shard ids of the shard hash, in the order hash_seq_search yields
    them to the loops. *)
Definition shardIds {walk : HashSeqSearch} (st : State) : list Z :=
  hash_seq_search (ConnectionShardHash st).

(** [commitStep st cat st' cat']: what a commit-time check may do: set
    [failed] flags, and move catalog rows from FILE_FINALIZED to
    FILE_INACTIVE. *)
Definition commitStep (st : State) (cat : gmap Z ShardState)
    (st' : State) (cat' : gmap Z ShardState) : Prop :=
  sameButFailed st st' ∧
  (∀ pid, failedFlag st pid = true → failedFlag st' pid = true) ∧
  onlyInvalidates cat cat'.

(** [registered c st]: every reference reachable from the placement or
    colocated hash either holds no connection, or holds [c] and is on the
    list of references of [c]. *)
Definition registered (c : nat) (st : State) : Prop :=
  ∀ a,
    ((∃ pid e, ConnectionPlacementHash st !! pid = Some e
               ∧ primaryConnection e = a) ∨
     (∃ key ce, ColocatedPlacementsHash st !! key = Some ce
                ∧ coPrimaryConnection ce = a)) →
    connection (deref st a) = None ∨
    (connection (deref st a) = Some c ∧
     a ∈ referencedPlacements (getConnection (connections st) c)).

(** ** Scenarios *)

(** The externals the scenarios run with: FORCE_NEW_CONNECTION is bit 0,
    INVALID_SHARD_ID is 0, the session user is postgres, and the pool
    opens a new connection whenever it is asked for one. *)
Definition scenarioExternals : Externals :=
  {| FORCE_NEW_CONNECTION := 1; INVALID_SHARD_ID := 0;
     CurrentUserName := "postgres"; StartNodeConnection := OpenNewConnection |}.

(** The order in which the scenarios walk the shard hash: by ascending
    shard id.  The results below hold for every order. *)
Definition scenarioWalk : HashSeqSearch.
Proof.
  refine {| hash_seq_search h := (map_to_list h).*1 |}.
  - intros h. apply NoDup_fst_map_to_list.
  - intros h k. rewrite list_elem_of_fmap. split.
    + intros ([s ms] & -> & Hin%elem_of_map_to_list). by exists ms.
    + intros [ms Hms]. exists (k, ms). split; [done|].
      by apply elem_of_map_to_list.
Defined.

(** acquire(accesses, user) of the scenarios: no flag set. *)
Definition acquire (accs : list ShardPlacementAccess) (user : string)
    (st : State) : State * (PlacementError + nat) :=
  @StartPlacementListConnection scenarioExternals 0 accs (Some user) st.

(** The access (p, k). *)
Definition access (p : ShardPlacement) (k : ShardPlacementAccessType)
    : ShardPlacementAccess :=
  {| placement := p; accessType := k |}.

(** Two placements of different shards of a range-partitioned table on the
    same worker, and the dummy placement of a SELECT pruned to no shard. *)
Definition p1 : ShardPlacement :=
  {| placementId := 101; shardId := 7; nodeName := "worker-1"; nodePort := 5432;
     partitionMethod := DISTRIBUTE_BY_RANGE; colocationGroupId := 0;
     representativeValue := 0 |}.

Definition p2 : ShardPlacement :=
  {| placementId := 102; shardId := 8; nodeName := "worker-1"; nodePort := 5432;
     partitionMethod := DISTRIBUTE_BY_RANGE; colocationGroupId := 0;
     representativeValue := 0 |}.

Definition dummyPlacement : ShardPlacement :=
  {| placementId := 0; shardId := 0; nodeName := "worker-1"; nodePort := 5432;
     partitionMethod := DISTRIBUTE_BY_NONE; colocationGroupId := 0;
     representativeValue := 0 |}.

(** p1 was read over connection 1, which was then claimed exclusively. *)
Definition readThenClaimed : State :=
  ClaimConnectionExclusively 1
    (acquire [access p1 PLACEMENT_ACCESS_SELECT] "alice"
       InitPlacementConnectionManagement).1.

(** p1 was written over connection 1 and p2 was read over connection 2;
    both connections can be reused. *)
Definition writtenAndRead : State :=
  (acquire [access p2 PLACEMENT_ACCESS_SELECT] "alice"
     (acquire [access p1 PLACEMENT_ACCESS_DML] "alice"
        InitPlacementConnectionManagement).1).1.


(** p1 was written over connection 1 and p2 over connection 2; neither
    connection is claimed. *)
Definition writtenTwice : State :=
  (acquire [access p2 PLACEMENT_ACCESS_DML] "alice"
     (acquire [access p1 PLACEMENT_ACCESS_DML] "alice"
        InitPlacementConnectionManagement).1).1.

(** p1 was read over connection 1 and then, connection 1 being claimed,
    over connection 2: its entry has hasSecondaryConnections set. *)
Definition readOverTwo : State :=
  (acquire [access p1 PLACEMENT_ACCESS_SELECT] "alice" readThenClaimed).1.

(** On top of [readOverTwo], p2 was written over connection 3, which was
    then claimed exclusively. *)
Definition readOverTwoAndWritten : State :=
  ClaimConnectionExclusively 3
    (acquire [access p2 PLACEMENT_ACCESS_DML] "alice" readOverTwo).1.

(** Two placements of colocated shards of hash-partitioned tables: same
    worker, same colocation group, same representative value. *)
Definition h1 : ShardPlacement :=
  {| placementId := 201; shardId := 20; nodeName := "worker-1"; nodePort := 5432;
     partitionMethod := DISTRIBUTE_BY_HASH; colocationGroupId := 5;
     representativeValue := 1073741824 |}.

Definition h2 : ShardPlacement :=
  {| placementId := 202; shardId := 30; nodeName := "worker-1"; nodePort := 5432;
     partitionMethod := DISTRIBUTE_BY_HASH; colocationGroupId := 5;
     representativeValue := 1073741824 |}.


(** A second placement of shard 7, on another worker. *)
Definition p3 : ShardPlacement :=
  {| placementId := 103; shardId := 7; nodeName := "worker-2"; nodePort := 5432;
     partitionMethod := DISTRIBUTE_BY_RANGE; colocationGroupId := 0;
     representativeValue := 0 |}.

(** Both placements of shard 7 were written, p1 over connection 1 and p3
    over connection 2; the remote transaction of connection 1 failed. *)
Definition oneReplicaFailed : State :=
  MarkRemoteTransactionFailed 1
    (acquire [access p3 PLACEMENT_ACCESS_DML] "alice"
       (acquire [access p1 PLACEMENT_ACCESS_DML] "alice"
          InitPlacementConnectionManagement).1).1.

(** A catalog in which p1 and p3 are FILE_FINALIZED. *)
Definition bothFinalized : gmap Z ShardState :=
  <[101 := FILE_FINALIZED]> (<[103 := FILE_FINALIZED]> ∅).

(** p1 was written over connection 1, which was then closed. *)
Definition closedAfterWrite : State :=
  CloseShardPlacementAssociation 1
    (acquire [access p1 PLACEMENT_ACCESS_DML] "alice"
       InitPlacementConnectionManagement).1.

(** p1 was read over connection 1 and then p2 was written over connection
    2, whose remote transaction then failed. *)
Definition readBesideFailedWrite : State :=
  MarkRemoteTransactionFailed 2
    (acquire [access p2 PLACEMENT_ACCESS_DML] "alice"
       (acquire [access p1 PLACEMENT_ACCESS_SELECT] "alice"
          InitPlacementConnectionManagement).1).1.

(** p1 was written over connection 1, which was then claimed exclusively. *)
Definition writtenThenClaimed : State :=
  ClaimConnectionExclusively 1
    (acquire [access p1 PLACEMENT_ACCESS_DML] "alice"
       InitPlacementConnectionManagement).1.

(** p1 was written over connection 1; nothing else happened. *)
Definition writtenOnce : State :=
  (acquire [access p1 PLACEMENT_ACCESS_DML] "alice"
     InitPlacementConnectionManagement).1.

(** The flag bits the scenarios run with. *)
Definition scenarioFlags : AccessFlags := {| FOR_DDL := 4; FOR_DML := 8 |}.

(** The entry of a placement of a table that is not hash-partitioned, with
    its reference at the given address. *)
Definition plainEntry (a : nat) : ConnectionPlacementHashEntry :=
  {| failed := false; primaryConnection := a;
     hasSecondaryConnections := false; colocatedEntry := None |}.

(** ** Basic facts about the arena and the hash tables *)

Section Facts.

Context {ext : Externals}.

Lemma extends_refl st : extends st st.
Proof. repeat split; auto. Qed.

Lemma extends_trans st1 st2 st3 :
  extends st1 st2 → extends st2 st3 → extends st1 st3.
Proof.
  intros (Hd1 & Hl1 & Hp1 & Hc1 & Hn1) (Hd2 & Hl2 & Hp2 & Hc2 & Hn2).
  repeat split.
  - intros a. by rewrite Hd2.
  - lia.
  - by etrans.
  - by etrans.
  - congruence.
Qed.

Lemma deref_alloc st a : deref (allocReference st).2 a = deref st a.
Proof.
  unfold deref, allocReference; simpl.
  destruct (decide (a < length (refs st))%nat) as [Hlt|Hge].
  - by rewrite lookup_app_l.
  - rewrite (lookup_ge_None_2 (refs st) a) by lia.
    rewrite lookup_app_r by lia.
    by destruct (a - length (refs st))%nat as [|[|k]].
Qed.

Lemma extends_alloc st : extends st (allocReference st).2.
Proof.
  repeat split; try done.
  - apply deref_alloc.
  - simpl. rewrite length_app. lia.
Qed.

Lemma alloc_fresh st : (allocReference st).1 = length (refs st).
Proof. done. Qed.

Lemma extends_associate entry p st :
  extends st (AssociatePlacementWithShard entry p st).
Proof.
  unfold AssociatePlacementWithShard. case_bool_decide; repeat split; done.
Qed.

Lemma associate_tables entry p st :
  let st' := AssociatePlacementWithShard entry p st in
  refs st' = refs st ∧
  ConnectionPlacementHash st' = ConnectionPlacementHash st ∧
  ColocatedPlacementsHash st' = ColocatedPlacementsHash st ∧
  connections st' = connections st.
Proof.
  unfold AssociatePlacementWithShard. by case_bool_decide.
Qed.

(** FindOrCreatePlacementEntry returns the entry stored under the
    placement's id, and only adds to the state. *)
Lemma FindOrCreate_entry p st :
  (FindOrCreatePlacementEntry p st).1 = placementId p.
Proof. done. Qed.

Lemma FindOrCreate_extends p st :
  extends st (FindOrCreatePlacementEntry p st).2.
Proof.
  unfold FindOrCreatePlacementEntry; simpl.
  eapply extends_trans; [|apply extends_associate].
  destruct (ConnectionPlacementHash st !! placementId p) as [e|] eqn:HPI;
    [apply extends_refl|].
  assert (Hins : ∀ st0 e0, extends st st0 →
            ConnectionPlacementHash st0 = ConnectionPlacementHash st →
            extends st (with_placements (λ h, <[placementId p := e0]> h) st0)).
  { intros st0 e0 (Hd & Hl & Hp & Hc & Hn) HPI0. repeat split; auto.
    simpl. rewrite HPI0. by apply insert_subseteq. }
  destruct (partitionMethod p).
  1,2: destruct (ColocatedPlacementsHash st !! ColocatedKey p) as [ce|] eqn:HCI;
    [apply Hins; [apply extends_refl|done]|];
    apply Hins; [|done];
    destruct (extends_alloc st) as (Hd & Hl & Hp & Hc & Hn);
    repeat split; auto; simpl; by apply insert_subseteq.
  all: apply Hins; [apply extends_alloc|done].
Qed.

Lemma FindOrCreate_found p st :
  is_Some (ConnectionPlacementHash (FindOrCreatePlacementEntry p st).2
             !! placementId p).
Proof.
  unfold FindOrCreatePlacementEntry; simpl.
  match goal with
  | |- is_Some (ConnectionPlacementHash
                  (AssociatePlacementWithShard _ _ ?s) !! _) =>
      destruct (associate_tables (placementId p) p s) as (_ & -> & _)
  end.
  destruct (ConnectionPlacementHash st !! placementId p) as [e|] eqn:HPI;
    [by rewrite HPI|].
  destruct (partitionMethod p);
    try destruct (ColocatedPlacementsHash st !! ColocatedKey p);
    simpl; by rewrite lookup_insert_eq.
Qed.

Lemma validReferences_initial : validReferences InitPlacementConnectionManagement.
Proof. split; intros ? ?; simpl; by rewrite lookup_empty. Qed.

(** What FindOrCreatePlacementEntry does to the arena and to the placement
    and colocated hashes, by cases on what it finds. *)
Lemma FindOrCreate_present p st e :
  ConnectionPlacementHash st !! placementId p = Some e →
  refs (FindOrCreatePlacementEntry p st).2 = refs st ∧
  ConnectionPlacementHash (FindOrCreatePlacementEntry p st).2
    = ConnectionPlacementHash st ∧
  ColocatedPlacementsHash (FindOrCreatePlacementEntry p st).2
    = ColocatedPlacementsHash st.
Proof.
  intros He. unfold FindOrCreatePlacementEntry; simpl. rewrite He.
  by destruct (associate_tables (placementId p) p st) as (-> & -> & -> & _).
Qed.

Lemma FindOrCreate_absent p st :
  ConnectionPlacementHash st !! placementId p = None →
  let st' := (FindOrCreatePlacementEntry p st).2 in
  ∃ conRef,
    ConnectionPlacementHash st' =
      <[placementId p :=
          {| failed := false; primaryConnection := conRef;
             hasSecondaryConnections := false;
             colocatedEntry :=
               if isColocating (partitionMethod p)
               then Some (ColocatedKey p) else None |}]>
        (ConnectionPlacementHash st) ∧
    if isColocating (partitionMethod p) then
      match ColocatedPlacementsHash st !! ColocatedKey p with
      | Some ce =>
          conRef = coPrimaryConnection ce ∧ refs st' = refs st ∧
          ColocatedPlacementsHash st' = ColocatedPlacementsHash st
      | None =>
          conRef = length (refs st) ∧ refs st' = refs st ++ [zeroReference] ∧
          ColocatedPlacementsHash st' =
            <[ColocatedKey p := {| coPrimaryConnection := conRef;
                                   coHasSecondaryConnections := false |}]>
              (ColocatedPlacementsHash st)
      end
    else
      conRef = length (refs st) ∧ refs st' = refs st ++ [zeroReference] ∧
      ColocatedPlacementsHash st' = ColocatedPlacementsHash st.
Proof.
  intros He. unfold FindOrCreatePlacementEntry; simpl. rewrite He.
  match goal with
  | |- context [AssociatePlacementWithShard ?a ?b ?s] =>
      destruct (associate_tables a b s) as (-> & -> & -> & _)
  end.
  destruct (partitionMethod p); simpl;
    try destruct (ColocatedPlacementsHash st !! ColocatedKey p) as [ce|] eqn:Hce;
    simpl; eexists; (split; [reflexivity|]); rewrite ?Hce; done.
Qed.

Lemma FindOrCreate_valid p st :
  validReferences st → validReferences (FindOrCreatePlacementEntry p st).2.
Proof.
  intros [HP HC].
  destruct (ConnectionPlacementHash st !! placementId p) as [e|] eqn:He.
  - destruct (FindOrCreate_present _ _ _ He) as (Hr & Hp & Hc).
    split; intros ? ?; rewrite ?Hr, ?Hp, ?Hc; eauto.
  - destruct (FindOrCreate_absent _ _ He) as (conRef & Hp & Hrest).
    assert (Hlen : (length (refs st)
              ≤ length (refs (FindOrCreatePlacementEntry p st).2))%nat)
      by apply FindOrCreate_extends.
    assert ((conRef < length (refs (FindOrCreatePlacementEntry p st).2))%nat
            ∧ ∀ key ce,
                ColocatedPlacementsHash (FindOrCreatePlacementEntry p st).2
                  !! key = Some ce →
                (coPrimaryConnection ce
                 < length (refs (FindOrCreatePlacementEntry p st).2))%nat)
      as [Hcon HC'].
    { destruct (isColocating _);
        [destruct (ColocatedPlacementsHash st !! ColocatedKey p) as [ce|] eqn:Hce|];
        destruct Hrest as (-> & Hr & Hc); rewrite Hr, Hc in *.
      - split; [by eapply HC|]. intros; eauto.
      - rewrite length_app; simpl. split; [lia|].
        intros key ce [[<- <-]|[_ Hce']]%lookup_insert_Some; simpl; [lia|].
        apply HC in Hce'. lia.
      - rewrite length_app; simpl. split; [lia|].
        intros key ce Hce'. apply HC in Hce'. lia. }
    split; [|exact HC'].
    intros pid e'. rewrite Hp.
    intros [[<- <-]|[_ He']]%lookup_insert_Some; simpl; [done|].
    apply HP in He'. eapply Nat.lt_le_trans; [exact He'|exact Hlen].
Qed.

(** *** The selection pass *)

Lemma SelectionPass_cons flags user acc rest sel st :
  SelectionPass flags user (acc :: rest) sel st =
  if shardId (placement acc) =? INVALID_SHARD_ID
  then SelectionPass flags user rest sel st
  else
    let st1 := (FindOrCreatePlacementEntry (placement acc) st).2 in
    match ConnectionPlacementHash st1 !! placementId (placement acc) with
    | None => (st1, inr sel)
    | Some e =>
        match CheckPlacementAccess flags user st1 (placementId (placement acc))
                (accessType acc) e
                (chosenConnection sel) (foundModifyingConnection sel) with
        | inl err => (st1, inl err)
        | inr (chosen, foundModifying) =>
            SelectionPass flags user rest
              {| chosenConnection := chosen;
                 foundModifyingConnection := foundModifying;
                 placementEntryList :=
                   placementEntryList sel ++ [placementId (placement acc)] |}
              st1
        end
    end.
Proof. reflexivity. Qed.

(** Case analysis on the first access of the selection loop. *)
Ltac selection_step acc st e He :=
  rewrite SelectionPass_cons;
  destruct (shardId (placement acc) =? INVALID_SHARD_ID) eqn:?;
  [|destruct (FindOrCreate_found (placement acc) st) as [e He];
    cbv zeta; rewrite He].

Lemma SelectionPass_app flags user l1 l2 sel st :
  SelectionPass flags user (l1 ++ l2) sel st =
  match SelectionPass flags user l1 sel st with
  | (st1, inl err) => (st1, inl err)
  | (st1, inr sel1) => SelectionPass flags user l2 sel1 st1
  end.
Proof.
  revert sel st. induction l1 as [|acc l1 IH]; intros sel st; [done|].
  rewrite <- app_comm_cons, (SelectionPass_cons _ _ acc l1).
  selection_step acc st e He; [apply IH|].
  destruct (CheckPlacementAccess _ _ _ _ _ _ _ _) as [err|[ch fd]]; [done|].
  apply IH.
Qed.

(** The selection pass only adds to the state, whether it ends in an error
    or not: it allocates references and enters hash entries, and writes to
    none that exist. *)
Lemma SelectionPass_extends flags user accs sel st st' res :
  SelectionPass flags user accs sel st = (st', res) → extends st st'.
Proof.
  revert sel st. induction accs as [|acc accs IH]; intros sel st.
  - intros [= <- _]. apply extends_refl.
  - selection_step acc st e He; [apply IH|].
    pose proof (FindOrCreate_extends (placement acc) st) as Hext.
    destruct (CheckPlacementAccess _ _ _ _ _ _ _ _) as [err|[ch fd]].
    + by intros [= <- _].
    + intros H. eapply extends_trans; [exact Hext|]. by eapply IH.
Qed.

Lemma SelectionPass_valid flags user accs sel st st' res :
  validReferences st →
  SelectionPass flags user accs sel st = (st', res) → validReferences st'.
Proof.
  revert sel st. induction accs as [|acc accs IH]; intros sel st Hv.
  - by intros [= <- _].
  - selection_step acc st e He; [by apply IH|].
    pose proof (FindOrCreate_valid (placement acc) st Hv) as Hv1.
    destruct (CheckPlacementAccess _ _ _ _ _ _ _ _) as [err|[ch fd]].
    + by intros [= <- _].
    + by apply IH.
Qed.

(** Invariants of the selection loop are established access by access. *)
Lemma SelectionPass_invariant (P : Selection → State → Prop) flags user :
  (∀ sel st acc e ch fd,
     P sel st →
     (shardId (placement acc) =? INVALID_SHARD_ID) = false →
     let st1 := (FindOrCreatePlacementEntry (placement acc) st).2 in
     ConnectionPlacementHash st1 !! placementId (placement acc) = Some e →
     CheckPlacementAccess flags user st1 (placementId (placement acc))
       (accessType acc) e (chosenConnection sel)
       (foundModifyingConnection sel) = inr (ch, fd) →
     P {| chosenConnection := ch; foundModifyingConnection := fd;
          placementEntryList :=
            placementEntryList sel ++ [placementId (placement acc)] |} st1) →
  ∀ accs sel st st' sel',
    P sel st →
    SelectionPass flags user accs sel st = (st', inr sel') → P sel' st'.
Proof.
  intros Hstep accs. induction accs as [|acc accs IH]; intros sel st st' sel' HP.
  - by intros [= <- <-].
  - selection_step acc st e He; [by apply IH|].
    destruct (CheckPlacementAccess _ _ _ _ _ _ _ _) as [err|[ch fd]] eqn:Hc;
      [done|].
    apply IH. by eapply Hstep.
Qed.

(** The rules, read off the chain of conditions. *)
Lemma Check_found_stays flags user st pid access e chosen ch fd :
  CheckPlacementAccess flags user st pid access e chosen true = inr (ch, fd) →
  ch = chosen ∧ fd = true.
Proof.
  unfold CheckPlacementAccess.
  repeat (case_bool_decide || case_match); naive_solver.
Qed.

Lemma Check_modified_live flags user st pid access e chosen found c ch fd :
  connection (deref st (primaryConnection e)) = Some c →
  modified (deref st (primaryConnection e)) = true →
  CheckPlacementAccess flags user st pid access e chosen found = inr (ch, fd) →
  ch = Some c ∧ fd = true.
Proof.
  unfold CheckPlacementAccess, modified. intros Hc Hm.
  rewrite Hc, Hm. simpl.
  destruct (hadDDL _) eqn:?, (hadDML _) eqn:?; try done;
  repeat (case_bool_decide || case_match); naive_solver.
Qed.

(** Either an access leaves the candidate as it was, or it elects the
    connection of its placement, which is reusable, and records whether
    that connection had written. *)
Lemma Check_result flags user st pid access e chosen found ch fd :
  CheckPlacementAccess flags user st pid access e chosen found = inr (ch, fd) →
  (ch = chosen ∧ fd = found) ∨
  (found = false ∧
   ch = connection (deref st (primaryConnection e)) ∧
   connection (deref st (primaryConnection e)) ≠ None ∧
   CanUseExistingConnection flags user st
     (deref st (primaryConnection e)) = true ∧
   fd = modified (deref st (primaryConnection e))).
Proof.
  unfold CheckPlacementAccess, modified.
  repeat (case_bool_decide || case_match); naive_solver.
Qed.

Lemma SelectionPass_entries flags user accs sel st st' sel' :
  SelectionPass flags user accs sel st = (st', inr sel') →
  placementEntryList sel' =
    placementEntryList sel
      ++ map (λ acc, placementId (placement acc)) (realAccesses accs).
Proof.
  revert sel st. induction accs as [|acc accs IH]; intros sel st.
  - intros [= _ <-]. by rewrite app_nil_r.
  - unfold realAccesses. rewrite filter_cons.
    selection_step acc st e He.
    + apply Z.eqb_eq in Heqb. rewrite decide_False by tauto. apply IH.
    + apply Z.eqb_neq in Heqb. rewrite decide_True by done.
      destruct (CheckPlacementAccess _ _ _ _ _ _ _ _) as [err|[ch fd]];
        [done|].
      intros H. apply IH in H. simpl in H. by rewrite <- app_assoc in H.
Qed.

Lemma selection_inv_initial st : selection_inv initialSelection st.
Proof.
  split; [constructor|split]; simpl; [done|].
  intros pid e c Hin. by apply not_elem_of_nil in Hin.
Qed.

Lemma SelectionPass_inv flags user accs sel st st' sel' :
  selection_inv sel st →
  SelectionPass flags user accs sel st = (st', inr sel') →
  selection_inv sel' st'.
Proof.
  apply (SelectionPass_invariant selection_inv). clear.
  intros sel st acc e ch fd (Hents & Hfound & Hlive) Hns st1 He Hcheck.
  pose proof (FindOrCreate_extends (placement acc) st) as Hext.
  fold st1 in Hext. destruct Hext as (Hd & Hl & Hp & Hc & Hn).
  split; [|split]; simpl.
  - apply Forall_app. split.
    + eapply Forall_impl; [exact Hents|]. intros pid Hpid. simpl in *.
      by eapply lookup_weaken_is_Some.
    + repeat constructor. by rewrite He.
  - intros ->. destruct (Check_result _ _ _ _ _ _ _ _ _ _ Hcheck)
      as [[-> Hf]|(Hf & -> & Hne & _ & Hm)].
    + destruct (Hfound (eq_sym Hf)) as (a & c & ? & ? & ?).
      exists a, c. by rewrite Hd.
    + destruct (connection (deref st1 (primaryConnection e))) as [c|] eqn:Hce;
        [|done].
      by exists (primaryConnection e), c.
  - intros pid e' c [Hin|Hin%list_elem_of_singleton]%elem_of_app He' Hm' Hc'.
    + pose proof Hin as Hin'.
      eapply (proj1 (Forall_forall _ _) Hents) in Hin' as [e0 He0].
      pose proof (lookup_weaken _ _ _ _ He0 Hp) as He0'.
      assert (e' = e0) as -> by congruence.
      rewrite Hd in Hm', Hc'.
      destruct (Hlive _ _ _ Hin He0 Hm' Hc') as [Hf Hch].
      rewrite Hf, Hch in Hcheck.
      by destruct (Check_found_stays _ _ _ _ _ _ _ _ _ Hcheck) as [-> ->].
    + subst pid. assert (e' = e) as -> by congruence.
      destruct (Check_modified_live _ _ _ _ _ _ _ _ _ _ _ Hc' Hm' Hcheck).
      by split.
Qed.

(** *** The installation pass *)

Lemma deref_store a a' r st :
  deref (store a r st) a' =
  if bool_decide (a = a' ∧ (a < length (refs st))%nat) then r else deref st a'.
Proof.
  unfold deref, store; simpl. case_bool_decide as H.
  - destruct H as [<- Hlt]. by rewrite list_lookup_insert_eq.
  - destruct (decide (a = a')) as [<-|Hne].
    + rewrite list_insert_ge; [done|]. lia.
    + by rewrite list_lookup_insert_ne.
Qed.

Lemma deref_with_placements f st a : deref (with_placements f st) a = deref st a.
Proof. done. Qed.

Lemma deref_with_colocated f st a : deref (with_colocated f st) a = deref st a.
Proof. done. Qed.

Lemma deref_with_shards f st a : deref (with_shards f st) a = deref st a.
Proof. done. Qed.

Lemma deref_with_connections f st a :
  deref (with_connections f st) a = deref st a.
Proof. done. Qed.

Lemma deref_valid st a :
  (a < length (refs st))%nat → refs st !! a = Some (deref st a).
Proof.
  intros Hlt. unfold deref.
  by destruct (lookup_lt_is_Some_2 _ _ Hlt) as [r ->].
Qed.

Lemma installedReference_connection chosen user access r :
  connection (installedReference chosen user access r) =
  if bool_decide (connection r = None) || negb (isSELECT access)
  then Some chosen else connection r.
Proof.
  unfold installedReference.
  destruct access; simpl; repeat case_bool_decide; simpl; congruence.
Qed.

Lemma InstallStep_missing chosen user access pid st :
  ConnectionPlacementHash st !! pid = None →
  InstallStep chosen user access pid st = st.
Proof. unfold InstallStep. by intros ->. Qed.

Lemma InstallStep_refs chosen user access pid st e :
  ConnectionPlacementHash st !! pid = Some e →
  refs (InstallStep chosen user access pid st) =
  <[primaryConnection e :=
      installedReference chosen user access (deref st (primaryConnection e))]>
    (refs st).
Proof.
  intros He. unfold InstallStep, installedReference. rewrite He.
  set (a := primaryConnection e). set (r := deref st a).
  destruct (decide (a < length (refs st))%nat) as [Hlt|Hge].
  - pose proof (deref_valid _ _ Hlt) as Hr. fold r in Hr.
    assert (Hid : <[a:=r]> (refs st) = refs st) by by apply list_insert_id.
    destruct access; simpl;
      repeat case_bool_decide; simpl;
      try destruct (colocatedEntry e); simpl;
      rewrite ?deref_with_colocated, ?deref_with_placements,
        ?deref_with_connections, ?deref_store; simpl; rewrite ?length_insert;
      rewrite ?bool_decide_eq_true_2 by done;
      rewrite ?list_insert_insert_eq; done.
  - rewrite (list_insert_ge (refs st)) by lia.
    destruct access; simpl;
      repeat case_bool_decide; simpl;
      try destruct (colocatedEntry e); simpl;
      rewrite ?list_insert_ge; simpl; rewrite ?list_insert_ge; simpl;
      lia || done.
Qed.

Lemma InstallStep_placements chosen user access pid st e :
  ConnectionPlacementHash st !! pid = Some e →
  ConnectionPlacementHash (InstallStep chosen user access pid st) =
  if holdsOtherConnection chosen (deref st (primaryConnection e))
  then <[pid := set_hasSecondaryConnections true e]> (ConnectionPlacementHash st)
  else ConnectionPlacementHash st.
Proof.
  intros He. unfold InstallStep, holdsOtherConnection. rewrite He.
  destruct access; simpl; repeat case_bool_decide; simpl;
    try destruct (colocatedEntry e); done.
Qed.

Lemma InstallStep_colocated chosen user access pid st e :
  ConnectionPlacementHash st !! pid = Some e →
  ColocatedPlacementsHash (InstallStep chosen user access pid st) =
  match colocatedEntry e with
  | Some key =>
      if holdsOtherConnection chosen (deref st (primaryConnection e))
      then alter (set_coHasSecondaryConnections true) key
             (ColocatedPlacementsHash st)
      else ColocatedPlacementsHash st
  | None => ColocatedPlacementsHash st
  end.
Proof.
  intros He. unfold InstallStep, holdsOtherConnection. rewrite He.
  destruct access; simpl; repeat case_bool_decide; simpl;
    destruct (colocatedEntry e); done.
Qed.

Lemma deref_InstallStep chosen user access pid st e a' :
  ConnectionPlacementHash st !! pid = Some e →
  deref (InstallStep chosen user access pid st) a' =
  if bool_decide (primaryConnection e = a'
                  ∧ (primaryConnection e < length (refs st))%nat)
  then installedReference chosen user access (deref st (primaryConnection e))
  else deref st a'.
Proof.
  intros He. rewrite <- deref_store.
  unfold deref, store; simpl. by rewrite (InstallStep_refs _ _ _ _ _ e).
Qed.

Lemma sameEntry_refl e : sameEntry e e.
Proof. by repeat split. Qed.

Lemma sameColocated_refl e : sameColocated e e.
Proof. by repeat split. Qed.

Lemma option_Forall2_same {A} (R : A → A → Prop) (o : option A) :
  (∀ x, R x x) → option_Forall2 R o o.
Proof. intros HR. destruct o; constructor; auto. Qed.

Lemma option_Forall2_trans {A} (R : A → A → Prop) (o1 o2 o3 : option A) :
  (∀ x y z, R x y → R y z → R x z) →
  option_Forall2 R o1 o2 → option_Forall2 R o2 o3 → option_Forall2 R o1 o3.
Proof.
  intros HR H1 H2. destruct H1; inversion H2; subst; constructor; eauto.
Qed.

Lemma installs_refl chosen st : installs chosen st st.
Proof.
  repeat split; auto; intros; apply option_Forall2_same;
    auto using sameEntry_refl, sameColocated_refl.
Qed.

Lemma installs_trans chosen st1 st2 st3 :
  installs chosen st1 st2 → installs chosen st2 st3 → installs chosen st1 st3.
Proof.
  intros (Hl1 & Hc1 & Hp1 & Hk1 & Hs1) (Hl2 & Hc2 & Hp2 & Hk2 & Hs2).
  split; [congruence|]. split; [|split; [|split; [|congruence]]].
  - intros a. destruct (Hc2 a) as [-> | ->]; auto.
  - intros pid. eapply option_Forall2_trans; [|apply Hp1|apply Hp2].
    intros x y z (?&?&?&?) (?&?&?&?). repeat split; try congruence; auto.
  - intros key. eapply option_Forall2_trans; [|apply Hk1|apply Hk2].
    intros x y z (?&?) (?&?). repeat split; try congruence; auto.
Qed.

Lemma InstallStep_shards chosen user access pid st :
  ConnectionShardHash (InstallStep chosen user access pid st) =
  ConnectionShardHash st.
Proof.
  unfold InstallStep. destruct (ConnectionPlacementHash st !! pid); [|done].
  destruct access; simpl; repeat case_bool_decide; simpl;
    try destruct (colocatedEntry _); done.
Qed.

Lemma InstallStep_installs chosen user access pid st :
  installs chosen st (InstallStep chosen user access pid st).
Proof.
  destruct (ConnectionPlacementHash st !! pid) as [e|] eqn:He;
    [|rewrite InstallStep_missing by done; apply installs_refl].
  split; [|split; [|split; [|split]]].
  - by rewrite (InstallStep_refs _ _ _ _ _ e), length_insert.
  - intros a. rewrite (deref_InstallStep _ _ _ _ _ e) by done.
    case_bool_decide as Ha; [|by left]. destruct Ha as [<- _].
    rewrite installedReference_connection. case_match; auto.
  - intros pid'. rewrite (InstallStep_placements _ _ _ _ _ e) by done.
    destruct (holdsOtherConnection _ _);
      [|apply option_Forall2_same, sameEntry_refl].
    destruct (decide (pid = pid')) as [<-|Hne].
    + rewrite lookup_insert_eq, He. constructor. by repeat split.
    + rewrite lookup_insert_ne by done.
      apply option_Forall2_same, sameEntry_refl.
  - intros key. rewrite (InstallStep_colocated _ _ _ _ _ e) by done.
    destruct (colocatedEntry e) as [k|];
      [|apply option_Forall2_same, sameColocated_refl].
    destruct (holdsOtherConnection _ _);
      [|apply option_Forall2_same, sameColocated_refl].
    destruct (decide (k = key)) as [<-|Hne].
    + rewrite lookup_alter_eq.
      destruct (ColocatedPlacementsHash st !! k); constructor.
      by repeat split.
    + rewrite lookup_alter_ne by done.
      apply option_Forall2_same, sameColocated_refl.
  - apply InstallStep_shards.
Qed.

Lemma InstallPass_installs chosen user accs entries st :
  installs chosen st (InstallPass chosen user accs entries st).
Proof.
  revert entries st. induction accs as [|acc accs IH]; intros [|pid entries] st;
    simpl; try apply installs_refl.
  eapply installs_trans; [apply InstallStep_installs|apply IH].
Qed.

Lemma visited_installs chosen access a pid st st' :
  visited chosen access a pid st → installs chosen st st' →
  visited chosen access a pid st'.
Proof.
  intros (e1 & He1 & Ha & Hconn & Hwrite) (_ & Hc & Hp & _).
  specialize (Hp pid). rewrite He1 in Hp. inversion Hp as [? e' Hsame Heq1 Heq2|].
  destruct Hsame as (Hprim & _ & _ & Hsec).
  exists e'. split; [done|]. split; [congruence|].
  destruct (Hc a) as [Hsame|Hnew].
  - rewrite Hsame. split; [|done].
    destruct Hconn as [?|[? ?]]; [by left|right]. split; auto.
  - split; [by left|done].
Qed.

Lemma InstallStep_visited chosen user access pid st e :
  ConnectionPlacementHash st !! pid = Some e →
  (primaryConnection e < length (refs st))%nat →
  visited chosen access (primaryConnection e) pid
    (InstallStep chosen user access pid st).
Proof.
  intros He Hlt. unfold visited.
  rewrite (InstallStep_placements _ _ _ _ _ e),
    (deref_InstallStep _ _ _ _ _ e) by done.
  rewrite bool_decide_eq_true_2 by done.
  rewrite installedReference_connection.
  unfold holdsOtherConnection.
  destruct (connection (deref st (primaryConnection e))) as [c|] eqn:Hc.
  - destruct (decide (c = chosen)) as [->|Hne].
    + rewrite bool_decide_eq_true_2 by done. simpl.
      exists e. rewrite He. repeat split; auto; case_match; auto.
    + assert (Some c ≠ Some chosen) by congruence.
      rewrite !bool_decide_eq_false_2 by done. simpl.
      rewrite lookup_insert_eq. eexists. split; [done|]. split; [done|].
      destruct access; simpl; split; auto; try done.
      right. split; [done|]. by exists c.
  - rewrite bool_decide_eq_false_2 by done.
    rewrite !bool_decide_eq_true_2 by done. simpl.
    exists e. rewrite He. repeat split; auto.
Qed.

Lemma InstallPass_visited chosen user accs entries st i acc pid e :
  accs !! i = Some acc → entries !! i = Some pid →
  ConnectionPlacementHash st !! pid = Some e →
  (primaryConnection e < length (refs st))%nat →
  visited chosen (accessType acc) (primaryConnection e) pid
    (InstallPass chosen user accs entries st).
Proof.
  revert entries st i e.
  induction accs as [|acc0 accs IH]; intros [|pid0 entries] st i e;
    try done.
  destruct i as [|i]; simpl.
  - intros [= ->] [= ->] He Hlt.
    eapply visited_installs; [by apply InstallStep_visited|].
    apply InstallPass_installs.
  - intros Hacc Hpid He Hlt.
    destruct (InstallStep_installs chosen user (accessType acc0) pid0 st)
      as (Hlen & _ & Hp & _).
    specialize (Hp pid). rewrite He in Hp.
    inversion Hp as [? e1 (Hprim & _) Heq1 Heq2|]. symmetry in Heq2.
    rewrite <- Hprim. eapply IH; eauto. rewrite Hprim, Hlen. done.
Qed.

(** An entry that the second loop never finds with another connection in
    its reference is left exactly as it was. *)
Lemma InstallPass_untouched chosen user accs entries st pid e :
  ConnectionPlacementHash st !! pid = Some e →
  (pid ∈ entries →
   holdsOtherConnection chosen (deref st (primaryConnection e)) = false) →
  ConnectionPlacementHash (InstallPass chosen user accs entries st) !! pid
    = Some e.
Proof.
  revert entries st. induction accs as [|acc accs IH];
    intros [|pid0 entries] st He Hgood; try done.
  simpl. apply IH.
  - destruct (ConnectionPlacementHash st !! pid0) as [e0|] eqn:He0;
      [|by rewrite InstallStep_missing].
    rewrite (InstallStep_placements _ _ _ _ _ e0) by done.
    destruct (holdsOtherConnection chosen (deref st (primaryConnection e0)))
      eqn:Hother; [|done].
    destruct (decide (pid0 = pid)) as [->|Hne].
    + assert (e0 = e) as -> by congruence.
      rewrite Hgood in Hother; [done|apply list_elem_of_here].
    + by rewrite lookup_insert_ne.
  - intros Hin.
    specialize (Hgood (list_elem_of_further _ _ _ Hin)).
    destruct (InstallStep_installs chosen user (accessType acc) pid0 st)
      as (_ & Hmono & _).
    unfold holdsOtherConnection in *.
    destruct (Hmono (primaryConnection e)) as [-> | ->]; [done|].
    by rewrite bool_decide_eq_true_2.
Qed.

(** *** The whole call *)

Lemma with_connections_same st :
  with_connections (λ _, connections st) st = st.
Proof. by destruct st. Qed.

(** A successful call is a selection pass without error, a connection
    that is the candidate of the selection pass or else comes from the pool,
    and an installation pass. *)
Lemma Start_success flags accs userName st st' chosen :
  StartPlacementListConnection flags accs userName st = (st', inr chosen) →
  ∃ st1 sel conns,
    SelectionPass flags (default CurrentUserName userName) accs
      initialSelection st = (st1, inr sel) ∧
    st' = InstallPass chosen (default CurrentUserName userName) accs
            (placementEntryList sel) (with_connections (λ _, conns) st1) ∧
    ((chosenConnection sel = Some chosen ∧ conns = connections st1) ∨
     (chosenConnection sel = None ∧
      ∃ first rest, accs = first :: rest ∧
        StartNodeConnection flags (nodeName (placement first))
          (nodePort (placement first)) (connections st1) = (chosen, conns))).
Proof.
  unfold StartPlacementListConnection.
  destruct (SelectionPass _ _ _ _ _) as [st1 [err|sel]] eqn:Hsel; [done|].
  destruct (chosenConnection sel) as [c|] eqn:Hch.
  - intros [= <- <-]. exists st1, sel, (connections st1).
    rewrite with_connections_same. auto.
  - destruct accs as [|first rest]; [done|].
    destruct (StartNodeConnection _ _ _ _) as [c conns] eqn:Hpool.
    intros [= <- <-]. exists st1, sel, conns. split; [done|]. split; [done|].
    right. split; [done|]. by exists first, rest.
Qed.

(** A failing call on a non-empty list is a selection pass that raised the
    error. *)
Lemma Start_failure flags accs userName st st' err :
  accs ≠ [] →
  StartPlacementListConnection flags accs userName st = (st', inl err) →
  SelectionPass flags (default CurrentUserName userName) accs
    initialSelection st = (st', inl err).
Proof.
  unfold StartPlacementListConnection. intros Hne.
  destruct (SelectionPass _ _ _ _ _) as [st1 [err1|sel]] eqn:Hsel;
    [by intros [= <- <-]|].
  destruct (chosenConnection sel) as [c|]; [done|].
  destruct accs as [|first rest]; [done|].
  by destruct (StartNodeConnection _ _ _ _).
Qed.

Lemma SelectionPass_found_stays flags user accs sel st st' sel' :
  foundModifyingConnection sel = true →
  SelectionPass flags user accs sel st = (st', inr sel') →
  chosenConnection sel' = chosenConnection sel ∧
  foundModifyingConnection sel' = true.
Proof.
  intros Hfound.
  apply (SelectionPass_invariant
           (λ s _, chosenConnection s = chosenConnection sel ∧
                   foundModifyingConnection s = true)); [|done].
  intros s st0 acc e ch fd [Hch Hfd] _ st1 _ Hcheck. simpl.
  rewrite Hfd in Hcheck.
  destruct (Check_found_stays _ _ _ _ _ _ _ _ _ Hcheck) as [-> ->].
  by split.
Qed.

Lemma CanUse_connections flags user st st' r :
  connections st' = connections st →
  CanUseExistingConnection flags user st' r
  = CanUseExistingConnection flags user st r.
Proof. unfold CanUseExistingConnection. by intros ->. Qed.

(** Without DDL accesses and with every connected reference reusable, the
    only error the chain of conditions can raise is the one about writes
    over several connections. *)
Lemma Check_error_kind flags user st pid access e chosen found err :
  access ≠ PLACEMENT_ACCESS_DDL →
  (connection (deref st (primaryConnection e)) ≠ None →
   CanUseExistingConnection flags user st
     (deref st (primaryConnection e)) = true) →
  CheckPlacementAccess flags user st pid access e chosen found = inl err →
  err = MultiConnectionWrite.
Proof.
  unfold CheckPlacementAccess. intros Hddl Hreuse.
  case_bool_decide as Hconn; [done|]. rewrite (Hreuse Hconn).
  destruct access; try done; simpl;
    repeat case_match; congruence.
Qed.

Lemma SelectionPass_error_kind flags user accs sel st st' err :
  Forall (λ acc, accessType acc ≠ PLACEMENT_ACCESS_DDL) accs →
  (∀ a, connection (deref st a) ≠ None →
        CanUseExistingConnection flags user st (deref st a) = true) →
  SelectionPass flags user accs sel st = (st', inl err) →
  err = MultiConnectionWrite.
Proof.
  intros Hddl. revert sel st.
  induction Hddl as [|acc accs Hacc Hddl IH]; intros sel st Hreuse; [done|].
  selection_step acc st e He; [by apply IH|].
  destruct (FindOrCreate_extends (placement acc) st) as (Hd & _ & _ & _ & Hn).
  assert (Hreuse1 : ∀ a,
            connection (deref (FindOrCreatePlacementEntry (placement acc) st).2 a)
              ≠ None →
            CanUseExistingConnection flags user
              (FindOrCreatePlacementEntry (placement acc) st).2
              (deref (FindOrCreatePlacementEntry (placement acc) st).2 a) = true).
  { intros a. rewrite Hd, (CanUse_connections _ _ _ _ _ Hn). apply Hreuse. }
  destruct (CheckPlacementAccess _ _ _ _ _ _ _ _) as [err1|[ch fd]] eqn:Hcheck.
  - intros [= _ <-]. eapply Check_error_kind; [exact Hacc| |exact Hcheck].
    apply Hreuse1.
  - by apply IH.
Qed.


Lemma Start_selection_error flags accs userName st st' err :
  SelectionPass flags (default CurrentUserName userName) accs
    initialSelection st = (st', inl err) →
  StartPlacementListConnection flags accs userName st = (st', inl err).
Proof. unfold StartPlacementListConnection. by intros ->. Qed.

(** The selection pass enters nothing into the placement and colocated
    hashes and allocates nothing when every placement it looks up already
    has its entry. *)
Lemma SelectionPass_present flags user accs sel st st' res :
  Forall (λ acc, shardId (placement acc) = INVALID_SHARD_ID ∨
                 is_Some (ConnectionPlacementHash st
                            !! placementId (placement acc))) accs →
  SelectionPass flags user accs sel st = (st', res) →
  refs st' = refs st ∧
  ConnectionPlacementHash st' = ConnectionPlacementHash st ∧
  ColocatedPlacementsHash st' = ColocatedPlacementsHash st.
Proof.
  intros Hall. revert sel st Hall.
  induction accs as [|acc accs IH]; intros sel st Hall.
  - by intros [= <- _].
  - apply Forall_cons in Hall as [Hacc Hall].
    selection_step acc st e He; [by apply IH|].
    destruct Hacc as [Hdummy|[e0 He0]];
      [by apply Z.eqb_neq in Heqb|].
    destruct (FindOrCreate_present _ _ _ He0) as (Hr & Hp & Hc).
    destruct (CheckPlacementAccess _ _ _ _ _ _ _ _) as [err1|[ch fd]].
    + by intros [= <- _].
    + intros Hsel. apply IH in Hsel.
      * destruct Hsel as (-> & -> & ->). done.
      * eapply Forall_impl; [exact Hall|]. intros a Ha.
        cbv beta in Ha |- *. by rewrite Hp.
Qed.

(** A DDL access to a placement whose reference holds a connection is
    refused when the placement, or else its colocated entry, was read over
    several connections. *)
Lemma Check_ddl_secondary flags user st pid e chosen found :
  connection (deref st (primaryConnection e)) ≠ None →
  (hasSecondaryConnections e = true ∨
   ∃ key ce, colocatedEntry e = Some key ∧
             ColocatedPlacementsHash st !! key = Some ce ∧
             coHasSecondaryConnections ce = true) →
  CheckPlacementAccess flags user st pid PLACEMENT_ACCESS_DDL e chosen found
  = inl (if hasSecondaryConnections e then DdlOnSecondaryRead pid
         else DdlOnColocatedSecondaryRead pid).
Proof.
  unfold CheckPlacementAccess. intros Hconn Hsec.
  rewrite bool_decide_eq_false_2 by done. simpl.
  destruct (hasSecondaryConnections e); [done|].
  destruct Hsec as [?|(key & ce & -> & -> & ->)]; done.
Qed.

(** Whatever its outcome, a call keeps every entry of the placement and
    colocated hashes, with the same pointers. *)
Lemma Start_stable flags accs userName st st' res :
  StartPlacementListConnection flags accs userName st = (st', res) →
  (∀ pid e, ConnectionPlacementHash st !! pid = Some e →
            ∃ e', ConnectionPlacementHash st' !! pid = Some e' ∧ sameEntry e e') ∧
  (∀ key ce, ColocatedPlacementsHash st !! key = Some ce →
             ∃ ce', ColocatedPlacementsHash st' !! key = Some ce' ∧
                    sameColocated ce ce').
Proof.
  intros Hstart.
  assert (Hext : ∀ st1, extends st st1 →
    (∀ pid e, ConnectionPlacementHash st !! pid = Some e →
              ∃ e', ConnectionPlacementHash st1 !! pid = Some e' ∧ sameEntry e e') ∧
    (∀ key ce, ColocatedPlacementsHash st !! key = Some ce →
               ∃ ce', ColocatedPlacementsHash st1 !! key = Some ce' ∧
                      sameColocated ce ce')).
  { intros st1 (_ & _ & Hp & Hc & _). split.
    - intros pid e He. exists e. split; [by eapply lookup_weaken|].
      apply sameEntry_refl.
    - intros key ce Hce. exists ce. split; [by eapply lookup_weaken|].
      apply sameColocated_refl. }
  destruct res as [err|chosen].
  - apply Hext. revert Hstart. unfold StartPlacementListConnection.
    destruct (SelectionPass _ _ _ _ _) as [st1 [err1|sel]] eqn:Hsel.
    + intros [= <- _]. by eapply SelectionPass_extends.
    + destruct (chosenConnection sel); [done|].
      destruct accs; [|by destruct (StartNodeConnection _ _ _ _)].
      intros [= <- _]. by eapply SelectionPass_extends.
  - destruct (Start_success _ _ _ _ _ _ Hstart)
      as (st1 & sel & conns & Hsel & -> & _).
    destruct (Hext st1 (SelectionPass_extends _ _ _ _ _ _ _ Hsel)) as [HP HC].
    destruct (InstallPass_installs chosen (default CurrentUserName userName)
                accs (placementEntryList sel)
                (with_connections (λ _, conns) st1)) as (_ & _ & Hp & Hc & _).
    split.
    + intros pid e He. destruct (HP pid e He) as (e1 & He1 & Hs1).
      specialize (Hp pid). simpl in Hp. rewrite He1 in Hp.
      inversion Hp as [? e' Hs' Heq1 Heq2|]. exists e'. split; [done|].
      destruct Hs1 as (?&?&?&?), Hs' as (?&?&?&?).
      repeat split; try congruence; auto.
    + intros key ce Hce. destruct (HC key ce Hce) as (ce1 & Hce1 & Hs1).
      specialize (Hc key). simpl in Hc. rewrite Hce1 in Hc.
      inversion Hc as [? ce' Hs' Heq1 Heq2|]. exists ce'. split; [done|].
      destruct Hs1 as (?&?), Hs' as (?&?).
      repeat split; try congruence; auto.
Qed.

(** The selection loop treats a list as it treats the list without its
    accesses to the dummy placement. *)
Lemma SelectionPass_realAccesses flags user accs sel st :
  SelectionPass flags user accs sel st
  = SelectionPass flags user (realAccesses accs) sel st.
Proof.
  revert sel st. induction accs as [|acc accs IH]; intros sel st; [done|].
  unfold realAccesses. rewrite filter_cons.
  destruct (decide (shardId (placement acc) ≠ INVALID_SHARD_ID)) as [Hreal|Hdummy].
  - rewrite !SelectionPass_cons, (proj2 (Z.eqb_neq _ _) Hreal). cbv zeta.
    destruct (ConnectionPlacementHash _ !! _); [|done].
    destruct (CheckPlacementAccess _ _ _ _ _ _ _ _) as [err|[ch fd]]; [done|].
    apply IH.
  - rewrite SelectionPass_cons.
    assert (shardId (placement acc) = INVALID_SHARD_ID) as Heq
      by (destruct (decide (shardId (placement acc) = INVALID_SHARD_ID)); tauto).
    rewrite (proj2 (Z.eqb_eq _ _) Heq). apply IH.
Qed.

(** Pointers stay within the arena across a call, whatever its outcome. *)
Lemma Start_valid flags accs userName st st' res :
  validReferences st →
  StartPlacementListConnection flags accs userName st = (st', res) →
  validReferences st'.
Proof.
  intros Hvalid. unfold StartPlacementListConnection.
  destruct (SelectionPass _ _ _ _ _) as [st1 [err|sel]] eqn:Hsel.
  - intros [= <- _]. by eapply SelectionPass_valid.
  - pose proof (SelectionPass_valid _ _ _ _ _ _ _ Hvalid Hsel) as [HP HC].
    assert (Hinst : ∀ c conns,
              validReferences
                (InstallPass c (default CurrentUserName userName) accs
                   (placementEntryList sel)
                   (with_connections (λ _, conns) st1))).
    { intros c conns.
      destruct (InstallPass_installs c (default CurrentUserName userName)
                  accs (placementEntryList sel)
                  (with_connections (λ _, conns) st1))
        as (Hlen & _ & Hp & Hc & _).
      split.
      - intros pid e' He'. specialize (Hp pid). rewrite He' in Hp.
        inversion Hp as [e ? (Hprim & _) Heq1 Heq2|]. symmetry in Heq1.
        rewrite Hlen, Hprim. by eapply HP.
      - intros key ce' Hce'. specialize (Hc key). rewrite Hce' in Hc.
        inversion Hc as [ce ? (Hprim & _) Heq1 Heq2|]. symmetry in Heq1.
        rewrite Hlen, Hprim. by eapply HC. }
    destruct (chosenConnection sel) as [c|].
    + intros [= <- _]. rewrite <- (with_connections_same st1). apply Hinst.
    + destruct accs as [|first rest]; [by intros [= <- _]|].
      destruct (StartNodeConnection _ _ _ _) as [c conns].
      intros [= <- _]. apply Hinst.
Qed.

(** *** Connection closure *)

(** CloseShardPlacementAssociation takes the connection away from the
    references on the connection's list and leaves everything else of
    every reference, the DDL and DML flags included, as it was. *)
Lemma Close_references c st a :
  deref (CloseShardPlacementAssociation c st) a =
  if bool_decide (a ∈ referencedPlacements (getConnection (connections st) c)
                  ∧ (a < length (refs st))%nat)
  then set_connection None (deref st a) else deref st a.
Proof.
  unfold CloseShardPlacementAssociation.
  generalize (referencedPlacements (getConnection (connections st) c)).
  intros l. revert st. induction l as [|a0 l IH]; intros st.
  - cbn [foldl]. rewrite bool_decide_eq_false_2; [done|].
    intros [Hin _]. by apply not_elem_of_nil in Hin.
  - cbn [foldl]. rewrite IH, !deref_store. simpl. rewrite length_insert.
    rewrite (bool_decide_ext (a ∈ a0 :: l ∧ (a < length (refs st))%nat)
               ((a = a0 ∨ a ∈ l) ∧ (a < length (refs st))%nat))
      by (by rewrite elem_of_cons).
    destruct (decide (a0 = a)) as [->|Hne].
    + destruct (decide (a < length (refs st))%nat) as [Hlt|Hge].
      * rewrite (bool_decide_eq_true_2 (a = a ∧ _)) by done.
        rewrite (bool_decide_eq_true_2 ((a = a ∨ _) ∧ _)) by auto.
        by case_bool_decide.
      * rewrite !bool_decide_eq_false_2; [done|tauto..].
    + rewrite (bool_decide_eq_false_2 (a0 = a ∧ _)) by tauto.
      by rewrite (bool_decide_ext ((a = a0 ∨ a ∈ l) ∧ (a < length (refs st))%nat)
                    (a ∈ l ∧ (a < length (refs st))%nat))
        by (split; [intros [[?|?] ?]|intros [? ?]]; first [congruence|tauto]).
Qed.

Lemma Close_valid c st :
  validReferences st → validReferences (CloseShardPlacementAssociation c st).
Proof.
  unfold CloseShardPlacementAssociation.
  generalize (referencedPlacements (getConnection (connections st) c)).
  intros l. revert st. induction l as [|a l IH]; intros st Hvalid; [done|].
  cbn [foldl]. apply IH. destruct Hvalid as [HP HC].
  split; simpl; intros ? ? ?; rewrite length_insert; eauto.
Qed.

(** *** Where the error about writes over several connections arises *)










(** ** Results *)


(** C9.  Once the selection loop has set foundModifyingConnection, no later
    access of the same loop changes the candidate, and a call that returns
    a connection returns that candidate, which is the connection of a
    reference that had recorded DDL or DML before the call. *)
Theorem C9_modifying_connection_is_kept flags l1 l2 userName st st1 sel1 :
  SelectionPass flags (default CurrentUserName userName) l1
    initialSelection st = (st1, inr sel1) →
  foundModifyingConnection sel1 = true →
  (∀ st2 sel2,
     SelectionPass flags (default CurrentUserName userName) l2 sel1 st1
       = (st2, inr sel2) →
     chosenConnection sel2 = chosenConnection sel1 ∧
     foundModifyingConnection sel2 = true) ∧
  (∀ st' c,
     StartPlacementListConnection flags (l1 ++ l2) userName st = (st', inr c) →
     chosenConnection sel1 = Some c ∧
     ∃ a, connection (deref st a) = Some c ∧ modified (deref st a) = true).
Proof.
  intros Hsel1 Hfound. split.
  - intros st2 sel2. by apply SelectionPass_found_stays.
  - intros st' c Hstart.
    destruct (Start_success _ _ _ _ _ _ Hstart)
      as (st2 & sel2 & conns & Hsel & _ & Hchosen).
    rewrite SelectionPass_app, Hsel1 in Hsel.
    destruct (SelectionPass_found_stays _ _ _ _ _ _ _ Hfound Hsel) as [Hch _].
    destruct (SelectionPass_inv _ _ _ _ _ _ _ (selection_inv_initial st) Hsel1)
      as (_ & Hwritten & _).
    destruct (Hwritten Hfound) as (a & c0 & Hc0 & Hconn & Hmod).
    destruct (SelectionPass_extends _ _ _ _ _ _ _ Hsel1) as (Hderef & _).
    rewrite Hderef in Hconn, Hmod.
    assert (c0 = c) as ->.
    { destruct Hchosen as [[Hc _]|[Hc _]]; congruence. }
    split; [done|]. by exists a.
Qed.

(** C3 (as amended).  A call that returns a connection leaves every
    placement entry whose primary reference had recorded DDL or DML before
    the call exactly as it was; in particular it does not set
    hasSecondaryConnections on it. *)
Theorem C3_written_placement_keeps_entry flags accs userName st st' chosen pid e :
  StartPlacementListConnection flags accs userName st = (st', inr chosen) →
  ConnectionPlacementHash st !! pid = Some e →
  modified (deref st (primaryConnection e)) = true →
  ConnectionPlacementHash st' !! pid = Some e.
Proof.
  intros Hstart He Hmod.
  destruct (Start_success _ _ _ _ _ _ Hstart)
    as (st1 & sel & conns & Hsel & -> & Hchosen).
  destruct (SelectionPass_extends _ _ _ _ _ _ _ Hsel) as (Hderef & _ & Hp & _).
  destruct (SelectionPass_inv _ _ _ _ _ _ _ (selection_inv_initial st) Hsel)
    as (_ & _ & Hlive).
  pose proof (lookup_weaken _ _ _ _ He Hp) as He1.
  apply InstallPass_untouched; [done|].
  intros Hin. change (deref (with_connections (λ _, conns) st1))
    with (deref st1).
  unfold holdsOtherConnection.
  destruct (connection (deref st1 (primaryConnection e))) as [c|] eqn:Hc;
    [|by rewrite andb_false_r].
  rewrite <- Hderef in Hmod.
  destruct (Hlive _ _ _ Hin He1 Hmod Hc) as [_ Hch].
  destruct Hchosen as [[Hch' _]|[Hch' _]]; [|congruence].
  assert (c = chosen) as -> by congruence.
  by rewrite bool_decide_eq_true_2.
Qed.


(** C5 (as amended).  Let the list hold a DDL access to a placement that
    has an entry whose reference holds a connection, and let the entry, or
    else its colocated entry, have hasSecondaryConnections set.  Then
    StartPlacementListConnection raises an error.  The error is the one
    about DDL on a placement read over multiple connections (respectively
    on a placement with a co-located placement read over multiple
    connections) when the accesses before it pass the selection loop.  The
    failing call changes no connection, no reference and no entry that
    existed before the call; the placement and colocated hashes are exactly
    as before when every placement looked up before the failing access
    already had its entry. *)
Theorem C5_ddl_after_secondary_read flags pre acc post userName st e :
  accessType acc = PLACEMENT_ACCESS_DDL →
  shardId (placement acc) ≠ INVALID_SHARD_ID →
  ConnectionPlacementHash st !! placementId (placement acc) = Some e →
  connection (deref st (primaryConnection e)) ≠ None →
  (hasSecondaryConnections e = true ∨
   ∃ key ce, colocatedEntry e = Some key ∧
             ColocatedPlacementsHash st !! key = Some ce ∧
             coHasSecondaryConnections ce = true) →
  ∃ st' err,
    StartPlacementListConnection flags (pre ++ acc :: post) userName st
    = (st', inl err) ∧
    extends st st' ∧
    ((∃ st1 sel1,
        SelectionPass flags (default CurrentUserName userName) pre
          initialSelection st = (st1, inr sel1)) →
     err = if hasSecondaryConnections e
           then DdlOnSecondaryRead (placementId (placement acc))
           else DdlOnColocatedSecondaryRead (placementId (placement acc))) ∧
    (Forall (λ a, shardId (placement a) = INVALID_SHARD_ID ∨
                  is_Some (ConnectionPlacementHash st
                             !! placementId (placement a))) pre →
     refs st' = refs st ∧
     ConnectionPlacementHash st' = ConnectionPlacementHash st ∧
     ColocatedPlacementsHash st' = ColocatedPlacementsHash st).
Proof.
  intros Hddl Hreal He Hconn Hsec.
  set (user := default CurrentUserName userName).
  destruct (SelectionPass flags user pre initialSelection st)
    as [st1 [err1|sel1]] eqn:Hpre.
  - exists st1, err1. split; [|split; [|split]].
    + apply Start_selection_error. fold user.
      by rewrite SelectionPass_app, Hpre.
    + by eapply SelectionPass_extends.
    + by intros (? & ? & ?).
    + intros Hall. by eapply SelectionPass_present.
  - pose proof (SelectionPass_extends _ _ _ _ _ _ _ Hpre)
      as (Hd1 & _ & Hp1 & Hc1 & Hn1).
    pose proof (lookup_weaken _ _ _ _ He Hp1) as He1.
    destruct (FindOrCreate_present _ _ _ He1) as (Hr2 & Hp2 & Hc2).
    pose proof (FindOrCreate_extends (placement acc) st1) as Hext2.
    set (st2 := (FindOrCreatePlacementEntry (placement acc) st1).2) in *.
    assert (Hcheck : ∀ ch fd,
              CheckPlacementAccess flags user st2 (placementId (placement acc))
                (accessType acc) e ch fd
              = inl (if hasSecondaryConnections e
                     then DdlOnSecondaryRead (placementId (placement acc))
                     else DdlOnColocatedSecondaryRead
                            (placementId (placement acc)))).
    { intros ch fd. rewrite Hddl. apply Check_ddl_secondary.
      - destruct Hext2 as (Hd2 & _). by rewrite Hd2, Hd1.
      - destruct Hsec as [?|(key & ce & Hk & Hce & Hs)]; [by left|right].
        exists key, ce. split; [done|]. split; [|done].
        rewrite Hc2. by eapply lookup_weaken. }
    assert (Hsel : SelectionPass flags user (pre ++ acc :: post)
                     initialSelection st
                   = (st2, inl (if hasSecondaryConnections e
                                then DdlOnSecondaryRead
                                       (placementId (placement acc))
                                else DdlOnColocatedSecondaryRead
                                       (placementId (placement acc))))).
    { rewrite SelectionPass_app, Hpre, SelectionPass_cons.
      rewrite (proj2 (Z.eqb_neq _ _) Hreal). cbv zeta. fold st2.
      by rewrite Hp2, He1, Hcheck. }
    eexists st2, _. split; [by apply Start_selection_error|].
    split; [|split; [done|]].
    + eapply extends_trans; [|exact Hext2]. by eapply SelectionPass_extends.
    + intros Hall.
      destruct (SelectionPass_present _ _ _ _ _ _ _ Hall Hpre)
        as (Hr & Hp & Hc).
      rewrite Hr2, Hp2, Hc2. done.
Qed.


End Facts.

(** ** The commit-time checks *)

Section CommitFacts.

Context {walk : HashSeqSearch}.

Lemma length_hash_seq_search (h : gmap Z (list Z)) :
  length (hash_seq_search h) = size h.
Proof.
  rewrite <- length_map_to_list, <- (length_fmap fst).
  apply Permutation_length, NoDup_Permutation.
  - apply hash_seq_search_NoDup.
  - apply NoDup_fst_map_to_list.
  - intros k. rewrite hash_seq_search_elem, list_elem_of_fmap. split.
    + intros [ms Hms]. exists (k, ms). split; [done|].
      by apply elem_of_map_to_list.
    + intros ([s ms] & -> & Hin%elem_of_map_to_list). by exists ms.
Qed.

Lemma lookup_markFailures st members pid :
  markFailures st members !! pid =
  (λ e, if bool_decide (pid ∈ members) && isFailure st pid
        then set_failed true e else e) <$> ConnectionPlacementHash st !! pid.
Proof.
  unfold markFailures. rewrite map_lookup_imap.
  by destruct (ConnectionPlacementHash st !! pid).
Qed.

Lemma sameButFailed_classification st st' pid :
  sameButFailed st st' →
  placementModified st' pid = placementModified st pid ∧
  connectionLost st' pid = connectionLost st pid.
Proof.
  intros (Hr & Hc & _ & _ & Hp). specialize (Hp pid).
  unfold placementModified, connectionLost, deref. rewrite Hr, Hc.
  destruct Hp as [e e' (-> & _)|]; done.
Qed.

Lemma ClassifyPlacement_step st failures successes pid :
  ∃ st',
    ClassifyPlacement (st, failures, successes) pid =
      (st', (failures + if isFailure st pid then 1 else 0)%nat,
            (successes + if isSuccess st pid then 1 else 0)%nat) ∧
    sameButFailed st st' ∧
    ∀ pid',
      ConnectionPlacementHash st' !! pid' =
      (λ e, if bool_decide (pid' = pid) && isFailure st pid
            then set_failed true e else e)
        <$> ConnectionPlacementHash st !! pid'.
Proof.
  assert (Hsame : ∀ pid', ConnectionPlacementHash st !! pid' =
            (λ e, if bool_decide (pid' = pid) && false
                  then set_failed true e else e)
              <$> ConnectionPlacementHash st !! pid').
  { intros pid'. rewrite andb_false_r.
    by destruct (ConnectionPlacementHash st !! pid'). }
  assert (Hrefl : sameButFailed st st).
  { repeat split; auto. intros pid'.
    destruct (ConnectionPlacementHash st !! pid'); by constructor. }
  unfold ClassifyPlacement, isFailure, isSuccess, placementModified,
    connectionLost, modified.
  destruct (ConnectionPlacementHash st !! pid) as [e|] eqn:He; simpl.
  - destruct (hadDDL _ || hadDML _) eqn:Hmod; simpl.
    + destruct (match connection _ with Some _ => _ | None => _ end) eqn:Hlost;
        simpl.
      * eexists. split; [by rewrite Nat.add_0_r, Nat.add_1_r|]. split.
        -- repeat split; auto. intros pid'. simpl.
           destruct (decide (pid = pid')) as [<-|Hne].
           ++ rewrite lookup_insert_eq, He. by constructor.
           ++ rewrite lookup_insert_ne by done.
              destruct (ConnectionPlacementHash st !! pid'); by constructor.
        -- intros pid'. simpl. rewrite andb_true_r.
           case_bool_decide as Heq.
           ++ subst pid'. by rewrite lookup_insert_eq, He.
           ++ rewrite lookup_insert_ne by done.
              by destruct (ConnectionPlacementHash st !! pid').
      * exists st. by rewrite Nat.add_0_r, Nat.add_1_r.
    + exists st. by rewrite !Nat.add_0_r.
  - exists st. by rewrite !Nat.add_0_r.
Qed.

Lemma sameButFailed_trans st1 st2 st3 :
  sameButFailed st1 st2 → sameButFailed st2 st3 → sameButFailed st1 st3.
Proof.
  intros (?&?&?&?&Hp1) (?&?&?&?&Hp2). repeat split; try congruence.
  intros pid. specialize (Hp1 pid). specialize (Hp2 pid).
  destruct Hp1 as [e1 e2 (?&?&?)|]; inversion Hp2 as [? e3 (?&?&?)|];
    subst; constructor. repeat split; congruence.
Qed.

(** The first loop of CheckShardPlacements counts the failures and the
    successes among the members and sets the [failed] flag of the
    failures. *)
Lemma Classify_members members st failures successes :
  ∃ st',
    foldl ClassifyPlacement (st, failures, successes) members =
      (st', (failures + length (List.filter (isFailure st) members))%nat,
            (successes + length (List.filter (isSuccess st) members))%nat) ∧
    sameButFailed st st' ∧
    ConnectionPlacementHash st' = markFailures st members.
Proof.
  revert st failures successes.
  induction members as [|pid members IH]; intros st failures successes.
  - exists st. simpl. rewrite !Nat.add_0_r. split; [done|]. split.
    + repeat split; auto. intros pid.
      destruct (ConnectionPlacementHash st !! pid); by constructor.
    + apply map_eq. intros pid. rewrite lookup_markFailures.
      by destruct (ConnectionPlacementHash st !! pid).
  - cbn [foldl].
    destruct (ClassifyPlacement_step st failures successes pid)
      as (st1 & -> & Hsame1 & Hp1).
    destruct (IH st1 (failures + if isFailure st pid then 1 else 0)%nat
                 (successes + if isSuccess st pid then 1 else 0)%nat)
      as (st' & -> & Hsame' & Hp').
    assert (Hcls : ∀ q, isFailure st1 q = isFailure st q
                        ∧ isSuccess st1 q = isSuccess st q).
    { intros q. unfold isFailure, isSuccess.
      by destruct (sameButFailed_classification st st1 q Hsame1) as [-> ->]. }
    exists st'. split; [|split].
    + f_equal; [f_equal|].
      * rewrite (filter_ext (isFailure st1) (isFailure st))
          by (intros q; apply Hcls).
        simpl. destruct (isFailure st pid); simpl; lia.
      * rewrite (filter_ext (isSuccess st1) (isSuccess st))
          by (intros q; apply Hcls).
        simpl. destruct (isSuccess st pid); simpl; lia.
    + by eapply sameButFailed_trans.
    + rewrite Hp'. apply map_eq. intros q.
      rewrite !lookup_markFailures, Hp1.
      destruct (Hcls q) as [-> _].
      destruct (ConnectionPlacementHash st !! q) as [e|]; [simpl|done].
      f_equal. rewrite (bool_decide_ext (q ∈ pid :: members)
                          (q = pid ∨ q ∈ members)) by apply elem_of_cons.
      destruct (decide (q = pid)) as [->|Hne].
      * rewrite (bool_decide_eq_true_2 (pid = pid)) by done.
        rewrite (bool_decide_eq_true_2 (pid = pid ∨ _)) by auto. simpl.
        destruct (isFailure st pid); [|by rewrite andb_false_r].
        by destruct (bool_decide (pid ∈ members)).
      * rewrite (bool_decide_eq_false_2 (q = pid)) by done. simpl.
        by rewrite (bool_decide_ext (q = pid ∨ q ∈ members) (q ∈ members))
          by tauto.
Qed.

Lemma InvalidatePlacement_lookup st shard cat entry pid :
  InvalidatePlacement st shard cat entry !! pid =
  if bool_decide (pid = entry) && failedFlag st pid
     && bool_decide (cat !! pid = Some FILE_FINALIZED)
  then Some FILE_INACTIVE else cat !! pid.
Proof.
  unfold InvalidatePlacement, failedFlag, LoadGroupShardPlacement,
    UpdateShardPlacementState.
  case_bool_decide as Heq; simpl.
  - subst entry. destruct (ConnectionPlacementHash st !! pid) as [e|]; [|done].
    destruct (failed e); [simpl|done].
    destruct (cat !! pid) as [[]|] eqn:Hcat; simpl; try done.
    by rewrite lookup_insert_eq.
  - destruct (ConnectionPlacementHash st !! entry) as [e|]; [|done].
    destruct (failed e); [|done].
    destruct (cat !! entry) as [[]|]; try done.
    by rewrite lookup_insert_ne.
Qed.

(** The second loop of CheckShardPlacements changes the catalog row of a
    placement exactly when the placement is a member of the shard entry, its
    [failed] flag is set and its row says FILE_FINALIZED; the row then says
    FILE_INACTIVE. *)
Lemma Invalidate_members st shard members cat pid :
  foldl (InvalidatePlacement st shard) cat members !! pid =
  if bool_decide (pid ∈ members) && failedFlag st pid
     && bool_decide (cat !! pid = Some FILE_FINALIZED)
  then Some FILE_INACTIVE else cat !! pid.
Proof.
  revert cat. induction members as [|m members IH]; intros cat.
  - cbn [foldl].
    by rewrite (bool_decide_eq_false_2 (pid ∈ [])) by apply not_elem_of_nil.
  - cbn [foldl]. rewrite IH, InvalidatePlacement_lookup.
    rewrite (bool_decide_ext (pid ∈ m :: members) (pid = m ∨ pid ∈ members))
      by apply elem_of_cons.
    destruct (decide (pid = m)) as [->|Hne].
    + rewrite (bool_decide_eq_true_2 (m = m)) by done.
      rewrite (bool_decide_eq_true_2 (m = m ∨ _)) by auto. simpl.
      destruct (failedFlag st m); simpl;
        [|by rewrite !andb_false_r].
      destruct (cat !! m) as [[]|] eqn:Hcat; simpl;
        repeat (case_bool_decide; simpl); try done;
        by rewrite ?andb_false_r.
    + rewrite (bool_decide_eq_false_2 (pid = m)) by done. simpl.
      by rewrite (bool_decide_ext (pid = m ∨ pid ∈ members) (pid ∈ members))
        by tauto.
Qed.

(** C7.  CheckShardPlacements counts, among the members of the shard entry,
    only placements whose primary reference recorded DDL or DML; such a
    placement counts as a failure exactly when the reference has no
    connection or the remote transaction of its connection failed, and as a
    success otherwise.  The call returns false exactly when there are
    failures and no success.  When there is at least one success it returns
    true, every placement classified as a failure has its [failed] flag
    set, and the catalog changes exactly for the members whose [failed]
    flag is set and whose state was FILE_FINALIZED: their state becomes
    FILE_INACTIVE; no row in another state is written. *)
Theorem C7_check_shard_placements shard st cat st1 cat1 ok :
  CheckShardPlacements shard st cat = (st1, cat1, ok) →
  let members := default [] (ConnectionShardHash st !! shard) in
  let failures := length (List.filter (isFailure st) members) in
  let successes := length (List.filter (isSuccess st) members) in
  ok = negb ((0 <? failures)%nat && (successes =? 0)%nat) ∧
  sameButFailed st st1 ∧
  ConnectionPlacementHash st1 = markFailures st members ∧
  (∀ pid, pid ∈ members → isFailure st pid = true → failedFlag st1 pid = true) ∧
  ((0 < successes)%nat → ok = true) ∧
  (ok = true →
   ∀ pid, cat1 !! pid =
          if bool_decide (pid ∈ members) && failedFlag st1 pid
             && bool_decide (cat !! pid = Some FILE_FINALIZED)
          then Some FILE_INACTIVE else cat !! pid) ∧
  (ok = false → cat1 = cat).
Proof.
  intros Hcheck members failures successes.
  unfold CheckShardPlacements in Hcheck. fold members in Hcheck.
  destruct (Classify_members members st 0 0) as (st' & Hfold & Hsame & Hp).
  rewrite Hfold in Hcheck. simpl in Hcheck.
  fold failures successes in Hcheck.
  assert (Hflag : ∀ pid, pid ∈ members → isFailure st pid = true →
                         failedFlag st' pid = true).
  { intros pid Hin Hfail. unfold failedFlag.
    rewrite Hp, lookup_markFailures, Hfail.
    rewrite bool_decide_eq_true_2 by done. simpl.
    unfold isFailure, placementModified in Hfail.
    by destruct (ConnectionPlacementHash st !! pid). }
  destruct ((0 <? failures)%nat && (successes =? 0)%nat) eqn:Hres;
    injection Hcheck as <- <- <-.
  - split; [done|]. do 3 (split; [assumption|]). split; [|by split].
    intros Hpos. apply andb_true_iff in Hres as [_ Hz%Nat.eqb_eq]. lia.
  - split; [done|]. do 3 (split; [assumption|]). split; [done|].
    split; [|done]. intros _ pid. apply Invalidate_members.
Qed.

Lemma readOnlyShardsb_correct st :
  readOnlyShardsb st = true → readOnlyShards st.
Proof.
  unfold readOnlyShardsb, readOnlyShards.
  rewrite forallb_forall. intros Hall shard members pid Hs Hin.
  apply elem_of_map_to_list, list_elem_of_In in Hs.
  specialize (Hall _ Hs). simpl in Hall.
  rewrite forallb_forall in Hall.
  apply list_elem_of_In, Hall in Hin. by apply negb_true_iff in Hin.
Qed.

Lemma Check_unmodified shard st cat :
  (∀ pid, pid ∈ default [] (ConnectionShardHash st !! shard) →
          placementModified st pid = false) →
  ∃ cat', CheckShardPlacements shard st cat = (st, cat', true).
Proof.
  intros Hall. unfold CheckShardPlacements.
  assert (Hfold : foldl ClassifyPlacement (st, 0%nat, 0%nat)
                    (default [] (ConnectionShardHash st !! shard))
                  = (st, 0%nat, 0%nat)).
  { induction (default [] (ConnectionShardHash st !! shard)) as [|m ms IH];
      [done|]. cbn [foldl].
    assert (ClassifyPlacement (st, 0%nat, 0%nat) m = (st, 0%nat, 0%nat)) as ->.
    { pose proof (Hall m (list_elem_of_here _ _)) as Hm.
      unfold ClassifyPlacement, placementModified, modified in *.
      destruct (ConnectionPlacementHash st !! m); [|done]. by rewrite Hm. }
    apply IH. intros pid Hin. apply Hall. by apply list_elem_of_further. }
  rewrite Hfold. simpl. eauto.
Qed.

Lemma Check_readOnly shard st cat :
  readOnlyShards st →
  ∃ cat', CheckShardPlacements shard st cat = (st, cat', true).
Proof.
  intros Hro. apply Check_unmodified.
  intros pid. destruct (ConnectionShardHash st !! shard) as [ms|] eqn:Hs;
    simpl; [by apply (Hro shard)|]. by intros ?%not_elem_of_nil.
Qed.

Lemma PostCommitLoop_readOnly using2PC shards attempts successes warnings st cat :
  readOnlyShards st →
  ∃ cat',
    PostCommitLoop using2PC shards attempts successes warnings st cat =
    (st, cat', warnings, (attempts + length shards)%nat,
     (successes + length shards)%nat, None).
Proof.
  intros Hro. revert attempts successes cat.
  induction shards as [|shard shards IH]; intros attempts successes cat.
  - exists cat. simpl. by rewrite !Nat.add_0_r.
  - cbn [PostCommitLoop].
    destruct (Check_readOnly shard st cat Hro) as (cat1 & ->).
    destruct (IH (S attempts) (S successes) cat1) as (cat' & ->).
    exists cat'. simpl. repeat f_equal; lia.
Qed.

(** C10.  A shard entry none of whose members is a modified placement is
    classified as a success by CheckShardPlacements, whatever the other
    shard entries of the transaction are: the call returns true and sets no
    [failed] flag.  When this holds of every shard entry,
    PostCommitMarkFailedShardPlacements raises no error and no warning:
    every shard entry is counted as an attempt and as a success, so the
    test for "could not commit transaction on any active node" fails. *)
Theorem C10_read_only_shards_commit using2PC shard st cat :
  ((∀ pid, pid ∈ default [] (ConnectionShardHash st !! shard) →
           placementModified st pid = false) →
   ∃ cat', CheckShardPlacements shard st cat = (st, cat', true)) ∧
  (readOnlyShards st →
   ∃ cat',
     PostCommitLoop using2PC (hash_seq_search (ConnectionShardHash st))
       0 0 [] st cat
     = (st, cat', [], size (ConnectionShardHash st),
        size (ConnectionShardHash st), None) ∧
     PostCommitMarkFailedShardPlacements using2PC st cat = (st, cat', [], None)).
Proof.
  split; [apply Check_unmodified|]. intros Hro.
  unfold PostCommitMarkFailedShardPlacements.
  destruct (PostCommitLoop_readOnly using2PC
              (hash_seq_search (ConnectionShardHash st))
              0 0 [] st cat Hro) as (cat' & Hloop).
  rewrite length_hash_seq_search in Hloop. simpl in Hloop.
  exists cat'. split; [done|]. rewrite Hloop.
  by destruct (size (ConnectionShardHash st)).
Qed.

End CommitFacts.

(** ** Further properties *)

Section MoreFacts.

Context {ext : Externals}.

Lemma shardListsNoDup_initial : shardListsNoDup InitPlacementConnectionManagement.
Proof. intros shard members; simpl; by rewrite lookup_empty. Qed.

Lemma unconnected_initial : unconnected InitPlacementConnectionManagement.
Proof.
  split; intros ? ?; simpl; by rewrite lookup_empty.
Qed.

(** *** Entering placements *)

Lemma FindOrCreate_shards p st :
  ConnectionShardHash (FindOrCreatePlacementEntry p st).2 =
  let members := default [] (ConnectionShardHash st !! shardId p) in
  if bool_decide (placementId p ∈ members) then ConnectionShardHash st
  else <[shardId p := members ++ [placementId p]]> (ConnectionShardHash st).
Proof.
  unfold FindOrCreatePlacementEntry, AssociatePlacementWithShard. simpl.
  destruct (ConnectionPlacementHash st !! placementId p);
    [by case_bool_decide|].
  destruct (partitionMethod p);
    try destruct (ColocatedPlacementsHash st !! ColocatedKey p);
    simpl; by case_bool_decide.
Qed.

Lemma FindOrCreate_linked p st :
  shardLinked (FindOrCreatePlacementEntry p st).2 p.
Proof.
  unfold shardLinked. rewrite FindOrCreate_shards. cbv zeta.
  case_bool_decide as Hin; [done|].
  rewrite lookup_insert_eq. simpl. apply elem_of_app. right.
  apply list_elem_of_here.
Qed.

Lemma FindOrCreate_nodup p st :
  shardListsNoDup st → shardListsNoDup (FindOrCreatePlacementEntry p st).2.
Proof.
  intros Hnd shard members. rewrite FindOrCreate_shards. cbv zeta.
  case_bool_decide as Hin; [apply Hnd|].
  intros [[<- <-]|[_ Hs]]%lookup_insert_Some; [|by eapply Hnd].
  apply NoDup_app. split; [|split].
  - destruct (ConnectionShardHash st !! shardId p) as [ms|] eqn:Hs;
      simpl; [by eapply Hnd|constructor].
  - intros x Hx ->%list_elem_of_singleton. done.
  - apply NoDup_singleton.
Qed.

(** X1.  FindOrCreatePlacementEntry leaves the placement's entry on the list
    of its shard's entry, and puts it there at most once: lists without
    duplicates stay without duplicates, and the lists of other shards are
    not touched. *)
Theorem X1_entry_linked_to_shard_once p st :
  shardListsNoDup st →
  shardLinked (FindOrCreatePlacementEntry p st).2 p ∧
  shardListsNoDup (FindOrCreatePlacementEntry p st).2 ∧
  ∀ shard, shard ≠ shardId p →
    ConnectionShardHash (FindOrCreatePlacementEntry p st).2 !! shard
    = ConnectionShardHash st !! shard.
Proof.
  intros Hnd. split; [apply FindOrCreate_linked|].
  split; [by apply FindOrCreate_nodup|].
  intros shard Hne. rewrite FindOrCreate_shards. cbv zeta.
  case_bool_decide; [done|]. by rewrite lookup_insert_ne.
Qed.

(** X2.  Looking a placement up a second time changes nothing: the second
    call of FindOrCreatePlacementEntry finds the entry and its shard
    link. *)
Theorem X2_find_after_create p st :
  FindOrCreatePlacementEntry p (FindOrCreatePlacementEntry p st).2
  = FindOrCreatePlacementEntry p st.
Proof.
  pose proof (FindOrCreate_linked p st) as Hlinked.
  destruct (FindOrCreate_found p st) as [e He].
  set (st1 := (FindOrCreatePlacementEntry p st).2) in *.
  transitivity (placementId p, st1); [|done].
  unfold FindOrCreatePlacementEntry at 1. rewrite He.
  unfold AssociatePlacementWithShard.
  by rewrite bool_decide_eq_true_2.
Qed.

(** X3.  A placement of a range- or append-partitioned table that is
    entered for the first time gets a zeroed reference of its own: no other
    placement entry and no colocated entry points to it. *)
Theorem X3_private_reference p st :
  validReferences st →
  ConnectionPlacementHash st !! placementId p = None →
  isColocating (partitionMethod p) = false →
  ∃ e,
    ConnectionPlacementHash (FindOrCreatePlacementEntry p st).2
      !! placementId p = Some e ∧
    colocatedEntry e = None ∧
    hasSecondaryConnections e = false ∧
    deref (FindOrCreatePlacementEntry p st).2 (primaryConnection e)
      = zeroReference ∧
    (∀ pid e', pid ≠ placementId p →
       ConnectionPlacementHash (FindOrCreatePlacementEntry p st).2 !! pid
         = Some e' →
       primaryConnection e' ≠ primaryConnection e) ∧
    (∀ key ce,
       ColocatedPlacementsHash (FindOrCreatePlacementEntry p st).2 !! key
         = Some ce →
       coPrimaryConnection ce ≠ primaryConnection e).
Proof.
  intros [HP HC] Hnone Hcol.
  destruct (FindOrCreate_absent _ _ Hnone) as (conRef & Hp & Hrest).
  rewrite Hcol in Hp, Hrest. destruct Hrest as (-> & Hr & Hc).
  eexists. rewrite Hp, lookup_insert_eq. split; [done|].
  split; [done|]. split; [done|]. cbn [primaryConnection]. split; [|split].
  - unfold deref. rewrite Hr, lookup_app_r by lia.
    by rewrite Nat.sub_diag.
  - intros pid e' Hne. rewrite lookup_insert_ne by done.
    intros He'. apply HP in He'. lia.
  - intros key ce. rewrite Hc. intros Hce. apply HC in Hce. lia.
Qed.

(** X4.  Two placements with the same colocation key, both of
    hash-partitioned or reference tables, that are entered one after the
    other get the same reference: their entries and the colocated entry of
    the key hold one pointer. *)
Theorem X4_colocated_placements_share p q st :
  isColocating (partitionMethod p) = true →
  isColocating (partitionMethod q) = true →
  ColocatedKey p = ColocatedKey q →
  placementId p ≠ placementId q →
  ConnectionPlacementHash st !! placementId p = None →
  ConnectionPlacementHash st !! placementId q = None →
  let st' := (FindOrCreatePlacementEntry q
                (FindOrCreatePlacementEntry p st).2).2 in
  ∃ ep eq ce,
    ConnectionPlacementHash st' !! placementId p = Some ep ∧
    ConnectionPlacementHash st' !! placementId q = Some eq ∧
    ColocatedPlacementsHash st' !! ColocatedKey p = Some ce ∧
    primaryConnection ep = coPrimaryConnection ce ∧
    primaryConnection eq = coPrimaryConnection ce.
Proof.
  intros Hcp Hcq Hkey Hne Hp Hq st'.
  destruct (FindOrCreate_absent _ _ Hp) as (r1 & Hp1 & Hrest1).
  rewrite Hcp in Hp1, Hrest1.
  set (st1 := (FindOrCreatePlacementEntry p st).2) in *.
  assert (∃ ce1, ColocatedPlacementsHash st1 !! ColocatedKey p = Some ce1
                 ∧ coPrimaryConnection ce1 = r1) as (ce1 & Hce1 & Hr1).
  { destruct (ColocatedPlacementsHash st !! ColocatedKey p) as [ce|] eqn:Hce;
      destruct Hrest1 as (-> & _ & ->).
    - by exists ce.
    - eexists. by rewrite lookup_insert_eq. }
  assert (Hq1 : ConnectionPlacementHash st1 !! placementId q = None)
    by (by rewrite Hp1, lookup_insert_ne).
  destruct (FindOrCreate_absent _ _ Hq1) as (r2 & Hp2 & Hrest2).
  rewrite Hcq in Hp2, Hrest2. rewrite <- Hkey in Hp2, Hrest2.
  rewrite Hce1 in Hrest2. fold st' in Hp2, Hrest2.
  destruct Hrest2 as (-> & _ & Hc2).
  eexists _, _, ce1. rewrite Hp2, Hc2.
  rewrite lookup_insert_ne, lookup_insert_eq, Hp1, lookup_insert_eq by done.
  repeat split; done.
Qed.

(** *** The whole call *)

Lemma Start_error_extends flags accs userName st st' err :
  StartPlacementListConnection flags accs userName st = (st', inl err) →
  extends st st'.
Proof.
  unfold StartPlacementListConnection.
  destruct (SelectionPass _ _ _ _ _) as [st1 [err1|sel]] eqn:Hsel.
  - intros [= <- _]. by eapply SelectionPass_extends.
  - destruct (chosenConnection sel); [done|].
    destruct accs; [|by destruct (StartNodeConnection _ _ _ _)].
    intros [= <- _]. by eapply SelectionPass_extends.
Qed.


Lemma FindOrCreate_members p st shard x :
  x ∈ default [] (ConnectionShardHash st !! shard) →
  x ∈ default [] (ConnectionShardHash (FindOrCreatePlacementEntry p st).2
                    !! shard).
Proof.
  rewrite FindOrCreate_shards. cbv zeta. case_bool_decide; [done|].
  destruct (decide (shard = shardId p)) as [->|Hne].
  - rewrite lookup_insert_eq. simpl. intros Hx. apply elem_of_app. by left.
  - by rewrite lookup_insert_ne.
Qed.

Lemma SelectionPass_shards flags user accs sel st st' res :
  SelectionPass flags user accs sel st = (st', res) →
  (shardListsNoDup st → shardListsNoDup st') ∧
  (∀ shard x, x ∈ default [] (ConnectionShardHash st !! shard) →
              x ∈ default [] (ConnectionShardHash st' !! shard)) ∧
  (∀ sel', res = inr sel' →
     ∀ acc, acc ∈ accs → shardId (placement acc) ≠ INVALID_SHARD_ID →
            shardLinked st' (placement acc)).
Proof.
  revert sel st. induction accs as [|acc accs IH]; intros sel st.
  - intros [= <- <-]. split; [done|]. split; [done|].
    intros sel' _ acc Hin. by apply not_elem_of_nil in Hin.
  - rewrite SelectionPass_cons.
    destruct (shardId (placement acc) =? INVALID_SHARD_ID) eqn:Hdummy.
    + intros Hsel. destruct (IH _ _ Hsel) as (Hnd & Hgrow & Hlinked).
      split; [done|]. split; [done|].
      intros sel' -> acc' [->|Hin]%elem_of_cons Hreal.
      * by apply Z.eqb_eq in Hdummy.
      * by eapply Hlinked.
    + destruct (FindOrCreate_found (placement acc) st) as [e He].
      cbv zeta. rewrite He.
      pose proof (FindOrCreate_nodup (placement acc) st) as Hnd1.
      pose proof (FindOrCreate_members (placement acc) st) as Hgrow1.
      pose proof (FindOrCreate_linked (placement acc) st) as Hlinked1.
      destruct (CheckPlacementAccess _ _ _ _ _ _ _ _) as [err|[ch fd]].
      * intros [= <- <-]. split; [done|]. split; [done|]. done.
      * intros Hsel. destruct (IH _ _ Hsel) as (Hnd & Hgrow & Hlinked).
        split; [auto|]. split; [auto|].
        intros sel' -> acc' [->|Hin]%elem_of_cons Hreal.
        -- by apply Hgrow.
        -- by eapply Hlinked.
Qed.

(** X6.  Whatever its outcome, a call keeps the shard lists free of
    duplicates and removes nothing from them; after a call that returns a
    connection every placement of the list, the dummy apart, is on the list
    of its shard. *)
Theorem X6_shard_lists_after_call flags accs userName st st' res :
  StartPlacementListConnection flags accs userName st = (st', res) →
  (shardListsNoDup st → shardListsNoDup st') ∧
  (∀ shard x, x ∈ default [] (ConnectionShardHash st !! shard) →
              x ∈ default [] (ConnectionShardHash st' !! shard)) ∧
  (∀ c, res = inr c →
     ∀ acc, acc ∈ accs → shardId (placement acc) ≠ INVALID_SHARD_ID →
            shardLinked st' (placement acc)).
Proof.
  unfold StartPlacementListConnection.
  destruct (SelectionPass _ _ _ _ _) as [st1 [err1|sel]] eqn:Hsel;
    destruct (SelectionPass_shards _ _ _ _ _ _ _ Hsel) as (Hnd & Hgrow & Hlinked).
  - intros [= <- <-]. split; [done|]. split; [done|]. done.
  - assert (Hinst : ∀ c conns,
              ConnectionShardHash
                (InstallPass c (default CurrentUserName userName) accs
                   (placementEntryList sel)
                   (with_connections (λ _, conns) st1))
              = ConnectionShardHash st1).
    { intros c conns.
      by destruct (InstallPass_installs c (default CurrentUserName userName)
                     accs (placementEntryList sel)
                     (with_connections (λ _, conns) st1)) as (_ & _ & _ & _ & ->). }
    assert (Hgoal : ∀ c conns,
              (shardListsNoDup st →
               shardListsNoDup
                 (InstallPass c (default CurrentUserName userName) accs
                    (placementEntryList sel)
                    (with_connections (λ _, conns) st1))) ∧
              (∀ shard x, x ∈ default [] (ConnectionShardHash st !! shard) →
                 x ∈ default []
                       (ConnectionShardHash
                          (InstallPass c (default CurrentUserName userName) accs
                             (placementEntryList sel)
                             (with_connections (λ _, conns) st1)) !! shard)) ∧
              (∀ acc, acc ∈ accs →
                 shardId (placement acc) ≠ INVALID_SHARD_ID →
                 shardLinked
                   (InstallPass c (default CurrentUserName userName) accs
                      (placementEntryList sel)
                      (with_connections (λ _, conns) st1)) (placement acc))).
    { intros c conns. unfold shardListsNoDup, shardLinked.
      rewrite Hinst. split; [exact Hnd|]. split; [exact Hgrow|].
      intros acc Hin Hreal. by eapply Hlinked. }
    destruct (chosenConnection sel) as [c|].
    + intros [= <- <-]. rewrite <- (with_connections_same st1).
      destruct (Hgoal c (connections st1)) as (? & ? & ?).
      split; [done|]. split; [done|]. by intros ? _.
    + destruct accs as [|first rest].
      * intros [= <- <-]. split; [done|]. split; [done|]. done.
      * destruct (StartNodeConnection _ _ _ _) as [c conns].
        intros [= <- <-]. destruct (Hgoal c conns) as (? & ? & ?).
        split; [done|]. split; [done|]. by intros ? _.
Qed.

(** X7.  Whatever its outcome, a call keeps every entry of the placement
    hash and of the colocated hash, never changes the reference an entry
    points to, its colocated entry or its [failed] flag, and never clears
    hasSecondaryConnections. *)
Theorem X7_entries_are_kept flags accs userName st st' res :
  StartPlacementListConnection flags accs userName st = (st', res) →
  (∀ pid e, ConnectionPlacementHash st !! pid = Some e →
     ∃ e', ConnectionPlacementHash st' !! pid = Some e' ∧
           primaryConnection e' = primaryConnection e ∧
           colocatedEntry e' = colocatedEntry e ∧
           failed e' = failed e ∧
           (hasSecondaryConnections e = true →
            hasSecondaryConnections e' = true)) ∧
  (∀ key ce, ColocatedPlacementsHash st !! key = Some ce →
     ∃ ce', ColocatedPlacementsHash st' !! key = Some ce' ∧
            coPrimaryConnection ce' = coPrimaryConnection ce ∧
            (coHasSecondaryConnections ce = true →
             coHasSecondaryConnections ce' = true)).
Proof. intros Hstart. exact (Start_stable _ _ _ _ _ _ Hstart). Qed.

(** *** What the installation pass records *)

Lemma installedReference_keeps chosen user access r :
  connection r ≠ None →
  connection (installedReference chosen user access r) ≠ None ∧
  (hadDML r = true → hadDML (installedReference chosen user access r) = true) ∧
  (hadDDL r = true → hadDDL (installedReference chosen user access r) = true).
Proof.
  intros Hconn. unfold installedReference.
  destruct access; simpl; repeat case_bool_decide; simpl; try done;
    repeat split; auto; congruence.
Qed.

Lemma installedReference_records chosen user access r :
  connection (installedReference chosen user access r) ≠ None ∧
  (isDML access = true →
   hadDML (installedReference chosen user access r) = true) ∧
  (isDDL access = true →
   hadDDL (installedReference chosen user access r) = true).
Proof.
  unfold installedReference.
  destruct access; simpl; repeat case_bool_decide; simpl;
    repeat split; auto; congruence.
Qed.

Lemma keepsWrites_refl st : keepsWrites st st.
Proof. intros a Ha. repeat split; auto. Qed.

Lemma keepsWrites_trans st1 st2 st3 :
  keepsWrites st1 st2 → keepsWrites st2 st3 → keepsWrites st1 st3.
Proof.
  intros H1 H2 a Ha. destruct (H1 a Ha) as (Ha2 & Hm1 & Hd1).
  destruct (H2 a Ha2) as (Ha3 & Hm2 & Hd2). repeat split; auto.
Qed.

Lemma InstallStep_keepsWrites chosen user access pid st :
  keepsWrites st (InstallStep chosen user access pid st).
Proof.
  destruct (ConnectionPlacementHash st !! pid) as [e|] eqn:He;
    [|rewrite InstallStep_missing by done; apply keepsWrites_refl].
  intros a Ha. rewrite (deref_InstallStep _ _ _ _ _ e) by done.
  case_bool_decide as Heq; [|repeat split; auto].
  destruct Heq as [<- _]. by apply installedReference_keeps.
Qed.

Lemma InstallPass_keepsWrites chosen user accs entries st :
  keepsWrites st (InstallPass chosen user accs entries st).
Proof.
  revert entries st. induction accs as [|acc accs IH];
    intros [|pid entries] st; simpl; try apply keepsWrites_refl.
  eapply keepsWrites_trans; [apply InstallStep_keepsWrites|apply IH].
Qed.

(** X8.  Whatever its outcome, a call takes the connection from no
    reference and clears neither hadDML nor hadDDL of a reference that held
    a connection before the call. *)
Theorem X8_writes_are_not_forgotten flags accs userName st st' res :
  StartPlacementListConnection flags accs userName st = (st', res) →
  keepsWrites st st'.
Proof.
  intros Hstart. destruct res as [err|c].
  - destruct (Start_error_extends _ _ _ _ _ _ Hstart) as (Hd & _).
    intros a Ha. rewrite !Hd. repeat split; auto.
  - destruct (Start_success _ _ _ _ _ _ Hstart)
      as (st1 & sel & conns & Hsel & -> & _).
    destruct (SelectionPass_extends _ _ _ _ _ _ _ Hsel) as (Hd & _).
    eapply keepsWrites_trans; [|apply InstallPass_keepsWrites].
    intros a Ha. change (deref (with_connections (λ _, conns) st1) a)
      with (deref st1 a). rewrite Hd. repeat split; auto.
Qed.

Lemma InstallPass_recorded chosen user accs entries st i acc pid e :
  accs !! i = Some acc → entries !! i = Some pid →
  ConnectionPlacementHash st !! pid = Some e →
  (primaryConnection e < length (refs st))%nat →
  (isDML (accessType acc) = true →
   hadDML (deref (InstallPass chosen user accs entries st)
             (primaryConnection e)) = true) ∧
  (isDDL (accessType acc) = true →
   hadDDL (deref (InstallPass chosen user accs entries st)
             (primaryConnection e)) = true).
Proof.
  revert entries st i e.
  induction accs as [|acc0 accs IH]; intros [|pid0 entries] st i e; try done.
  destruct i as [|i]; simpl.
  - intros [= ->] [= ->] He Hlt.
    pose proof (InstallPass_keepsWrites chosen user accs entries
                  (InstallStep chosen user (accessType acc) pid st)
                  (primaryConnection e)) as Hkeep.
    rewrite (deref_InstallStep _ _ _ _ _ e) in Hkeep by done.
    rewrite bool_decide_eq_true_2 in Hkeep by done.
    destruct (installedReference_records chosen user (accessType acc)
                (deref st (primaryConnection e))) as (Hconn & Hm & Hd).
    destruct (Hkeep Hconn) as (_ & Hm' & Hd'). split; auto.
  - intros Hacc Hpid He Hlt.
    destruct (InstallStep_installs chosen user (accessType acc0) pid0 st)
      as (Hlen & _ & Hp & _).
    specialize (Hp pid). rewrite He in Hp.
    inversion Hp as [? e1 (Hprim & _) Heq1 Heq2|]. symmetry in Heq2.
    rewrite <- Hprim. eapply IH; eauto. by rewrite Hprim, Hlen.
Qed.

(** X9.  After a call that returns a connection, on a list without dummy
    placements, the reference of every placement accessed with DML has
    hadDML set and that of every placement accessed with DDL has hadDDL
    set. *)
Theorem X9_writes_are_recorded flags accs userName st st' chosen acc :
  validReferences st →
  realAccesses accs = accs →
  StartPlacementListConnection flags accs userName st = (st', inr chosen) →
  acc ∈ accs →
  ∃ e, ConnectionPlacementHash st' !! placementId (placement acc) = Some e ∧
       (accessType acc = PLACEMENT_ACCESS_DML →
        hadDML (deref st' (primaryConnection e)) = true) ∧
       (accessType acc = PLACEMENT_ACCESS_DDL →
        hadDDL (deref st' (primaryConnection e)) = true).
Proof.
  intros Hvalid Hreal Hstart Hin.
  destruct (Start_success _ _ _ _ _ _ Hstart)
    as (st1 & sel & conns & Hsel & -> & _).
  pose proof (SelectionPass_entries _ _ _ _ _ _ _ Hsel) as Hentries.
  simpl in Hentries. rewrite Hreal in Hentries.
  pose proof (SelectionPass_valid _ _ _ _ _ _ _ Hvalid Hsel) as [Hvalid1 _].
  pose proof (SelectionPass_inv _ _ _ _ _ _ _ (selection_inv_initial st) Hsel)
    as (Hfound & _).
  apply list_elem_of_lookup in Hin as [i Hi].
  assert (Hpid : placementEntryList sel !! i
                 = Some (placementId (placement acc))).
  { by rewrite Hentries,
      (list_lookup_fmap (λ a, placementId (placement a))), Hi. }
  assert (Hmem : placementId (placement acc) ∈ placementEntryList sel)
    by (apply list_elem_of_lookup; eauto).
  destruct (proj1 (Forall_forall _ _) Hfound _ Hmem) as [e1 He1].
  set (st2 := with_connections (λ _, conns) st1).
  destruct (InstallPass_recorded chosen (default CurrentUserName userName)
              accs (placementEntryList sel) st2 i acc _ e1 Hi Hpid He1
              (Hvalid1 _ _ He1)) as [Hm Hd].
  destruct (InstallPass_installs chosen (default CurrentUserName userName)
              accs (placementEntryList sel) st2) as (_ & _ & Hp & _).
  assert (He2 : ConnectionPlacementHash st2 !! placementId (placement acc)
                = Some e1) by exact He1.
  specialize (Hp (placementId (placement acc))). rewrite He2 in Hp.
  inversion Hp as [? e' (Hprim & _) Heq1 Heq2|]. exists e'.
  split; [done|]. rewrite Hprim.
  split; intros Hk; [apply Hm|apply Hd]; by rewrite Hk.
Qed.

(** *** Where the returned connection comes from *)

Lemma SelectionPass_candidate flags user accs st st' sel :
  SelectionPass flags user accs initialSelection st = (st', inr sel) →
  ∀ c, chosenConnection sel = Some c →
       ∃ a, connection (deref st a) = Some c ∧
            CanUseExistingConnection flags user st (deref st a) = true.
Proof.
  intros Hsel.
  assert (Hcur : ∀ c, chosenConnection sel = Some c →
            ∃ a, connection (deref st' a) = Some c ∧
                 CanUseExistingConnection flags user st' (deref st' a) = true).
  { revert Hsel.
    apply (SelectionPass_invariant
             (λ s st0, ∀ c, chosenConnection s = Some c →
                ∃ a, connection (deref st0 a) = Some c ∧
                     CanUseExistingConnection flags user st0 (deref st0 a)
                     = true)); [|done].
    clear. intros sel st acc e ch fd Hinv _ st1 He Hcheck c Hc.
    simpl in Hc. subst ch.
    destruct (FindOrCreate_extends (placement acc) st) as (Hd & _ & _ & _ & Hn).
    fold st1 in Hd, Hn.
    destruct (Check_result _ _ _ _ _ _ _ _ _ _ Hcheck)
      as [[Hch _]|(_ & Hch & _ & Hcan & _)].
    - destruct (Hinv c (eq_sym Hch)) as (a & Ha & Hcan).
      exists a. by rewrite Hd, (CanUse_connections _ _ _ _ _ Hn).
    - by exists (primaryConnection e). }
  destruct (SelectionPass_extends _ _ _ _ _ _ _ Hsel) as (Hd & _ & _ & _ & Hn).
  intros c Hc. destruct (Hcur c Hc) as (a & Ha & Hcan).
  exists a. by rewrite <- Hd, <- (CanUse_connections _ _ _ _ _ Hn).
Qed.

(** X10.  The connection a call returns is either the connection of a
    reference for which CanUseExistingConnection holds (not claimed
    exclusively, same user, no FORCE_NEW_CONNECTION), or the one the pool
    gives for the node of the first access of the list.  With
    FORCE_NEW_CONNECTION set it is always the pool's. *)
Theorem X10_returned_connection_origin flags accs userName st st' c :
  StartPlacementListConnection flags accs userName st = (st', inr c) →
  ((∃ a, connection (deref st a) = Some c ∧
         CanUseExistingConnection flags (default CurrentUserName userName) st
           (deref st a) = true) ∨
   (∃ first rest conns,
      accs = first :: rest ∧
      StartNodeConnection flags (nodeName (placement first))
        (nodePort (placement first)) (connections st) = (c, conns))) ∧
  (Z.land flags FORCE_NEW_CONNECTION ≠ 0 →
   ∃ first rest conns,
     accs = first :: rest ∧
     StartNodeConnection flags (nodeName (placement first))
       (nodePort (placement first)) (connections st) = (c, conns)).
Proof.
  intros Hstart.
  destruct (Start_success _ _ _ _ _ _ Hstart)
    as (st1 & sel & conns & Hsel & _ & Hchosen).
  destruct (SelectionPass_extends _ _ _ _ _ _ _ Hsel) as (_ & _ & _ & _ & Hn).
  rewrite Hn in Hchosen.
  assert (Hor : (∃ a, connection (deref st a) = Some c ∧
                   CanUseExistingConnection flags
                     (default CurrentUserName userName) st (deref st a) = true) ∨
                (∃ first rest conns,
                   accs = first :: rest ∧
                   StartNodeConnection flags (nodeName (placement first))
                     (nodePort (placement first)) (connections st) = (c, conns))).
  { destruct Hchosen as [[Hc _]|(_ & first & rest & -> & Hpool)].
    - left. by eapply SelectionPass_candidate.
    - right. by exists first, rest, conns. }
  split; [exact Hor|]. intros Hforce.
  destruct Hor as [(a & Ha & Hcan)|Hpool]; [|done].
  unfold CanUseExistingConnection in Hcan. rewrite Ha in Hcan.
  destruct (claimedExclusively _); [done|].
  apply Z.eqb_neq in Hforce. by rewrite Hforce in Hcan.
Qed.

(** *** States without connections *)

Lemma deref_beyond st a :
  (length (refs st) ≤ a)%nat → deref st a = zeroReference.
Proof. intros Hge. unfold deref. by rewrite lookup_ge_None_2. Qed.

Lemma FindOrCreate_unconnected p st :
  unconnected st → unconnected (FindOrCreatePlacementEntry p st).2.
Proof.
  intros [HP HC].
  destruct (FindOrCreate_extends p st) as (Hd & _).
  destruct (ConnectionPlacementHash st !! placementId p) as [e|] eqn:He.
  - destruct (FindOrCreate_present _ _ _ He) as (_ & Hp & Hc).
    split; intros ? ?; rewrite ?Hp, ?Hc, Hd; eauto.
  - destruct (FindOrCreate_absent _ _ He) as (conRef & Hp & Hrest).
    assert (connection (deref st conRef) = None ∧
            ∀ key ce,
              ColocatedPlacementsHash (FindOrCreatePlacementEntry p st).2
                !! key = Some ce →
              connection (deref st (coPrimaryConnection ce)) = None)
      as [Hcon HC'].
    { destruct (isColocating _);
        [destruct (ColocatedPlacementsHash st !! ColocatedKey p) as [ce|] eqn:Hce|];
        destruct Hrest as (-> & _ & ->).
      - split; [by eapply HC|]. intros; eauto.
      - rewrite deref_beyond by done. split; [done|].
        intros key ce [[<- <-]|[_ Hce']]%lookup_insert_Some; simpl; eauto.
        by rewrite deref_beyond.
      - rewrite deref_beyond by done. split; [done|]. intros; eauto. }
    split.
    + intros pid e'. rewrite Hp, Hd.
      intros [[<- <-]|[_ He']]%lookup_insert_Some; simpl; eauto.
    + intros key ce Hce. rewrite Hd. by eapply HC'.
Qed.

Lemma Check_unconnected flags user st pid access e chosen found :
  connection (deref st (primaryConnection e)) = None →
  CheckPlacementAccess flags user st pid access e chosen found
  = inr (chosen, found).
Proof.
  unfold CheckPlacementAccess. intros ->. by rewrite bool_decide_eq_true_2.
Qed.

Lemma SelectionPass_unconnected flags user accs sel st :
  unconnected st →
  ∃ st1 entries,
    SelectionPass flags user accs sel st
    = (st1, inr {| chosenConnection := chosenConnection sel;
                   foundModifyingConnection := foundModifyingConnection sel;
                   placementEntryList := entries |}) ∧
    unconnected st1.
Proof.
  revert sel st. induction accs as [|acc accs IH]; intros sel st Hun.
  - exists st, (placementEntryList sel). by destruct sel.
  - rewrite SelectionPass_cons.
    destruct (shardId (placement acc) =? INVALID_SHARD_ID); [by apply IH|].
    destruct (FindOrCreate_found (placement acc) st) as [e He].
    pose proof (FindOrCreate_unconnected (placement acc) st Hun) as Hun1.
    cbv zeta. rewrite He.
    rewrite Check_unconnected by (by eapply (proj1 Hun1)).
    by apply (IH {| chosenConnection := chosenConnection sel;
                    foundModifyingConnection := foundModifyingConnection sel;
                    placementEntryList :=
                      placementEntryList sel ++ [placementId (placement acc)] |}).
Qed.

(** In a state without connections a call on a non-empty list raises no
    error and returns the connection the pool gives for the node of the
    first access; every placement of the list, the dummy apart, ends with
    that connection in its reference. *)
Lemma Start_unconnected flags first rest userName st c conns :
  unconnected st →
  StartNodeConnection flags (nodeName (placement first))
    (nodePort (placement first)) (connections st) = (c, conns) →
  ∃ st',
    StartPlacementListConnection flags (first :: rest) userName st
    = (st', inr c) ∧
    (validReferences st →
     ∀ acc, acc ∈ first :: rest →
       shardId (placement acc) ≠ INVALID_SHARD_ID →
       ∃ e, ConnectionPlacementHash st' !! placementId (placement acc)
              = Some e ∧
            connection (deref st' (primaryConnection e)) = Some c).
Proof.
  intros Hun Hpool.
  destruct (SelectionPass_unconnected flags (default CurrentUserName userName)
              (first :: rest) initialSelection st Hun)
    as (st1 & entries & Hsel & Hun1).
  destruct (SelectionPass_extends _ _ _ _ _ _ _ Hsel) as (_ & _ & _ & _ & Hn).
  eexists. split.
  - unfold StartPlacementListConnection. rewrite Hsel. simpl.
    rewrite Hn, Hpool. reflexivity.
  - intros Hvalid acc Hin Hreal.
    set (user := default CurrentUserName userName) in *.
    set (st2 := with_connections (λ _, conns) st1).
    pose proof (SelectionPass_entries _ _ _ _ _ _ _ Hsel) as Hentries.
    simpl in Hentries.
    pose proof (SelectionPass_valid _ _ _ _ _ _ _ Hvalid Hsel) as [Hvalid1 _].
    pose proof (SelectionPass_inv _ _ _ _ _ _ _ (selection_inv_initial st) Hsel)
      as (Hfound & _). simpl in Hfound.
    assert (Hpid : placementId (placement acc) ∈ entries).
    { rewrite Hentries.
      apply (list_elem_of_fmap_2 (λ a, placementId (placement a))).
      by apply list_elem_of_filter. }
    pose proof Hpid as Hpid'.
    apply list_elem_of_lookup in Hpid' as [i Hi].
    assert (is_Some ((first :: rest) !! i)) as [acc0 Hacc0].
    { apply lookup_lt_is_Some. apply lookup_lt_Some in Hi.
      rewrite Hentries, length_map in Hi.
      pose proof (length_filter
        (λ acc, shardId (placement acc) ≠ INVALID_SHARD_ID) (first :: rest)).
      unfold realAccesses in Hi. lia. }
    destruct (proj1 (Forall_forall _ _) Hfound _ Hpid) as [e1 He1].
    destruct (InstallPass_visited c user (first :: rest) entries st2 i acc0 _
                e1 Hacc0 Hi He1 (Hvalid1 _ _ He1))
      as (e' & He' & Hprim & Hconn & _).
    exists e'. split; [done|]. rewrite Hprim.
    destruct Hconn as [?|(_ & c' & Hc' & Hne)]; [done|].
    destruct (InstallPass_installs c user (first :: rest) entries st2)
      as (_ & Hmono & _).
    destruct (Hmono (primaryConnection e1)) as [Hsame|Hnew]; [|congruence].
    rewrite Hc' in Hsame.
    change (deref st2 (primaryConnection e1))
      with (deref st1 (primaryConnection e1)) in Hsame.
    by rewrite (proj1 Hun1 _ _ He1) in Hsame.
Qed.

(** X11.  In a state in which no reference reachable from the hashes holds
    a connection (a new transaction, or one whose connections were all
    closed), a call on a non-empty list never raises an error: it returns
    the connection the pool gives for the node of the first access, and
    every placement of the list, the dummy apart, ends with that connection
    in its reference. *)
Theorem X11_first_acquire_uses_pool flags first rest userName st c conns :
  unconnected st →
  StartNodeConnection flags (nodeName (placement first))
    (nodePort (placement first)) (connections st) = (c, conns) →
  ∃ st',
    StartPlacementListConnection flags (first :: rest) userName st
    = (st', inr c) ∧
    (validReferences st →
     ∀ acc, acc ∈ first :: rest →
       shardId (placement acc) ≠ INVALID_SHARD_ID →
       ∃ e, ConnectionPlacementHash st' !! placementId (placement acc)
              = Some e ∧
            connection (deref st' (primaryConnection e)) = Some c).
Proof. apply Start_unconnected. Qed.

(** X12.  After ResetPlacementConnectionManagement nothing of the ended
    transaction is reused: the hashes are empty, and the next call on a
    non-empty list raises no error and returns the connection the pool
    gives for the node of its first access. *)
Theorem X12_reset_forgets_connections flags first rest userName st c conns :
  StartNodeConnection flags (nodeName (placement first))
    (nodePort (placement first)) (connections st) = (c, conns) →
  ConnectionPlacementHash (ResetPlacementConnectionManagement st) = ∅ ∧
  ColocatedPlacementsHash (ResetPlacementConnectionManagement st) = ∅ ∧
  ConnectionShardHash (ResetPlacementConnectionManagement st) = ∅ ∧
  ∃ st',
    StartPlacementListConnection flags (first :: rest) userName
      (ResetPlacementConnectionManagement st) = (st', inr c).
Proof.
  intros Hpool. repeat (split; [done|]).
  destruct (Start_unconnected flags first rest userName
              (ResetPlacementConnectionManagement st) c conns)
    as (st' & Hstart & _); [|exact Hpool|by exists st'].
  split; intros ? ?; simpl; by rewrite lookup_empty.
Qed.

(** *** Dummy placements *)

(** X13.  A call on a list that consists of accesses to the dummy placement
    only looks nothing up and writes nothing: it returns the connection the
    pool gives for the node of the first access and leaves the hashes and
    the references as they were. *)
Theorem X13_dummy_only_list flags first rest userName st c conns :
  realAccesses (first :: rest) = [] →
  StartNodeConnection flags (nodeName (placement first))
    (nodePort (placement first)) (connections st) = (c, conns) →
  StartPlacementListConnection flags (first :: rest) userName st
  = (with_connections (λ _, conns) st, inr c).
Proof.
  intros Hreal Hpool. unfold StartPlacementListConnection.
  rewrite SelectionPass_realAccesses, Hreal. simpl. by rewrite Hpool.
Qed.

(** X14.  The errors of a call do not depend on the accesses to the dummy
    placement: on a list with at least one other access, the call raises an
    error exactly when the call on the list without the dummy accesses
    does, and then with the same error and the same state. *)
Theorem X14_errors_ignore_dummy_accesses flags accs userName st st' err :
  realAccesses accs ≠ [] →
  StartPlacementListConnection flags accs userName st = (st', inl err)
  ↔ StartPlacementListConnection flags (realAccesses accs) userName st
    = (st', inl err).
Proof.
  intros Hreal.
  assert (Hne : accs ≠ []) by (by intros ->).
  split; intros Hstart.
  - apply Start_selection_error.
    rewrite <- SelectionPass_realAccesses. by apply Start_failure.
  - apply Start_selection_error.
    rewrite SelectionPass_realAccesses. by apply Start_failure.
Qed.

(** *** One access *)

Lemma connected_valid st a c :
  connection (deref st a) = Some c → (a < length (refs st))%nat.
Proof.
  intros Hc. destruct (decide (a < length (refs st))%nat) as [|Hge]; [done|].
  by rewrite deref_beyond in Hc by lia.
Qed.

Lemma InstallStep_connections chosen user access pid st e :
  ConnectionPlacementHash st !! pid = Some e →
  connections (InstallStep chosen user access pid st) =
  if bool_decide (connection (deref st (primaryConnection e)) = None)
  then <[chosen := push_referencedPlacement (primaryConnection e)
                     (getConnection (connections st) chosen)]> (connections st)
  else connections st.
Proof.
  intros He. unfold InstallStep. rewrite He.
  destruct access; simpl; repeat case_bool_decide; simpl;
    try destruct (colocatedEntry e); try done; congruence.
Qed.

(** X20.  A single access to a placement whose reference holds a connection
    that CanUseExistingConnection accepts returns that connection, unless
    it is a DDL on a placement read over several connections.  The pool is
    not asked, no entry changes, and the reference keeps its connection and
    user and gets the flag of the access. *)
Theorem X20_single_access_reuses flags p k uname st e c :
  shardId p ≠ INVALID_SHARD_ID →
  ConnectionPlacementHash st !! placementId p = Some e →
  connection (deref st (primaryConnection e)) = Some c →
  CanUseExistingConnection flags (default CurrentUserName uname) st
    (deref st (primaryConnection e)) = true →
  (k = PLACEMENT_ACCESS_DDL →
   hasSecondaryConnections e = false ∧
   ∀ key ce, colocatedEntry e = Some key →
             ColocatedPlacementsHash st !! key = Some ce →
             coHasSecondaryConnections ce = false) →
  ∃ st',
    StartPlacementListConnection flags [{| placement := p; accessType := k |}]
      uname st = (st', inr c) ∧
    connections st' = connections st ∧
    ConnectionPlacementHash st' = ConnectionPlacementHash st ∧
    ColocatedPlacementsHash st' = ColocatedPlacementsHash st ∧
    connection (deref st' (primaryConnection e)) = Some c ∧
    userName (deref st' (primaryConnection e))
      = userName (deref st (primaryConnection e)) ∧
    hadDML (deref st' (primaryConnection e))
      = hadDML (deref st (primaryConnection e)) || isDML k ∧
    hadDDL (deref st' (primaryConnection e))
      = hadDDL (deref st (primaryConnection e)) || isDDL k.
Proof.
  intros Hreal He Hc Hcan Hddl.
  set (user := default CurrentUserName uname) in *.
  destruct (FindOrCreate_present _ _ _ He) as (Hr & Hp & Hci).
  destruct (FindOrCreate_extends p st) as (Hd & _ & _ & _ & Hn).
  set (st1 := (FindOrCreatePlacementEntry p st).2) in *.
  assert (He1 : ConnectionPlacementHash st1 !! placementId p = Some e)
    by (by rewrite Hp).
  assert (Hcheck : CheckPlacementAccess flags user st1 (placementId p) k e
                     None false
                   = inr (Some c, modified (deref st (primaryConnection e)))).
  { unfold CheckPlacementAccess.
    rewrite Hd, (CanUse_connections _ _ _ _ _ Hn), Hcan, Hc, Hci.
    rewrite bool_decide_eq_false_2 by done. unfold modified.
    destruct k; simpl; try by destruct (_ || _).
    destruct (Hddl eq_refl) as [-> Hco]. simpl.
    destruct (colocatedEntry e) as [key|]; [|by destruct (_ || _)].
    destruct (ColocatedPlacementsHash st !! key) as [ce|] eqn:Hce;
      [|by destruct (_ || _)].
    rewrite (Hco key ce eq_refl Hce). by destruct (_ || _). }
  eexists. split.
  - unfold StartPlacementListConnection. fold user.
    rewrite SelectionPass_cons. cbn [placement accessType].
    rewrite (proj2 (Z.eqb_neq _ _) Hreal). cbv zeta. fold st1.
    rewrite He1. cbn [chosenConnection foundModifyingConnection initialSelection].
    rewrite Hcheck. cbn [SelectionPass chosenConnection placementEntryList
                         initialSelection app InstallPass accessType].
    reflexivity.
  - assert (Hlt : (primaryConnection e < length (refs st1))%nat).
    { apply (connected_valid st1 _ c). by rewrite Hd. }
    rewrite (InstallStep_connections _ _ _ _ _ e),
      (InstallStep_placements _ _ _ _ _ e),
      (InstallStep_colocated _ _ _ _ _ e),
      (deref_InstallStep _ _ _ _ _ e) by done.
    unfold holdsOtherConnection, installedReference. rewrite !Hd, !Hc.
    rewrite (bool_decide_eq_false_2 (Some c = None)) by done.
    rewrite (bool_decide_eq_true_2 (Some c = Some c)) by done.
    rewrite (bool_decide_eq_true_2 (_ ∧ _)) by done.
    simpl. split; [done|]. split; [done|].
    split; [by destruct (colocatedEntry e)|].
    destruct k; simpl; rewrite ?orb_false_r, ?orb_true_r; done.
Qed.

Lemma single_access_error flags p k uname st st' err :
  k ≠ PLACEMENT_ACCESS_DDL →
  StartPlacementListConnection flags [{| placement := p; accessType := k |}]
    uname st = (st', inl err) →
  ∃ e,
    ConnectionPlacementHash st' !! placementId p = Some e ∧
    connection (deref st (primaryConnection e)) ≠ None ∧
    CanUseExistingConnection flags (default CurrentUserName uname) st
      (deref st (primaryConnection e)) = false ∧
    err = (if hadDDL (deref st (primaryConnection e))
           then NewConnOverDdl (placementId p)
           else NewConnOverDml (placementId p)) ∧
    modified (deref st (primaryConnection e)) = true.
Proof.
  intros Hk Hstart.
  apply Start_failure in Hstart; [|done].
  rewrite SelectionPass_cons in Hstart. cbn [placement accessType] in Hstart.
  destruct (shardId p =? INVALID_SHARD_ID); [done|].
  destruct (FindOrCreate_found p st) as [e He].
  destruct (FindOrCreate_extends p st) as (Hd & _ & _ & _ & Hn).
  cbv zeta in Hstart. rewrite He in Hstart.
  destruct (CheckPlacementAccess _ _ _ _ _ _ _ _) as [err1|[ch fd]] eqn:Hcheck;
    [|done].
  injection Hstart as <- <-. exists e. split; [done|].
  revert Hcheck. unfold CheckPlacementAccess, modified.
  rewrite Hd, (CanUse_connections _ _ _ _ _ Hn).
  cbn [chosenConnection foundModifyingConnection initialSelection].
  case_bool_decide as Hconn; [done|].
  destruct k; try done; simpl;
    destruct (CanUseExistingConnection _ _ _ _); try done;
    destruct (hadDDL _), (hadDML _); try done;
    intros [= <-]; done.
Qed.

End MoreFacts.

Section SinglePlacementFacts.

Context {ext : Externals} {bits : AccessFlags}.

(** X21.  StartPlacementConnection without the FOR_DDL bit raises an error
    only for a placement whose reference recorded DDL or DML over a
    connection that CanUseExistingConnection rejects; the error is the one
    about a new connection over DDL, or over DML when no DDL was
    recorded. *)
Theorem X21_read_or_dml_on_one_placement flags p uname st st' err :
  Z.land flags FOR_DDL = 0 →
  StartPlacementConnection flags p uname st = (st', inl err) →
  ∃ e,
    ConnectionPlacementHash st' !! placementId p = Some e ∧
    connection (deref st (primaryConnection e)) ≠ None ∧
    CanUseExistingConnection flags (default CurrentUserName uname) st
      (deref st (primaryConnection e)) = false ∧
    err = (if hadDDL (deref st (primaryConnection e))
           then NewConnOverDdl (placementId p)
           else NewConnOverDml (placementId p)) ∧
    modified (deref st (primaryConnection e)) = true.
Proof.
  unfold StartPlacementConnection. intros -> Hstart.
  eapply single_access_error; [|exact Hstart].
  by destruct (negb (Z.land flags FOR_DML =? 0)).
Qed.

End SinglePlacementFacts.

Section HashCompareFacts.

Variable MAX_NODE_LENGTH : nat.

Lemma strncmp_equal_refl n a : strncmp_equal n a a = true.
Proof.
  revert a. induction n as [|n IH]; intros [|x a]; simpl; try done.
  by rewrite Ascii.eqb_refl.
Qed.

Lemma strncmp_equal_eq n a b :
  (String.length a < n)%nat → strncmp_equal n a b = true → a = b.
Proof.
  revert a b. induction n as [|n IH]; intros a b Hlen; [lia|].
  destruct a as [|x a], b as [|y b]; simpl in *; try done.
  destruct (Ascii.eqb x y) eqn:Hxy; [|done].
  apply Ascii.eqb_eq in Hxy as ->. intros Heq.
  f_equal. apply IH; [lia|done].
Qed.

(** X23.  ColocatedPlacementsHashCompare returns 0 or 1, and for a key
    whose node name fits the nodeName buffer with its terminator it returns
    0 exactly for the equal key: the colocated hash is keyed by node name,
    port, colocation group and representative value. *)
Theorem X23_colocated_keys_compare (ca cb : ColocatedPlacementsHashKey) :
  (String.length ca.1.1.1 < MAX_NODE_LENGTH)%nat →
  (ColocatedPlacementsHashCompare MAX_NODE_LENGTH ca cb = 0 ↔ ca = cb) ∧
  (ColocatedPlacementsHashCompare MAX_NODE_LENGTH ca cb = 0 ∨
   ColocatedPlacementsHashCompare MAX_NODE_LENGTH ca cb = 1).
Proof.
  destruct ca as [[[nameA portA] groupA] valueA],
           cb as [[[nameB portB] groupB] valueB].
  cbn [fst]. intros Hlen. unfold ColocatedPlacementsHashCompare.
  split; [|by destruct (_ || _); auto].
  split.
  - destruct (strncmp_equal _ nameA nameB) eqn:Hname; [|done].
    destruct (portA =? portB) eqn:Hport; [|done].
    destruct (groupA =? groupB) eqn:Hgroup; [|done].
    destruct (valueA =? valueB) eqn:Hvalue; [|done].
    intros _. apply strncmp_equal_eq in Hname; [|done].
    apply Z.eqb_eq in Hport, Hgroup, Hvalue. congruence.
  - intros [= <- <- <- <-]. by rewrite strncmp_equal_refl, !Z.eqb_refl.
Qed.

End HashCompareFacts.

(** ** Further properties of closure and of the commit-time checks *)

Section MoreCommitFacts.

Context {walk : HashSeqSearch}.

Lemma filter_none {A} (f : A → bool) (l : list A) :
  (∀ x, x ∈ l → f x = false) → List.filter f l = [].
Proof.
  induction l as [|x l IH]; intros Hall; [done|]. simpl.
  rewrite (Hall x (list_elem_of_here _ _)). apply IH.
  intros y Hy. apply Hall. by apply list_elem_of_further.
Qed.

(** *** Connection closure *)

Lemma Close_tables c st :
  ConnectionPlacementHash (CloseShardPlacementAssociation c st)
    = ConnectionPlacementHash st ∧
  ColocatedPlacementsHash (CloseShardPlacementAssociation c st)
    = ColocatedPlacementsHash st ∧
  ConnectionShardHash (CloseShardPlacementAssociation c st)
    = ConnectionShardHash st ∧
  connections (CloseShardPlacementAssociation c st) = connections st.
Proof.
  unfold CloseShardPlacementAssociation.
  generalize (referencedPlacements (getConnection (connections st) c)).
  intros l. revert st. induction l as [|a l IH]; intros st; [done|].
  cbn [foldl]. by destruct (IH (store a (set_connection None (deref st a)) st))
    as (-> & -> & -> & ->).
Qed.

(** X15.  CloseShardPlacementAssociation takes the connection from every
    reference on the connection's list and changes nothing else: the user
    name and the DDL and DML flags of every reference stay, references that
    are not on the list stay as they are, and so do the hashes and the
    connections. *)
Theorem X15_close_keeps_history c st a :
  let st' := CloseShardPlacementAssociation c st in
  hadDML (deref st' a) = hadDML (deref st a) ∧
  hadDDL (deref st' a) = hadDDL (deref st a) ∧
  userName (deref st' a) = userName (deref st a) ∧
  (a ∈ referencedPlacements (getConnection (connections st) c) →
   connection (deref st' a) = None) ∧
  (a ∉ referencedPlacements (getConnection (connections st) c) →
   deref st' a = deref st a) ∧
  ConnectionPlacementHash st' = ConnectionPlacementHash st ∧
  ColocatedPlacementsHash st' = ColocatedPlacementsHash st ∧
  ConnectionShardHash st' = ConnectionShardHash st ∧
  connections st' = connections st.
Proof.
  intros st'. unfold st'. rewrite !Close_references.
  destruct (Close_tables c st) as (Hp & Hc & Hs & Hn).
  case_bool_decide as Hin.
  - do 3 (split; [done|]). split; [done|]. split; [|done].
    intros Hnot. by destruct Hin.
  - do 3 (split; [done|]). split; [|done]. intros Hmem.
    destruct (decide (a < length (refs st))%nat) as [Hlt|Hge]; [tauto|].
    by rewrite deref_beyond by lia.
Qed.

Lemma Close_failure c st pid e :
  ConnectionPlacementHash st !! pid = Some e →
  primaryConnection e ∈ referencedPlacements (getConnection (connections st) c) →
  (primaryConnection e < length (refs st))%nat →
  placementModified (CloseShardPlacementAssociation c st) pid
    = modified (deref st (primaryConnection e)) ∧
  connectionLost (CloseShardPlacementAssociation c st) pid = true.
Proof.
  intros He Hin Hlt. unfold placementModified, connectionLost.
  destruct (Close_tables c st) as (-> & _).
  rewrite He, Close_references, bool_decide_eq_true_2 by done. done.
Qed.

(** X16.  When every modified placement of a shard has its reference on
    the list of one connection and there is such a placement, closing that
    connection makes CheckShardPlacements give the shard up: it returns
    false and leaves the catalog alone. *)
Theorem X16_closed_writer_fails_shard c st shard cat :
  (∀ pid e, pid ∈ default [] (ConnectionShardHash st !! shard) →
     ConnectionPlacementHash st !! pid = Some e →
     modified (deref st (primaryConnection e)) = true →
     primaryConnection e
       ∈ referencedPlacements (getConnection (connections st) c)
     ∧ (primaryConnection e < length (refs st))%nat) →
  (∃ pid, pid ∈ default [] (ConnectionShardHash st !! shard)
          ∧ placementModified st pid = true) →
  ∃ st1,
    CheckShardPlacements shard (CloseShardPlacementAssociation c st) cat
    = (st1, cat, false).
Proof.
  intros Hall (pid0 & Hin0 & Hmod0).
  set (st' := CloseShardPlacementAssociation c st).
  destruct (Close_tables c st) as (Hp & _ & Hs & _). fold st' in Hp, Hs.
  assert (Hcls : ∀ pid, pid ∈ default [] (ConnectionShardHash st !! shard) →
            isFailure st' pid = placementModified st pid
            ∧ isSuccess st' pid = false).
  { intros pid Hin. unfold isFailure, isSuccess.
    destruct (ConnectionPlacementHash st !! pid) as [e|] eqn:He.
    - destruct (modified (deref st (primaryConnection e))) eqn:Hmod.
      + destruct (Hall pid e Hin He Hmod) as [Hlist Hlt].
        destruct (Close_failure c st pid e He Hlist Hlt) as [Hm Hl].
        fold st' in Hm, Hl. rewrite Hm, Hl, Hmod.
        unfold placementModified. by rewrite He, Hmod.
      + assert (placementModified st' pid = false) as ->.
        { unfold placementModified, modified. rewrite Hp, He.
          unfold st'. rewrite Close_references.
          by case_bool_decide. }
        unfold placementModified. by rewrite He, Hmod.
    - unfold placementModified. by rewrite Hp, He. }
  unfold CheckShardPlacements. rewrite Hs.
  destruct (Classify_members (default [] (ConnectionShardHash st !! shard))
              st' 0 0) as (st1 & -> & _).
  exists st1. simpl.
  assert (Hsucc : List.filter (isSuccess st')
                    (default [] (ConnectionShardHash st !! shard)) = []).
  { apply filter_none. intros pid Hin. by apply Hcls. }
  assert (Hfail : (0 < length (List.filter (isFailure st')
                     (default [] (ConnectionShardHash st !! shard))))%nat).
  { assert (In pid0 (List.filter (isFailure st')
                       (default [] (ConnectionShardHash st !! shard)))) as Hin.
    { apply filter_In. split; [by apply list_elem_of_In|].
      by rewrite (proj1 (Hcls pid0 Hin0)). }
    revert Hin. generalize (List.filter (isFailure st')
                              (default [] (ConnectionShardHash st !! shard))).
    intros [|? ?] Hin; [destruct Hin|simpl; lia]. }
  rewrite Hsucc. apply Nat.ltb_lt in Hfail. by rewrite Hfail.
Qed.

(** *** The loops over the shard hash *)

Lemma sameButFailed_refl st : sameButFailed st st.
Proof.
  repeat split; auto. intros pid.
  destruct (ConnectionPlacementHash st !! pid); by constructor.
Qed.

Lemma commitStep_refl st cat : commitStep st cat st cat.
Proof.
  split; [apply sameButFailed_refl|]. split; [done|]. intros pid. by left.
Qed.

Lemma commitStep_trans st1 cat1 st2 cat2 st3 cat3 :
  commitStep st1 cat1 st2 cat2 → commitStep st2 cat2 st3 cat3 →
  commitStep st1 cat1 st3 cat3.
Proof.
  intros (Hs1 & Hf1 & Hc1) (Hs2 & Hf2 & Hc2).
  split; [by eapply sameButFailed_trans|]. split; [auto|].
  intros pid. destruct (Hc1 pid) as [H1|[H1 H1']], (Hc2 pid) as [H2|[H2 H2']].
  - left. congruence.
  - right. split; congruence.
  - right. split; congruence.
  - congruence.
Qed.

Lemma shardFailed_sameButFailed st st' shard :
  sameButFailed st st' → shardFailed st' shard = shardFailed st shard.
Proof.
  intros Hsame. unfold shardFailed.
  pose proof Hsame as (_ & _ & _ & -> & _).
  rewrite (filter_ext (isFailure st') (isFailure st)),
    (filter_ext (isSuccess st') (isSuccess st)); [done|..];
    intros pid; unfold isFailure, isSuccess;
    by destruct (sameButFailed_classification st st' pid Hsame) as [-> ->].
Qed.

(** CheckShardPlacements returns false exactly for a failed shard, and does
    no more than setting [failed] flags and invalidating catalog rows. *)
Lemma Check_spec shard st cat :
  ∃ st1 cat1,
    CheckShardPlacements shard st cat
    = (st1, cat1, negb (shardFailed st shard)) ∧
    commitStep st cat st1 cat1.
Proof.
  unfold CheckShardPlacements, shardFailed.
  destruct (Classify_members (default [] (ConnectionShardHash st !! shard))
              st 0 0) as (st1 & -> & Hsame & Hp).
  cbn [Nat.add].
  assert (Hflag : ∀ pid, failedFlag st pid = true → failedFlag st1 pid = true).
  { intros pid. unfold failedFlag. rewrite Hp, lookup_markFailures.
    destruct (ConnectionPlacementHash st !! pid) as [e|]; [simpl|done].
    by case_match. }
  destruct (_ && _).
  - eexists _, _. split; [done|]. split; [done|]. split; [done|].
    intros pid. by left.
  - eexists _, _. split; [done|]. split; [done|]. split; [done|].
    intros pid. rewrite Invalidate_members.
    destruct (bool_decide (pid ∈ _) && failedFlag st1 pid); simpl; [|by left].
    case_bool_decide; [by right|by left].
Qed.

Lemma elem_of_shardIds st shard :
  shard ∈ shardIds st ↔ is_Some (ConnectionShardHash st !! shard).
Proof. apply hash_seq_search_elem. Qed.

Lemma MarkFailedLoop_spec shards st cat st' cat' err :
  MarkFailedLoop shards st cat = (st', cat', err) →
  commitStep st cat st' cat' ∧
  match err with
  | None => ∀ shard, shard ∈ shards → shardFailed st shard = false
  | Some e => ∃ shard, e = ShardAllPlacementsFailed shard ∧
                       shard ∈ shards ∧ shardFailed st shard = true
  end.
Proof.
  revert st cat. induction shards as [|shard shards IH]; intros st cat.
  - intros [= <- <- <-]. split; [apply commitStep_refl|].
    intros shard Hin. by apply not_elem_of_nil in Hin.
  - cbn [MarkFailedLoop].
    destruct (Check_spec shard st cat) as (st1 & cat1 & -> & Hstep).
    destruct (shardFailed st shard) eqn:Hfailed; simpl.
    + intros [= <- <- <-]. split; [done|]. exists shard.
      split; [done|]. split; [apply list_elem_of_here|done].
    + intros Hloop. destruct (IH _ _ Hloop) as [Hstep' Herr].
      split; [by eapply commitStep_trans|].
      destruct Hstep as (Hsame & _).
      destruct err as [e|].
      * destruct Herr as (s & -> & Hin & Hs). exists s. split; [done|].
        split; [by apply list_elem_of_further|].
        by rewrite <- (shardFailed_sameButFailed st st1).
      * intros s [->|Hin]%elem_of_cons; [done|].
        rewrite <- (shardFailed_sameButFailed st st1) by done. by apply Herr.
Qed.

(** X17.  MarkFailedShardPlacements raises its error exactly when some
    shard of the shard hash has modified placements that all failed, and
    the error names such a shard.  Whatever it returns, it has only set
    [failed] flags and moved catalog rows from FILE_FINALIZED to
    FILE_INACTIVE: references, connections, the colocated hash and the
    shard hash are as before. *)
Theorem X17_mark_failed_shard_placements st cat st' cat' err :
  MarkFailedShardPlacements st cat = (st', cat', err) →
  commitStep st cat st' cat' ∧
  (err = None ↔
   ∀ shard, is_Some (ConnectionShardHash st !! shard) →
            shardFailed st shard = false) ∧
  (∀ e, err = Some e →
     ∃ shard, e = ShardAllPlacementsFailed shard ∧
              is_Some (ConnectionShardHash st !! shard) ∧
              shardFailed st shard = true).
Proof.
  unfold MarkFailedShardPlacements. fold (shardIds st). intros Hloop.
  destruct (MarkFailedLoop_spec _ _ _ _ _ _ Hloop) as [Hstep Herr].
  split; [done|]. destruct err as [e|].
  - destruct Herr as (shard & -> & Hin%elem_of_shardIds & Hfailed).
    split; [split; [done|]|].
    + intros Hall. rewrite Hall in Hfailed; done.
    + intros e [= <-]. by exists shard.
  - split; [|done]. split; [|done]. intros _ shard Hin.
    by apply Herr, elem_of_shardIds.
Qed.

Lemma filter_length_zero {A} (f : A → bool) (l : list A) :
  length (List.filter f l) = 0%nat ↔ ∀ x, x ∈ l → f x = false.
Proof.
  induction l as [|x l IH]; simpl.
  - split; [|done]. intros _ x Hx. by apply not_elem_of_nil in Hx.
  - destruct (f x) eqn:Hfx; simpl.
    + split; [done|]. intros Hall.
      by rewrite (Hall x (list_elem_of_here _ _)) in Hfx.
    + rewrite IH. split.
      * intros Hall y [->|Hy]%elem_of_cons; auto.
      * intros Hall y Hy. apply Hall. by apply list_elem_of_further.
Qed.

Lemma PostCommitLoop_warning shards attempts successes warnings st cat :
  ∃ st' cat',
    PostCommitLoop false shards attempts successes warnings st cat
    = (st', cat',
       warnings ++ map ShardCommitFailed (List.filter (shardFailed st) shards),
       (attempts + length shards)%nat,
       (successes
        + length (List.filter (λ s, negb (shardFailed st s)) shards))%nat,
       None) ∧
    commitStep st cat st' cat'.
Proof.
  revert attempts successes warnings st cat.
  induction shards as [|shard shards IH];
    intros attempts successes warnings st cat.
  - exists st, cat. simpl. rewrite app_nil_r, !Nat.add_0_r.
    split; [done|apply commitStep_refl].
  - cbn [PostCommitLoop].
    destruct (Check_spec shard st cat) as (st1 & cat1 & -> & Hstep).
    pose proof (shardFailed_sameButFailed st st1) as Hinv.
    specialize (fun s => Hinv s (proj1 Hstep)).
    destruct (shardFailed st shard) eqn:Hfailed; simpl.
    + destruct (IH (S attempts) successes
                  (warnings ++ [ShardCommitFailed shard]) st1 cat1)
        as (st' & cat' & -> & Hstep').
      exists st', cat'. split; [|by eapply commitStep_trans].
      rewrite Hfailed. simpl.
      rewrite (filter_ext (shardFailed st1) (shardFailed st)) by done.
      rewrite (filter_ext (λ s, negb (shardFailed st1 s))
                 (λ s, negb (shardFailed st s)))
        by (intros s; by rewrite Hinv).
      rewrite <- app_assoc. simpl. repeat f_equal; lia.
    + destruct (IH (S attempts) (S successes) warnings st1 cat1)
        as (st' & cat' & -> & Hstep').
      exists st', cat'. split; [|by eapply commitStep_trans].
      rewrite Hfailed. simpl.
      rewrite (filter_ext (shardFailed st1) (shardFailed st)) by done.
      rewrite (filter_ext (λ s, negb (shardFailed st1 s))
                 (λ s, negb (shardFailed st s)))
        by (intros s; by rewrite Hinv).
      repeat f_equal; lia.
Qed.

(** X18.  Without 2PC, PostCommitMarkFailedShardPlacements reports every
    failed shard as a warning, in the order in which hash_seq_search yields
    the shard entries, whatever that order is, and goes on.  The only error
    it can raise is the one about no active node, and it raises it exactly
    when the shard hash is not empty and every shard failed.  It has only
    set [failed] flags and invalidated catalog rows. *)
Theorem X18_post_commit_without_2pc st cat st' cat' warnings err :
  PostCommitMarkFailedShardPlacements false st cat
  = (st', cat', warnings, err) →
  commitStep st cat st' cat' ∧
  warnings = map ShardCommitFailed
               (List.filter (shardFailed st) (shardIds st)) ∧
  (err = None ∨ err = Some NoShardCommitted) ∧
  (err = Some NoShardCommitted ↔
   shardIds st ≠ [] ∧ ∀ shard, shard ∈ shardIds st → shardFailed st shard = true).
Proof.
  unfold PostCommitMarkFailedShardPlacements. fold (shardIds st).
  destruct (PostCommitLoop_warning (shardIds st) 0 0 [] st cat)
    as (st1 & cat1 & -> & Hstep). cbn [Nat.add app].
  assert (Hzero : (length (List.filter (λ s, negb (shardFailed st s))
                             (shardIds st)) =? 0)%nat = true
                  ↔ ∀ shard, shard ∈ shardIds st → shardFailed st shard = true).
  { rewrite Nat.eqb_eq, filter_length_zero. split; intros Hall s Hs.
    - apply Hall in Hs. by apply negb_false_iff in Hs.
    - apply negb_false_iff. by apply Hall. }
  destruct (shardIds st) as [|s0 ids] eqn:Hids.
  - simpl. intros [= <- <- <- <-]. split; [done|]. split; [done|].
    split; [by left|]. split; [done|]. by intros [? _].
  - cbn [length Nat.ltb Nat.leb andb].
    destruct (length _ =? 0)%nat eqn:Hlen.
    + intros [= <- <- <- <-]. split; [done|]. split; [done|].
      split; [by right|]. split; [|done]. intros _. split; [done|].
      by apply Hzero.
    + intros [= <- <- <- <-]. split; [done|]. split; [done|].
      split; [by left|]. split; [done|]. intros [_ Hall].
      apply Hzero in Hall. congruence.
Qed.



End MoreCommitFacts.

Section AcquireThenClose.

Context {ext : Externals}.

Lemma InstallStep_registered c user access pid st :
  registered c st → registered c (InstallStep c user access pid st).
Proof.
  intros Hreg.
  destruct (ConnectionPlacementHash st !! pid) as [e|] eqn:He;
    [|by rewrite InstallStep_missing].
  destruct (InstallStep_installs c user access pid st)
    as (_ & _ & Hp & Hci & _).
  assert (Hvisit : connection (deref st (primaryConnection e)) = None ∨
                   connection (deref st (primaryConnection e)) = Some c).
  { destruct (Hreg (primaryConnection e)) as [?|[? _]]; auto.
    left. by exists pid, e. }
  intros a Hreach.
  assert (Hreach0 :
    (∃ pid0 e0, ConnectionPlacementHash st !! pid0 = Some e0
                ∧ primaryConnection e0 = a) ∨
    (∃ key ce, ColocatedPlacementsHash st !! key = Some ce
               ∧ coPrimaryConnection ce = a)).
  { destruct Hreach as [(pid0 & e0 & He0 & <-)|(key & ce & Hce & <-)].
    - left. specialize (Hp pid0). rewrite He0 in Hp.
      inversion Hp as [e1 ? (Hprim & _) Heq1 Heq2|]. by exists pid0, e1.
    - right. specialize (Hci key). rewrite Hce in Hci.
      inversion Hci as [ce1 ? (Hprim & _) Heq1 Heq2|]. by exists key, ce1. }
  specialize (Hreg a Hreach0).
  rewrite (deref_InstallStep _ _ _ _ _ e), (InstallStep_connections _ _ _ _ _ e)
    by done.
  case_bool_decide as Heq.
  - destruct Heq as [<- Hlt]. rewrite installedReference_connection.
    destruct Hvisit as [Hnone|Hsome].
    + rewrite Hnone, !bool_decide_eq_true_2 by done. simpl. right.
      split; [done|]. unfold getConnection. rewrite lookup_insert_eq. simpl.
      apply elem_of_app. right. apply list_elem_of_here.
    + rewrite Hsome, !bool_decide_eq_false_2 by done. simpl.
      destruct Hreg as [Hn|[_ Hin]]; [congruence|]. right.
      split; [by destruct (isSELECT access)|done].
  - case_bool_decide as Hnone; [|done].
    destruct Hreg as [?|[Hc Hin]]; [by left|right]. split; [done|].
    unfold getConnection at 1. rewrite lookup_insert_eq. simpl.
    apply elem_of_app. by left.
Qed.

Lemma InstallPass_registered c user accs entries st :
  registered c st → registered c (InstallPass c user accs entries st).
Proof.
  revert entries st. induction accs as [|acc accs IH];
    intros [|pid entries] st Hreg; simpl; try done.
  by apply IH, InstallStep_registered.
Qed.

Lemma Close_registered c st :
  registered c st → unconnected (CloseShardPlacementAssociation c st).
Proof.
  intros Hreg.
  assert (Hnone : ∀ a,
    ((∃ pid e, ConnectionPlacementHash st !! pid = Some e
               ∧ primaryConnection e = a) ∨
     (∃ key ce, ColocatedPlacementsHash st !! key = Some ce
                ∧ coPrimaryConnection ce = a)) →
    connection (deref (CloseShardPlacementAssociation c st) a) = None).
  { intros a Hreach. rewrite Close_references.
    destruct (Hreg a Hreach) as [Hn|[Hc Hin]].
    - by case_bool_decide.
    - rewrite bool_decide_eq_true_2; [done|].
      split; [done|]. by eapply connected_valid. }
  destruct (Close_tables c st) as (Hp & Hci & _ & _). split.
  - intros pid e He. rewrite Hp in He. apply Hnone. left. by exists pid, e.
  - intros key ce Hce. rewrite Hci in Hce. apply Hnone. right. by exists key, ce.
Qed.

(** X22.  Acquire, then close.  From a state in which no entry holds a
    connection, a call returns the connection of the pool, and
    CloseShardPlacementAssociation for that connection leaves again a state
    in which no entry holds a connection: every reference the call gave the
    connection was put on the connection's list. *)
Theorem X22_acquire_then_close flags first rest uname st c conns :
  unconnected st →
  StartNodeConnection flags (nodeName (placement first))
    (nodePort (placement first)) (connections st) = (c, conns) →
  ∃ st',
    StartPlacementListConnection flags (first :: rest) uname st
    = (st', inr c) ∧
    unconnected (CloseShardPlacementAssociation c st').
Proof.
  intros Hun Hpool.
  destruct (SelectionPass_unconnected flags (default CurrentUserName uname)
              (first :: rest) initialSelection st Hun)
    as (st1 & entries & Hsel & Hun1).
  destruct (SelectionPass_extends _ _ _ _ _ _ _ Hsel) as (_ & _ & _ & _ & Hn).
  exists (InstallPass c (default CurrentUserName uname) (first :: rest) entries
            (with_connections (λ _, conns) st1)).
  split.
  - unfold StartPlacementListConnection. rewrite Hsel. simpl.
    rewrite Hn, Hpool. reflexivity.
  - apply Close_registered, InstallPass_registered.
    intros a [(pid & e & He & <-)|(key & ce & Hce & <-)]; left.
    + by apply (proj1 Hun1 pid e).
    + by apply (proj2 Hun1 key ce).
Qed.


End AcquireThenClose.

(** ** The scenarios, evaluated *)



(** C9, on a concrete call: p1 was written over connection 1, p2 was read
    over the reusable connection 2; reading p1 and then p2 returns
    connection 1. *)
Lemma C9_witness :
  let sel1 := {| chosenConnection := Some 1%nat;
                 foundModifyingConnection := true;
                 placementEntryList := [101] |} in
  let r := acquire [access p1 PLACEMENT_ACCESS_SELECT;
                    access p2 PLACEMENT_ACCESS_SELECT] "alice" writtenAndRead in
  @SelectionPass scenarioExternals 0 "alice" [access p1 PLACEMENT_ACCESS_SELECT]
    initialSelection writtenAndRead = (writtenAndRead, inr sel1) ∧
  foundModifyingConnection sel1 = true ∧
  r = (r.1, inr 1%nat) ∧
  connection (deref writtenAndRead 1) = Some 2%nat ∧
  chosenConnection sel1 = Some 1%nat.
Proof.
  intros sel1 r.
  assert (Hsel : @SelectionPass scenarioExternals 0 "alice"
                   [access p1 PLACEMENT_ACCESS_SELECT]
                   initialSelection writtenAndRead = (writtenAndRead, inr sel1))
    by (vm_compute; reflexivity).
  split; [exact Hsel|]. split; [reflexivity|].
  assert (Hr : r = (r.1, inr 1%nat)) by (vm_compute; reflexivity).
  split; [exact Hr|]. split; [vm_compute; reflexivity|].
  exact (proj1 (proj2 (@C9_modifying_connection_is_kept scenarioExternals 0
                         [access p1 PLACEMENT_ACCESS_SELECT]
                         [access p2 PLACEMENT_ACCESS_SELECT]
                         (Some "alice") writtenAndRead writtenAndRead sel1
                         Hsel eq_refl) r.1 1%nat Hr)).
Defined.

(** C3, counterexample.  p1 was read over connection 1, now claimed
    exclusively; a DML on p1 passes the selection loop, gets the new
    connection 2, and the second loop sets both hadDML on the reference and
    hasSecondaryConnections on the entry. *)
Lemma C3_counterexample :
  let r := acquire [access p1 PLACEMENT_ACCESS_DML] "alice" readThenClaimed in
  r.2 = inr 2%nat ∧
  ∃ e, ConnectionPlacementHash r.1 !! placementId p1 = Some e ∧
       hadDML (deref r.1 (primaryConnection e)) = true ∧
       hasSecondaryConnections e = true.
Proof.
  vm_compute. split; [reflexivity|].
  eexists. split; [reflexivity|]. split; reflexivity.
Qed.

(** C3 (as amended), on a concrete call: p1 was written over connection 1
    and p2 read over connection 2; reading both returns connection 1, marks
    p2 as read over several connections and leaves the entry of p1 as it
    was. *)
Lemma C3_witness :
  let r := acquire [access p1 PLACEMENT_ACCESS_SELECT;
                    access p2 PLACEMENT_ACCESS_SELECT] "alice" writtenAndRead in
  let e := {| failed := false; primaryConnection := 0;
              hasSecondaryConnections := false; colocatedEntry := None |} in
  r = (r.1, inr 1%nat) ∧
  ConnectionPlacementHash writtenAndRead !! placementId p1 = Some e ∧
  modified (deref writtenAndRead (primaryConnection e)) = true ∧
  ConnectionPlacementHash r.1 !! placementId p1 = Some e.
Proof.
  intros r e.
  assert (Hr : r = (r.1, inr 1%nat)) by (vm_compute; reflexivity).
  assert (He : ConnectionPlacementHash writtenAndRead !! placementId p1 = Some e)
    by (vm_compute; reflexivity).
  assert (Hm : modified (deref writtenAndRead (primaryConnection e)) = true)
    by (vm_compute; reflexivity).
  split; [exact Hr|]. split; [exact He|]. split; [exact Hm|].
  exact (@C3_written_placement_keeps_entry scenarioExternals 0
           [access p1 PLACEMENT_ACCESS_SELECT; access p2 PLACEMENT_ACCESS_SELECT]
           (Some "alice") writtenAndRead r.1 1%nat (placementId p1) e Hr He Hm).
Defined.



(** C5, counterexample.  The entry of p1 has hasSecondaryConnections set
    and its reference holds connection 1.  A call that reads the new
    placement p2 and then runs DDL on p1 fails with the error about DDL
    after reads over multiple connections, but leaves behind the new entry
    of p2 in the placement hash.  And when p2 was written over a connection
    that is now claimed, the same call fails at p2, with the error about a
    new connection over DML. *)
Lemma C5_counterexample :
  let r := acquire [access p2 PLACEMENT_ACCESS_SELECT;
                    access p1 PLACEMENT_ACCESS_DDL] "alice" readOverTwo in
  let r' := acquire [access p2 PLACEMENT_ACCESS_SELECT;
                     access p1 PLACEMENT_ACCESS_DDL] "alice"
              readOverTwoAndWritten in
  (∃ e, ConnectionPlacementHash readOverTwo !! placementId p1 = Some e ∧
        hasSecondaryConnections e = true) ∧
  r.2 = inl (DdlOnSecondaryRead 101) ∧
  ConnectionPlacementHash readOverTwo !! placementId p2 = None ∧
  ConnectionPlacementHash r.1 !! placementId p2 ≠ None ∧
  (∃ e, ConnectionPlacementHash readOverTwoAndWritten !! placementId p1
          = Some e ∧
        hasSecondaryConnections e = true) ∧
  r'.2 = inl (NewConnOverDml 102).
Proof.
  vm_compute. split; [eexists; split; reflexivity|].
  split; [reflexivity|]. split; [reflexivity|]. split; [discriminate|].
  split; [eexists; split; reflexivity|reflexivity].
Qed.

(** C5 (as amended), on a concrete call: with hasSecondaryConnections set
    on the entry of p1, reading p2 and then running DDL on p1 fails with
    the error about DDL after reads over multiple connections. *)
Lemma C5_witness :
  ∃ st', acquire [access p2 PLACEMENT_ACCESS_SELECT;
                  access p1 PLACEMENT_ACCESS_DDL] "alice" readOverTwo
         = (st', inl (DdlOnSecondaryRead 101)) ∧
         extends readOverTwo st'.
Proof.
  destruct (@C5_ddl_after_secondary_read scenarioExternals 0
              [access p2 PLACEMENT_ACCESS_SELECT]
              (access p1 PLACEMENT_ACCESS_DDL) [] (Some "alice") readOverTwo
              {| failed := false; primaryConnection := 0;
                 hasSecondaryConnections := true; colocatedEntry := None |})
    as (st' & err & Hstart & Hext & Herr & _).
  - reflexivity.
  - vm_compute; discriminate.
  - vm_compute; reflexivity.
  - vm_compute; discriminate.
  - left; reflexivity.
  - exists st'. split; [|exact Hext].
    rewrite Herr in Hstart; [exact Hstart|].
    eexists _, _. vm_compute; reflexivity.
Defined.



(** Colocation sharing: after a DML on h1, a SELECT on the colocated h2
    returns the same connection, and the two placement entries and the
    colocated entry hold the same reference. *)
Example colocation_sharing :
  let r1 := acquire [access h1 PLACEMENT_ACCESS_DML] "alice"
              InitPlacementConnectionManagement in
  let r2 := acquire [access h2 PLACEMENT_ACCESS_SELECT] "alice" r1.1 in
  r1.2 = inr 1%nat ∧ r2.2 = inr 1%nat ∧
  primaryConnection <$> ConnectionPlacementHash r2.1 !! 201 = Some 0%nat ∧
  primaryConnection <$> ConnectionPlacementHash r2.1 !! 202 = Some 0%nat ∧
  coPrimaryConnection <$> ColocatedPlacementsHash r2.1 !! ColocatedKey h1
    = Some 0%nat.
Proof. vm_compute. repeat split; reflexivity. Qed.

(** C7, on a concrete shard: of the two written placements of shard 7, p1
    failed and p3 succeeded; the check returns true and the catalog row of
    p1 goes from FILE_FINALIZED to FILE_INACTIVE, that of p3 stays. *)
Lemma C7_witness :
  let r := CheckShardPlacements 7 oneReplicaFailed bothFinalized in
  r = (r.1.1, r.1.2, true) ∧
  r.1.2 !! 101 = Some FILE_INACTIVE ∧
  r.1.2 !! 103 = Some FILE_FINALIZED.
Proof.
  intros r.
  assert (Hr : r = (r.1.1, r.1.2, true)) by (vm_compute; reflexivity).
  split; [exact Hr|].
  destruct (C7_check_shard_placements 7 oneReplicaFailed bothFinalized
              r.1.1 r.1.2 true Hr) as (_ & _ & _ & _ & _ & Hcat & _).
  split; rewrite (Hcat eq_refl); vm_compute; reflexivity.
Defined.

(** C10, on concrete transactions.  In a transaction that read p1 and
    wrote p2 over connection 2, which then failed, the check of shard 8
    fails and the check of shard 7, whose only placement was read, returns
    true.  In a transaction that only read p1, the post-commit check counts
    the shard as an attempt and a success and raises nothing. *)
Lemma C10_witness :
  (∀ pid, pid ∈ default [] (ConnectionShardHash readBesideFailedWrite !! 7) →
          placementModified readBesideFailedWrite pid = false) ∧
  (CheckShardPlacements 8 readBesideFailedWrite bothFinalized).2 = false ∧
  (∃ cat', CheckShardPlacements 7 readBesideFailedWrite bothFinalized
           = (readBesideFailedWrite, cat', true)) ∧
  readOnlyShards readThenClaimed ∧
  ∃ cat', @PostCommitMarkFailedShardPlacements scenarioWalk true
            readThenClaimed bothFinalized
          = (readThenClaimed, cat', [], None).
Proof.
  assert (Hread : ∀ pid,
            pid ∈ default [] (ConnectionShardHash readBesideFailedWrite !! 7) →
            placementModified readBesideFailedWrite pid = false).
  { assert (Hlist : default [] (ConnectionShardHash readBesideFailedWrite !! 7)
                    = [101]) by (vm_compute; reflexivity).
    rewrite Hlist. intros pid ->%list_elem_of_singleton.
    vm_compute; reflexivity. }
  assert (Hro : readOnlyShards readThenClaimed)
    by (apply readOnlyShardsb_correct; vm_compute; reflexivity).
  split; [exact Hread|]. split; [vm_compute; reflexivity|].
  split.
  - exact (proj1 (@C10_read_only_shards_commit scenarioWalk true 7
                    readBesideFailedWrite bothFinalized) Hread).
  - split; [exact Hro|].
    destruct (proj2 (@C10_read_only_shards_commit scenarioWalk true 7
                       readThenClaimed bothFinalized) Hro)
      as (cat' & _ & Hpost).
    by exists cat'.
Defined.

(** C2, evaluated.  After connection 1, over which p1 was written, has
    been closed, the reference of p1 has no connection and still has hadDML
    set.  The next call for p1 raises no error: it returns the new
    connection 2 and overwrites the reference, hadDML included. *)
Theorem C2_closed_writing_connection_is_replaced :
  let r := acquire [access p1 PLACEMENT_ACCESS_SELECT] "alice" closedAfterWrite in
  deref closedAfterWrite 0
    = {| userName := Some "alice"; connection := None;
         hadDML := true; hadDDL := false |} ∧
  r.2 = inr 2%nat ∧
  deref r.1 0
    = {| userName := Some "alice"; connection := Some 2%nat;
         hadDML := false; hadDDL := false |}.
Proof. vm_compute. repeat split; reflexivity. Qed.

(** C8, evaluated.  With the dummy placement in front, the second loop
    pairs the SELECT of the dummy with the entry of p1 and never sees the
    DML: the reference of p1 ends without hadDML, whereas the same call
    without the dummy access sets it. *)
Theorem C8_dummy_access_shifts_install_pairing :
  let r := acquire [access dummyPlacement PLACEMENT_ACCESS_SELECT;
                    access p1 PLACEMENT_ACCESS_DML] "alice"
             InitPlacementConnectionManagement in
  let r' := acquire [access p1 PLACEMENT_ACCESS_DML] "alice"
              InitPlacementConnectionManagement in
  shardId dummyPlacement = @INVALID_SHARD_ID scenarioExternals ∧
  r.2 = inr 1%nat ∧ r'.2 = inr 1%nat ∧
  hadDML (deref r.1 0) = false ∧
  hadDML (deref r'.1 0) = true ∧
  ConnectionPlacementHash r.1 = ConnectionPlacementHash r'.1 ∧
  ConnectionShardHash r.1 = ConnectionShardHash r'.1.
Proof. vm_compute. repeat split; reflexivity. Qed.


(** The scenarios of the specification, run on the model. *)

(** SELECT then SELECT on the same placement by the same user reuses the
    connection. *)
Example select_then_select_reuses :
  let r1 := acquire [access p1 PLACEMENT_ACCESS_SELECT] "alice"
              InitPlacementConnectionManagement in
  let r2 := acquire [access p1 PLACEMENT_ACCESS_SELECT] "alice" r1.1 in
  r1.2 = inr 1%nat ∧ r2.2 = inr 1%nat ∧
  hasSecondaryConnections <$> ConnectionPlacementHash r2.1 !! 101 = Some false ∧
  connection (deref r2.1 0) = Some 1%nat.
Proof. vm_compute. repeat split; reflexivity. Qed.

(** SELECT then DDL on the same placement reuses the connection and
    records the DDL. *)
Example select_then_ddl :
  let r1 := acquire [access p1 PLACEMENT_ACCESS_SELECT] "alice"
              InitPlacementConnectionManagement in
  let r2 := acquire [access p1 PLACEMENT_ACCESS_DDL] "alice" r1.1 in
  r2.2 = inr 1%nat ∧ hadDDL (deref r2.1 0) = true.
Proof. vm_compute. repeat split; reflexivity. Qed.

(** Two SELECTs over different connections, then DDL: refused. *)
Example ddl_after_two_reads :
  hasSecondaryConnections <$> ConnectionPlacementHash readOverTwo !! 101
    = Some true ∧
  (acquire [access p1 PLACEMENT_ACCESS_DDL] "alice" readOverTwo).2
    = inl (DdlOnSecondaryRead 101).
Proof. vm_compute. repeat split; reflexivity. Qed.

(** Commit-time invalidation: when p1 is the only modified placement of
    its shard and its remote transaction failed, the pre-commit check
    reports the shard; when p3 of the same shard was written over a
    connection that did not fail, p1 is marked FILE_INACTIVE and nothing is
    reported. *)
Example commit_time_invalidation :
  (@MarkFailedShardPlacements scenarioWalk
     (MarkRemoteTransactionFailed 1
        (acquire [access p1 PLACEMENT_ACCESS_DML] "alice"
           InitPlacementConnectionManagement).1) bothFinalized).2
    = Some (ShardAllPlacementsFailed 7) ∧
  (@MarkFailedShardPlacements scenarioWalk oneReplicaFailed bothFinalized).2
    = None ∧
  (@MarkFailedShardPlacements scenarioWalk oneReplicaFailed
     bothFinalized).1.2 !! 101
    = Some FILE_INACTIVE.
Proof. vm_compute. repeat split; reflexivity. Qed.

(** ** The further results, on the scenarios *)

(** X1, on a fresh transaction: after the entry of p1 is created, 101 is on
    the list of shard 7. *)
Lemma X1_witness :
  shardListsNoDup InitPlacementConnectionManagement ∧
  shardLinked
    (FindOrCreatePlacementEntry p1
       InitPlacementConnectionManagement).2 p1.
Proof.
  split; [apply shardListsNoDup_initial|].
  exact (proj1 (X1_entry_linked_to_shard_once p1
                  InitPlacementConnectionManagement shardListsNoDup_initial)).
Defined.

(** X3, on a fresh transaction: the entry created for p1 has no colocated
    entry. *)
Lemma X3_witness :
  validReferences InitPlacementConnectionManagement ∧
  ConnectionPlacementHash InitPlacementConnectionManagement !! placementId p1
    = None ∧
  isColocating (partitionMethod p1) = false ∧
  ∃ e,
    ConnectionPlacementHash
      (FindOrCreatePlacementEntry p1
         InitPlacementConnectionManagement).2 !! placementId p1 = Some e ∧
    colocatedEntry e = None.
Proof.
  split; [apply validReferences_initial|].
  split; [reflexivity|]. split; [reflexivity|].
  destruct (X3_private_reference p1
              InitPlacementConnectionManagement validReferences_initial
              eq_refl eq_refl) as (e & He & Hco & _).
  by exists e.
Defined.

(** X4, on a fresh transaction: the entries of h1 and h2 point at one
    reference. *)
Lemma X4_witness :
  let st' := (FindOrCreatePlacementEntry h2
                (FindOrCreatePlacementEntry h1
                   InitPlacementConnectionManagement).2).2 in
  ColocatedKey h1 = ColocatedKey h2 ∧
  ∃ ep eq,
    ConnectionPlacementHash st' !! placementId h1 = Some ep ∧
    ConnectionPlacementHash st' !! placementId h2 = Some eq ∧
    primaryConnection ep = primaryConnection eq.
Proof.
  intros st'. split; [reflexivity|].
  destruct (X4_colocated_placements_share h1 h2
              InitPlacementConnectionManagement eq_refl eq_refl eq_refl
              ltac:(discriminate) eq_refl eq_refl)
    as (ep & eq & ce & Hp & Hq & _ & Hep & Heq).
  exists ep, eq. split; [exact Hp|]. split; [exact Hq|]. congruence.
Defined.


(** X6, on a call: after a DML on p1 and a SELECT on p2, p2 is on the list
    of its shard. *)
Lemma X6_witness :
  let r := acquire [access p1 PLACEMENT_ACCESS_DML;
                    access p2 PLACEMENT_ACCESS_SELECT] "alice"
             InitPlacementConnectionManagement in
  r = (r.1, inr 1%nat) ∧ shardLinked r.1 p2.
Proof.
  intros r.
  assert (Hr : r = (r.1, inr 1%nat)) by (vm_compute; reflexivity).
  split; [exact Hr|].
  refine (proj2 (proj2 (@X6_shard_lists_after_call scenarioExternals
                          _ _ _ _ _ _ Hr)) 1%nat eq_refl
            (access p2 PLACEMENT_ACCESS_SELECT) _ _).
  - apply list_elem_of_further, list_elem_of_here.
  - discriminate.
Defined.

(** X7, on a call: p1 was read over the claimed connection 1; reading it
    again takes connection 2 and leaves the entry at its reference. *)
Lemma X7_witness :
  let r := acquire [access p1 PLACEMENT_ACCESS_SELECT] "alice"
             readThenClaimed in
  r = (r.1, inr 2%nat) ∧
  ConnectionPlacementHash readThenClaimed !! 101 = Some (plainEntry 0) ∧
  ∃ e', ConnectionPlacementHash r.1 !! 101 = Some e' ∧
        primaryConnection e' = 0%nat.
Proof.
  intros r.
  assert (Hr : r = (r.1, inr 2%nat)) by (vm_compute; reflexivity).
  assert (He : ConnectionPlacementHash readThenClaimed !! 101
               = Some (plainEntry 0)) by (vm_compute; reflexivity).
  split; [exact Hr|]. split; [exact He|].
  destruct (proj1 (@X7_entries_are_kept scenarioExternals _ _ _ _ _ _ Hr)
              101 (plainEntry 0) He) as (e' & He' & Hprim & _).
  by exists e'.
Defined.

(** X8, on a call: p1 was written over connection 1; a SELECT on p1 and p2
    keeps the connection and the DML flag of the reference of p1. *)
Lemma X8_witness :
  let r := acquire [access p1 PLACEMENT_ACCESS_SELECT;
                    access p2 PLACEMENT_ACCESS_SELECT] "alice" writtenOnce in
  r = (r.1, inr 1%nat) ∧ keepsWrites writtenOnce r.1.
Proof.
  intros r.
  assert (Hr : r = (r.1, inr 1%nat)) by (vm_compute; reflexivity).
  split; [exact Hr|].
  exact (@X8_writes_are_not_forgotten scenarioExternals _ _ _ _ _ _ Hr).
Defined.

(** X9, on a call: after a DML on p1 and a SELECT on p2, the reference of
    p1 has hadDML set. *)
Lemma X9_witness :
  let accs := [access p1 PLACEMENT_ACCESS_DML;
               access p2 PLACEMENT_ACCESS_SELECT] in
  let r := acquire accs "alice" InitPlacementConnectionManagement in
  @realAccesses scenarioExternals accs = accs ∧
  r = (r.1, inr 1%nat) ∧
  ∃ e, ConnectionPlacementHash r.1 !! 101 = Some e ∧
       hadDML (deref r.1 (primaryConnection e)) = true.
Proof.
  intros accs r.
  assert (Hreal : @realAccesses scenarioExternals accs = accs)
    by (vm_compute; reflexivity).
  assert (Hr : r = (r.1, inr 1%nat)) by (vm_compute; reflexivity).
  split; [exact Hreal|]. split; [exact Hr|].
  destruct (@X9_writes_are_recorded scenarioExternals 0 accs (Some "alice")
              InitPlacementConnectionManagement r.1 1%nat
              (access p1 PLACEMENT_ACCESS_DML) validReferences_initial
              Hreal Hr (list_elem_of_here _ _)) as (e & He & Hdml & _).
  exists e. split; [exact He|]. by apply Hdml.
Defined.

(** X10, on a call with FORCE_NEW_CONNECTION: p1 was written over the
    reusable connection 1; the connection returned is the one of the
    pool. *)
Lemma X10_witness :
  let r := @StartPlacementListConnection scenarioExternals 1
             [access p2 PLACEMENT_ACCESS_SELECT] (Some "alice") writtenOnce in
  r = (r.1, inr 2%nat) ∧
  ∃ first rest conns,
    [access p2 PLACEMENT_ACCESS_SELECT] = first :: rest ∧
    OpenNewConnection 1 (nodeName (placement first))
      (nodePort (placement first)) (connections writtenOnce)
    = (2%nat, conns).
Proof.
  intros r.
  assert (Hr : r = (r.1, inr 2%nat)) by (vm_compute; reflexivity).
  split; [exact Hr|].
  apply (proj2 (@X10_returned_connection_origin scenarioExternals
                  _ _ _ _ _ _ Hr)).
  discriminate.
Defined.

(** X11, on a fresh transaction: a DML on p1 and a SELECT on p2 return
    connection 1 of the pool, and the reference of p2 holds it. *)
Lemma X11_witness :
  unconnected InitPlacementConnectionManagement ∧
  ∃ st',
    acquire [access p1 PLACEMENT_ACCESS_DML; access p2 PLACEMENT_ACCESS_SELECT]
      "alice" InitPlacementConnectionManagement = (st', inr 1%nat) ∧
    ∃ e, ConnectionPlacementHash st' !! 102 = Some e ∧
         connection (deref st' (primaryConnection e)) = Some 1%nat.
Proof.
  split; [apply unconnected_initial|].
  destruct (@X11_first_acquire_uses_pool scenarioExternals 0
              (access p1 PLACEMENT_ACCESS_DML)
              [access p2 PLACEMENT_ACCESS_SELECT] (Some "alice")
              InitPlacementConnectionManagement 1%nat
              (OpenNewConnection 0 "worker-1" 5432 ∅).2
              unconnected_initial eq_refl) as (st' & Hstart & Hheld).
  exists st'. split; [exact Hstart|].
  apply (Hheld validReferences_initial (access p2 PLACEMENT_ACCESS_SELECT)).
  - apply list_elem_of_further, list_elem_of_here.
  - discriminate.
Defined.

(** X12, on a transaction that wrote p1 and p2 over connections 1 and 2:
    after the reset, a DML on p1 returns connection 3 of the pool. *)
Lemma X12_witness :
  OpenNewConnection 0 "worker-1" 5432 (connections writtenTwice)
    = (3%nat, (OpenNewConnection 0 "worker-1" 5432
                 (connections writtenTwice)).2) ∧
  ∃ st',
    acquire [access p1 PLACEMENT_ACCESS_DML] "alice"
      (ResetPlacementConnectionManagement writtenTwice) = (st', inr 3%nat).
Proof.
  assert (Hpool : OpenNewConnection 0 "worker-1" 5432 (connections writtenTwice)
                  = (3%nat, (OpenNewConnection 0 "worker-1" 5432
                               (connections writtenTwice)).2))
    by (vm_compute; reflexivity).
  split; [exact Hpool|].
  exact (proj2 (proj2 (proj2
           (@X12_reset_forgets_connections scenarioExternals 0
              (access p1 PLACEMENT_ACCESS_DML) [] (Some "alice")
              writtenTwice 3%nat _ Hpool)))).
Defined.

(** X13, on a transaction that wrote p1 over connection 1: a list with
    only the dummy placement returns connection 2 of the pool and leaves
    the tables and references as they were. *)
Lemma X13_witness :
  let conns := (OpenNewConnection 0 "worker-1" 5432
                  (connections writtenOnce)).2 in
  @realAccesses scenarioExternals
    [access dummyPlacement PLACEMENT_ACCESS_SELECT] = [] ∧
  acquire [access dummyPlacement PLACEMENT_ACCESS_SELECT] "alice" writtenOnce
  = (with_connections (λ _, conns) writtenOnce, inr 2%nat).
Proof.
  intros conns. split; [reflexivity|].
  apply (@X13_dummy_only_list scenarioExternals 0
           (access dummyPlacement PLACEMENT_ACCESS_SELECT) [] (Some "alice")
           writtenOnce 2%nat conns); vm_compute; reflexivity.
Defined.

(** X14, on a failing call: p1 was written over connection 1, now claimed;
    reading the dummy placement and p1 fails as reading p1 alone does. *)
Lemma X14_witness :
  let accs := [access dummyPlacement PLACEMENT_ACCESS_SELECT;
               access p1 PLACEMENT_ACCESS_SELECT] in
  let r := acquire accs "alice" writtenThenClaimed in
  r = (r.1, inl (NewConnOverDml 101)) ∧
  acquire [access p1 PLACEMENT_ACCESS_SELECT] "alice" writtenThenClaimed
  = (r.1, inl (NewConnOverDml 101)).
Proof.
  intros accs r.
  assert (Hr : r = (r.1, inl (NewConnOverDml 101))) by (vm_compute; reflexivity).
  split; [exact Hr|].
  refine (proj1 (@X14_errors_ignore_dummy_accesses scenarioExternals 0 accs
                   (Some "alice") writtenThenClaimed r.1 (NewConnOverDml 101) _)
            Hr).
  discriminate.
Defined.

(** X16, on a transaction that wrote p1 over connection 1: once the
    connection is closed, the check of shard 7 fails and leaves the catalog
    as it was. *)
Lemma X16_witness :
  placementModified writtenOnce 101 = true ∧
  ∃ st1,
    CheckShardPlacements 7 (CloseShardPlacementAssociation 1 writtenOnce)
      bothFinalized = (st1, bothFinalized, false).
Proof.
  assert (Hmod : placementModified writtenOnce 101 = true)
    by (vm_compute; reflexivity).
  split; [exact Hmod|].
  apply (X16_closed_writer_fails_shard 1 writtenOnce 7 bothFinalized).
  - intros pid e Hin He _.
    assert (Hlist : default [] (ConnectionShardHash writtenOnce !! 7) = [101])
      by (vm_compute; reflexivity).
    rewrite Hlist in Hin. apply list_elem_of_singleton in Hin as ->.
    assert (He0 : ConnectionPlacementHash writtenOnce !! 101
                  = Some (plainEntry 0)) by (vm_compute; reflexivity).
    rewrite He0 in He. injection He as <-.
    assert (Hrefs : referencedPlacements
                      (getConnection (connections writtenOnce) 1) = [0%nat])
      by (vm_compute; reflexivity).
    cbn [primaryConnection plainEntry]. rewrite Hrefs.
    split; [apply list_elem_of_here|vm_compute; lia].
  - exists 101. split; [|exact Hmod].
    assert (Hlist : default [] (ConnectionShardHash writtenOnce !! 7) = [101])
      by (vm_compute; reflexivity).
    rewrite Hlist. apply list_elem_of_here.
Defined.

(** X17, on a transaction in which one of two written replicas of shard 7
    failed: the pre-commit check raises nothing and makes a commit step. *)
Lemma X17_witness :
  let r := @MarkFailedShardPlacements scenarioWalk oneReplicaFailed
             bothFinalized in
  r = (r.1.1, r.1.2, None) ∧
  commitStep oneReplicaFailed bothFinalized r.1.1 r.1.2.
Proof.
  intros r.
  assert (Hr : r = (r.1.1, r.1.2, None)) by (vm_compute; reflexivity).
  split; [exact Hr|].
  exact (proj1 (X17_mark_failed_shard_placements _ _ _ _ _ Hr)).
Defined.

(** X18, on a transaction whose only written placement lost its
    connection: without 2PC the post-commit check warns about shard 7 and
    raises the error that nothing was committed. *)
Lemma X18_witness :
  let st := MarkRemoteTransactionFailed 1 writtenOnce in
  let r := @PostCommitMarkFailedShardPlacements scenarioWalk false st
             bothFinalized in
  r = (r.1.1.1, r.1.1.2, [ShardCommitFailed 7], Some NoShardCommitted) ∧
  [ShardCommitFailed 7]
  = map ShardCommitFailed
      (List.filter (shardFailed st) (@shardIds scenarioWalk st)).
Proof.
  intros st r.
  assert (Hr : r = (r.1.1.1, r.1.1.2, [ShardCommitFailed 7],
                    Some NoShardCommitted)) by (vm_compute; reflexivity).
  split; [exact Hr|].
  exact (proj1 (proj2 (X18_post_commit_without_2pc _ _ _ _ _ _ Hr))).
Defined.


(** X20, on a transaction that wrote p1 over connection 1: a DDL on p1
    returns connection 1 and sets hadDDL beside hadDML. *)
Lemma X20_witness :
  ConnectionPlacementHash writtenOnce !! 101 = Some (plainEntry 0) ∧
  ∃ st',
    acquire [access p1 PLACEMENT_ACCESS_DDL] "alice" writtenOnce
    = (st', inr 1%nat) ∧
    connections st' = connections writtenOnce ∧
    hadDDL (deref st' 0) = true.
Proof.
  assert (He : ConnectionPlacementHash writtenOnce !! 101
               = Some (plainEntry 0)) by (vm_compute; reflexivity).
  split; [exact He|].
  destruct (@X20_single_access_reuses scenarioExternals 0 p1
              PLACEMENT_ACCESS_DDL (Some "alice") writtenOnce (plainEntry 0)
              1%nat ltac:(discriminate) He eq_refl eq_refl
              (λ _, conj eq_refl (λ key ce (H : None = Some key) _,
                                    match H with end)))
    as (st' & Hstart & Hconns & _ & _ & _ & _ & _ & Hddl).
  exists st'. split; [exact Hstart|]. split; [exact Hconns|].
  cbn [primaryConnection plainEntry] in Hddl. rewrite Hddl. apply orb_true_r.
Defined.

(** X21, on a transaction that wrote p1 over connection 1, now claimed:
    StartPlacementConnection without flags fails with the error about a
    new connection over DML. *)
Lemma X21_witness :
  let r := @StartPlacementConnection scenarioExternals scenarioFlags 0 p1
             (Some "alice") writtenThenClaimed in
  r = (r.1, inl (NewConnOverDml 101)) ∧
  ∃ e, ConnectionPlacementHash r.1 !! 101 = Some e ∧
       modified (deref writtenThenClaimed (primaryConnection e)) = true.
Proof.
  intros r.
  assert (Hr : r = (r.1, inl (NewConnOverDml 101))) by (vm_compute; reflexivity).
  split; [exact Hr|].
  destruct (@X21_read_or_dml_on_one_placement scenarioExternals scenarioFlags
              0 p1 (Some "alice") writtenThenClaimed r.1 (NewConnOverDml 101)
              eq_refl Hr) as (e & He & _ & _ & _ & Hmod).
  by exists e.
Defined.

(** X22, on a fresh transaction: a DML on p1 and a SELECT on p2 return
    connection 1; after it is closed no entry holds a connection. *)
Lemma X22_witness :
  unconnected InitPlacementConnectionManagement ∧
  ∃ st',
    acquire [access p1 PLACEMENT_ACCESS_DML; access p2 PLACEMENT_ACCESS_SELECT]
      "alice" InitPlacementConnectionManagement = (st', inr 1%nat) ∧
    unconnected (CloseShardPlacementAssociation 1 st').
Proof.
  split; [apply unconnected_initial|].
  exact (@X22_acquire_then_close scenarioExternals 0
           (access p1 PLACEMENT_ACCESS_DML) [access p2 PLACEMENT_ACCESS_SELECT]
           (Some "alice") InitPlacementConnectionManagement 1%nat
           (OpenNewConnection 0 "worker-1" 5432 ∅).2
           unconnected_initial eq_refl).
Defined.

(** X23, on the keys of h1 and h2 with a buffer of 256 bytes: the keys are
    equal and compare as 0. *)
Lemma X23_witness :
  (String.length (nodeName h1) < 256)%nat ∧
  ColocatedPlacementsHashCompare 256 (ColocatedKey h1) (ColocatedKey h2) = 0.
Proof.
  assert (Hlen : (String.length (nodeName h1) < 256)%nat) by (simpl; lia).
  split; [exact Hlen|].
  apply (proj1 (X23_colocated_keys_compare 256 (ColocatedKey h1)
                  (ColocatedKey h2) Hlen)).
  reflexivity.
Defined.
